(** * DOT: knob-space controller of the database tuner

    A shallow embedding of the control loop of DOT (Dynamic Knob Selection and
    Online Sampling for Automated Database Tuning): the [Normalizer], the
    knob-set update of [knob_selection.py], the two-action and contextual
    bandits, the call-budget and feature-selection steps of [main.py] and the
    OLAP budget sampler of [MySQLDriver.py].

    Conventions of the embedding.
    - Python [int] is [Z]. Python [float] is binary64: a finite float is the
      rational it denotes, every arithmetic operation of the [Normalizer], of
      the sigmoid reward and of the sample size rounds its exact result to
      the nearest binary64 number ([RN]: ties to even, subnormal numbers
      included) and overflows to an infinity; [inf] and [nan] are values of
      [float]. The sign of a zero is not kept: no modelled operation
      observes it. Measured times, the 0/1 rewards and counters of the
      likelihood-ratio bandit and the Beta samples are exact rationals.
    - A Python [dict] whose order matters (the knob dictionary) is an
      association list; a [dict] used by key only is a [gmap]; a [set] is a
      [gset].
    - Code that can raise returns an [outcome]; the constructors of [exn] are
      the Python exception classes the modelled code raises.
    - Randomness, wall-clock measurements and the external regressor are
      arguments supplied by the environment. *)

From Stdlib Require Import ZArith QArith Qround Qabs Qpower Qreduction Lqa Lia String Ascii List.
From stdpp Require Import gmap strings list.

Local Open Scope Z_scope.

(** ** Exceptions and results *)

Inductive exn : Type :=
  | ValueError
  | TypeError
  | IndexError
  | KeyError
  | OverflowError
  | ZeroDivisionError
  | NotImplementedError
  | UnboundLocalError   (* the subclass of NameError raised on an unassigned local *)
  | AttributeError
  | SystemExit (code : Z).

(** What a call does: it returns, raises, or (a [while] loop that makes no
    progress) never comes back. *)
Inductive outcome (A : Type) : Type :=
  | Return (a : A)
  | Raise (e : exn)
  | Diverge.
Arguments Return {A} a.
Arguments Raise {A} e.
Arguments Diverge {A}.

Definition bind {A B : Type} (m : outcome A) (k : A → outcome B) : outcome B :=
  match m with
  | Return a => k a
  | Raise e => Raise e
  | Diverge => Diverge
  end.

Notation "'let!' x ':=' m 'in' k" := (bind m (λ x, k))
  (at level 10, x pattern, m at level 100, k at level 200).

Definition raises {A : Type} (m : outcome A) : Prop := ∃ e, m = Raise e.

Definition returns {A : Type} (m : outcome A) : Prop := ∃ a, m = Return a.

(** [UnboundLocalError] is the only [NameError] the modelled code raises. *)
Definition is_NameError (e : exn) : Prop := e = UnboundLocalError.

(** Truth value of an [int] flag in a condition. *)
Definition truthy (flag : Z) : bool := negb (flag =? 0).

(** ** Python numbers *)

Definition Qltb (x y : Q) : bool :=
  match (x ?= y)%Q with Lt => true | _ => false end.

(** Python's [round(x)] on a float: nearest integer, ties to the even one. *)
Definition py_round (x : Q) : Z :=
  let f := Qfloor x in
  match (x - inject_Z f ?= 1 # 2)%Q with
  | Lt => f
  | Gt => f + 1
  | Eq => if Z.even f then f else f + 1
  end.

(** [round(x, n)]: nearest multiple of [10^-n], ties to even. *)
Definition py_round_digits (x : Q) (n : nat) : Q :=
  let scale := inject_Z (10 ^ Z.of_nat n) in
  (inject_Z (py_round (x * scale)) / scale)%Q.

(** [int(x)] on a float: truncation toward zero. *)
Definition py_int (x : Q) : Z :=
  if Qltb x 0 then - Qfloor (- x) else Qfloor x.

(** ** Binary64 arithmetic *)

Definition pow2 (e : Z) : Q := (2 ^ e)%Q.

(** The binade of a non-zero [x]: the [e] with [2^e <= |x| < 2^(e+1)]. *)
Definition binade (x : Q) : Z :=
  let e := Z.log2 (Z.abs (Qnum x)) - Z.log2 (Zpos (Qden x)) in
  if Qle_bool (pow2 e) (Qabs x) then e else e - 1.

(** The exponent of the unit in the last place of [x]: 53 significant bits,
    and no finer than [2^-1074] (subnormal numbers). *)
Definition quantum (x : Q) : Z := Z.max (binade x - 52) (-1074).

(** Round to nearest, ties to even, on the binary64 grid with an unbounded
    exponent range above: the multiple of [2^quantum] nearest to [x]. *)
Definition RN (x : Q) : Q :=
  if Qeq_bool x 0 then 0%Q
  else Qred (inject_Z (py_round (x / pow2 (quantum x))) * pow2 (quantum x)).

(** [x] rounds to a magnitude of [2^1024] or more, beyond the largest
    binary64 number. *)
Definition overflows (x : Q) : bool := Qle_bool (pow2 1024) (Qabs (RN x)).

(** The same in closed form: [|x|] reaches the midpoint between the largest
    binary64 number and [2^1024]. *)
Definition too_large (x : Q) : Prop := (pow2 1024 - pow2 970 <= Qabs x)%Q.

Inductive float : Type :=
  | Finite (q : Q)
  | PInf
  | NInf
  | NaN.

(** The float that an operation with exact result [x] delivers. *)
Definition fl (x : Q) : float :=
  if overflows x then (if Qltb 0 x then PInf else NInf) else Finite (RN x).

(** A decimal literal of the source, such as [0.5] or [0.001]: the nearest
    float. *)
Definition literal (q : Q) : float := Finite (RN q).

Definition fsgn (a : float) : Z :=
  match a with
  | Finite x => if Qltb 0 x then 1 else if Qltb x 0 then -1 else 0
  | PInf => 1
  | NInf => -1
  | NaN => 0
  end.

Definition fneg (a : float) : float :=
  match a with
  | Finite x => Finite (- x)
  | PInf => NInf
  | NInf => PInf
  | NaN => NaN
  end.

Definition fadd (a b : float) : float :=
  match a, b with
  | NaN, _ | _, NaN => NaN
  | Finite x, Finite y => fl (x + y)
  | PInf, NInf | NInf, PInf => NaN
  | PInf, _ | _, PInf => PInf
  | NInf, _ | _, NInf => NInf
  end.

Definition fsub (a b : float) : float := fadd a (fneg b).

Definition fmul (a b : float) : float :=
  match a, b with
  | NaN, _ | _, NaN => NaN
  | Finite x, Finite y => fl (x * y)
  | _, _ =>
      match fsgn a * fsgn b with
      | 0 => NaN
      | Zpos _ => PInf
      | Zneg _ => NInf
      end
  end.

(** [a / b] on floats: a zero divisor raises whatever the dividend is. *)
Definition fdiv (a b : float) : outcome float :=
  match b with
  | Finite y =>
      if Qeq_bool y 0 then Raise ZeroDivisionError
      else
        match a with
        | Finite x => Return (fl (x / y))
        | NaN => Return NaN
        | _ => Return (if 0 <? fsgn a * fsgn b then PInf else NInf)
        end
  | NaN => Return NaN
  | _ =>
      match a with
      | Finite _ => Return (Finite 0)
      | _ => Return NaN
      end
  end.

(** [a < b] and [a == b] on floats; every comparison with [nan] is false. *)
Definition flt (a b : float) : bool :=
  match a, b with
  | NaN, _ | _, NaN => false
  | Finite x, Finite y => Qltb x y
  | NInf, NInf | PInf, _ => false
  | NInf, _ | _, PInf => true
  | Finite _, NInf => false
  end.

Definition feq (a b : float) : bool :=
  match a, b with
  | Finite x, Finite y => Qeq_bool x y
  | PInf, PInf | NInf, NInf => true
  | _, _ => false
  end.

(** [float(z)], as done implicitly when an [int] meets a float:
    correctly rounded, [OverflowError] beyond the range. *)
Definition of_int (z : Z) : outcome float :=
  if overflows (inject_Z z) then Raise OverflowError
  else Return (Finite (RN (inject_Z z))).

(** [a / b] on two [int]s: the correctly rounded quotient. *)
Definition int_truediv (a b : Z) : outcome float :=
  if b =? 0 then Raise ZeroDivisionError
  else if overflows (inject_Z a / inject_Z b) then Raise OverflowError
  else Return (Finite (RN (inject_Z a / inject_Z b))).

(** [round(a)] on a float. *)
Definition float_round (a : float) : outcome Z :=
  match a with
  | Finite x => Return (py_round x)
  | NaN => Raise ValueError
  | _ => Raise OverflowError
  end.

(** ** Python values *)

(** The values a knob, a configuration entry or a vector entry holds:
    numbers, or the strings that encode the two states of a boolean knob
    ("ON"/"OFF"). *)
Inductive value : Type :=
  | VInt (z : Z)
  | VFloat (f : float)
  | VStr (s : string).

(** A finite float as a value. *)
Definition float_value (q : Q) : value := VFloat (Finite q).

Definition as_number (v : value) : option float :=
  match v with
  | VInt z => Some (Finite (inject_Z z))
  | VFloat f => Some f
  | VStr _ => None
  end.

(** Python's [==]: numbers compare by value across [int] and [float], strings
    with strings, a number never equals a string. *)
Definition py_eq (a b : value) : bool :=
  match as_number a, as_number b with
  | Some x, Some y => feq x y
  | None, None =>
      match a, b with
      | VStr s, VStr t => bool_decide (s = t)
      | _, _ => false
      end
  | _, _ => false
  end.

(** ** Python list helpers *)

(** A slice bound [i] of [l[i:]] or [l[:i]]: negative bounds count from the
    end, and every bound is clipped into [0, len]. *)
Definition slice_index (len i : Z) : nat :=
  Z.to_nat (if i <? 0 then Z.max (i + len) 0 else Z.min i len).

(** [l[start:]] *)
Definition slice_from {A : Type} (l : list A) (start : Z) : list A :=
  drop (slice_index (Z.of_nat (length l)) start) l.

(** [l[:stop]] *)
Definition slice_to {A : Type} (l : list A) (stop : Z) : list A :=
  take (slice_index (Z.of_nat (length l)) stop) l.

Definition Qmax (x y : Q) : Q := if Qltb x y then y else x.

(** [max(l)]: [ValueError] on the empty list. *)
Definition py_max (l : list Q) : outcome Q :=
  match l with
  | [] => Raise ValueError
  | x :: l' => Return (foldl Qmax x l')
  end.

(** [np.argmin(y)]: index of the first minimum. *)
Fixpoint argmin_from (best : Q) (best_idx idx : nat) (l : list Q) : nat :=
  match l with
  | [] => best_idx
  | y :: l' =>
      if Qltb y best then argmin_from y idx (S idx) l'
      else argmin_from best best_idx (S idx) l'
  end.

Definition argmin (l : list Q) : outcome nat :=
  match l with
  | [] => Raise ValueError
  | y :: l' => Return (argmin_from y 0 1 l')
  end.

(** [sum(...)] over floats *)
Definition Qsum (l : list Q) : Q := foldr Qplus 0%Q l.

(** ** Drivers/Normalizer.py *)

Module Normalizer.

(** One entry of the knob dictionary, [name -> [kind, [min, max, default]]].
    Integer knobs carry integer bounds, boolean knobs carry the two sentinel
    values; any other kind string is [Unsupported]. *)
Inductive knob : Type :=
  | Integer (min_val max_val default_val : Z)
  | Boolean (min_val max_val default_val : value)
  | Unsupported (knob_type : string) (min_val max_val default_val : value).

(** [knob_dict] in its insertion order, which is also [knob_names]. *)
Definition knob_dict : Type := list (string * knob).

Definition knob_names (kd : knob_dict) : list string := kd.*1.

Definition supported (k : knob) : Prop :=
  match k with Unsupported _ _ _ _ => False | _ => True end.

(** [min_val + norm_val * (max_val - min_val)] followed by [round]. With an
    [int] entry the arithmetic is exact and [round] gives the [int] back;
    with a float entry the two [int] operands are converted and each
    operation rounds. A string entry is repeated [max_val - min_val] times
    (an [OverflowError] when the result would be longer than [sys.maxsize],
    here [2^63 - 1]) and cannot be added to [min_val]; running out of memory
    in a shorter repetition is not modelled. *)
Definition scaled (min_val max_val : Z) (norm_val : value) : outcome Z :=
  match norm_val with
  | VInt n => Return (min_val + n * (max_val - min_val))
  | VFloat f =>
      let! d := of_int (max_val - min_val) in
      let! m := of_int min_val in
      float_round (fadd m (fmul f d))
  | VStr s =>
      if 2 ^ 63 - 1 <? Z.of_nat (String.length s) * (max_val - min_val)
      then Raise OverflowError
      else Raise TypeError
  end.

(** [norm_val < 0.5] *)
Definition below_half (norm_val : value) : outcome bool :=
  match norm_val with
  | VInt n => Return (Qltb (inject_Z n) (1 # 2))
  | VFloat f => Return (flt f (Finite (1 # 2)))
  | VStr _ => Raise TypeError
  end.

(** Body of the loop of [denormalize] for one knob. *)
Definition denormalize_knob (k : knob) (norm_val : value) : outcome value :=
  match k with
  | Integer min_val max_val _ =>
      let! real_value := scaled min_val max_val norm_val in
      let real_value := if real_value >=? max_val then max_val else real_value in
      let real_value := if real_value <=? min_val then min_val else real_value in
      Return (VInt real_value)
  | Boolean min_val max_val _ =>
      let! low := below_half norm_val in
      Return (if low then min_val else max_val)
  | Unsupported _ _ _ _ => Raise NotImplementedError
  end.

(** [for i, knob in enumerate(self.knob_names)]: the knobs and the vector
    are walked in lockstep, [config_dict[knob] = real_value] at each step. *)
Fixpoint denormalize_loop (kd : knob_dict) (normalized_values : list value)
    (config_dict : gmap string value) : outcome (gmap string value) :=
  match kd, normalized_values with
  | [], _ => Return config_dict
  | (name, k) :: kd', norm_val :: rest =>
      let! real_value := denormalize_knob k norm_val in
      denormalize_loop kd' rest (<[name := real_value]> config_dict)
  | _ :: _, [] => Raise IndexError
  end.

Definition denormalize (kd : knob_dict) (normalized_values : list value)
    : outcome (gmap string value) :=
  if decide (length normalized_values ≠ length kd) then Raise ValueError
  else denormalize_loop kd normalized_values ∅.

(** [(real_value - min_val) / (max_val - min_val)]: the correctly rounded
    quotient of two [int]s, or float arithmetic on the converted bounds when
    the value is a float. *)
Definition unit_share (min_val max_val : Z) (real_value : value) : outcome float :=
  match real_value with
  | VInt v => int_truediv (v - min_val) (max_val - min_val)
  | VFloat f =>
      let! m := of_int min_val in
      let! d := of_int (max_val - min_val) in
      fdiv (fsub f m) d
  | VStr _ => Raise TypeError
  end.

(** Body of the loop of [normalize] for one knob whose value is present. *)
Definition normalize_knob (k : knob) (real_value : value) : outcome value :=
  match k with
  | Integer min_val max_val _ =>
      if decide (max_val = min_val) then Raise ValueError
      else
        let! norm_val := unit_share min_val max_val real_value in
        Return (VFloat norm_val)
  | Boolean min_val max_val _ =>
      if py_eq real_value min_val then Return (VFloat (Finite 0))
      else if py_eq real_value max_val then Return (VFloat (Finite 1))
      else Raise ValueError
  | Unsupported _ _ _ _ => Raise NotImplementedError
  end.

Fixpoint normalize (kd : knob_dict) (config : gmap string value)
    : outcome (list value) :=
  match kd with
  | [] => Return []
  | (name, k) :: kd' =>
      match config !! name with
      | None => Raise ValueError
      | Some real_value =>
          let! norm_val := normalize_knob k real_value in
          let! normalized_values := normalize kd' config in
          Return (norm_val :: normalized_values)
      end
  end.

Definition default_value (k : knob) : value :=
  match k with
  | Integer _ _ d => VInt d
  | Boolean _ _ d => d
  | Unsupported _ _ _ d => d
  end.

Definition get_default_normalized_values (kd : knob_dict) : outcome (list value) :=
  normalize kd (list_to_map (prod_map id default_value <$> kd)).

(** The legal value domain of a knob: an integer inside a non-degenerate
    range, or one of the two states of a boolean knob. *)
Definition legal_value (k : knob) (v : value) : Prop :=
  match k with
  | Integer min_val max_val _ => min_val < max_val ∧ ∃ z, v = VInt z ∧ min_val ≤ z ≤ max_val
  | Boolean min_val max_val _ => py_eq v min_val = true ∨ py_eq v max_val = true
  | Unsupported _ _ _ _ => False
  end.

Definition legal_config (kd : knob_dict) (config : gmap string value) : Prop :=
  Forall (λ nk, ∃ v, config !! nk.1 = Some v ∧ legal_value nk.2 v) kd.

(** A range on which binary64 keeps the round trip of an integer knob
    exact: bounds within [2^50] of zero and of each other. *)
Definition moderate (k : knob) : Prop :=
  match k with
  | Integer min_val max_val _ =>
      - 2 ^ 50 ≤ min_val ∧ max_val ≤ 2 ^ 50 ∧ max_val - min_val ≤ 2 ^ 50
  | _ => True
  end.

(** The reasons to reject the value of a knob that the specification
    lists: a boolean knob has a value that is neither of its states, an
    integer knob has an empty range. *)
Definition listed_rejection_of (k : knob) (v : value) : Prop :=
  match k with
  | Integer min_val max_val _ => max_val = min_val
  | Boolean min_val max_val _ => py_eq v min_val = false ∧ py_eq v max_val = false
  | Unsupported _ _ _ _ => False
  end.

(** The reasons for which the code rejects the value of a knob: the listed
    ones; an integer knob whose value is a string, an [int] whose share of
    the range is too large for a float, or a float when one of the bounds
    of the range is too large for a float; and a knob of an unsupported
    kind. *)
Definition rejection_of (k : knob) (v : value) : Prop :=
  match k with
  | Integer min_val max_val _ =>
      max_val = min_val ∨
      match v with
      | VInt z => too_large (inject_Z (z - min_val) / inject_Z (max_val - min_val))
      | VFloat _ =>
          too_large (inject_Z min_val) ∨ too_large (inject_Z (max_val - min_val))
      | VStr _ => True
      end
  | Boolean min_val max_val _ => py_eq v min_val = false ∧ py_eq v max_val = false
  | Unsupported _ _ _ _ => True
  end.

(** An entry of the knob dictionary is rejected when the configuration
    misses the knob or holds a rejected value for it. *)
Definition listed_rejection (config : gmap string value) (nk : string * knob) : Prop :=
  match config !! nk.1 with
  | None => True
  | Some v => listed_rejection_of nk.2 v
  end.

Definition rejection (config : gmap string value) (nk : string * knob) : Prop :=
  match config !! nk.1 with
  | None => True
  | Some v => rejection_of nk.2 v
  end.

(** An accepted value is normalized without coercion: the [int] value of
    an integer knob gives the float nearest to its share of the range (also
    outside the unit interval), a float value the float computed from it,
    and a boolean knob gives 0.0 or 1.0. *)
Definition faithful_knob (k : knob) (v : value) (x : value) : Prop :=
  match k with
  | Integer min_val max_val _ =>
      match v with
      | VInt z =>
          x = VFloat (Finite (RN (inject_Z (z - min_val) / inject_Z (max_val - min_val))))
      | VFloat f =>
          ∃ g, x = VFloat g ∧
            fdiv (fsub f (Finite (RN (inject_Z min_val))))
                 (Finite (RN (inject_Z (max_val - min_val)))) = Return g
      | VStr _ => False
      end
  | Boolean min_val max_val _ =>
      (py_eq v min_val = true ∧ x = VFloat (Finite 0)) ∨
      (py_eq v max_val = true ∧ x = VFloat (Finite 1))
  | Unsupported _ _ _ _ => False
  end.

Definition faithful_entry (config : gmap string value) (nk : string * knob) (x : value) : Prop :=
  ∃ v, config !! nk.1 = Some v ∧ faithful_knob nk.2 v x.

(** The vector entries [denormalize] rejects: for an integer knob a string,
    or a float that is [nan] or infinite, that meets a bound of the range
    too large for a float, or whose scaled value leaves the binary64 range;
    for a boolean knob a string. *)
Definition entry_rejection_of (k : knob) (norm_val : value) : Prop :=
  match k with
  | Integer min_val max_val _ =>
      match norm_val with
      | VInt _ => False
      | VFloat f =>
          too_large (inject_Z (max_val - min_val)) ∨ too_large (inject_Z min_val) ∨
          match f with
          | Finite x =>
              let d := RN (inject_Z (max_val - min_val)) in
              too_large (x * d) ∨ too_large (RN (inject_Z min_val) + RN (x * d))
          | _ => True
          end
      | VStr _ => True
      end
  | Boolean _ _ _ =>
      match norm_val with VStr _ => True | _ => False end
  | Unsupported _ _ _ _ => True
  end.

Definition entry_rejection (entry : (string * knob) * value) : Prop :=
  entry_rejection_of entry.1.2 entry.2.

(** The knob dictionary [{A: [integer, [0, 100, 50]], B: [boolean, [OFF, ON, OFF]]}]
    and the configuration [{A: 80, B: OFF}]. *)
Definition scenario_knobs : knob_dict :=
  [("A"%string, Integer 0 100 50);
   ("B"%string, Boolean (VStr "OFF") (VStr "ON") (VStr "OFF"))].

Definition scenario_config : gmap string value :=
  {[ "A"%string := VInt 80; "B"%string := VStr "OFF" ]}.

(** A range [0, max_val] with one knob, and what the round trip of [v]
    returns for it. *)
Definition wide_round_trip (max_val v : Z) : outcome (gmap string value) :=
  let kd := [("K"%string, Integer 0 max_val 0)] in
  let! vec := normalize kd {[ "K"%string := VInt v ]} in
  denormalize kd vec.

End Normalizer.

(** ** tuner/knob_selection.py *)

Module KnobSelection.

(** [selection_mask.count(True)] *)
Definition count_True (selection_mask : list bool) : Z :=
  Z.of_nat (length (filter Is_true selection_mask)).

(** *** IncrementalSupportMask *)

Record IncrementalSupportMask : Type := {
  n_features : Z;
  step : Z;
  selected : Z
}.

Definition IncrementalSupportMask_init (n_features step initial : Z)
    : IncrementalSupportMask :=
  {| n_features := n_features; step := step; selected := initial - step |}.

(** [__call__]: bumps [selected] and returns the mask [i < selected]. *)
Definition IncrementalSupportMask_call (self : IncrementalSupportMask)
    : IncrementalSupportMask * list bool :=
  let selected' := Z.min (selected self + step self) (n_features self) in
  ({| n_features := n_features self; step := step self; selected := selected' |},
   (λ i, bool_decide (i < selected')) <$> seqZ 0 (n_features self)).

(** *** update_tuned_knobs *)

(** The keyword flags of [update_tuned_knobs]. *)
Record flags : Type := {
  is_random : Z;
  is_incremental : Z;
  is_SE : Z;
  is_bandit : Z;
  is_TS : Z;
  is_LRT : Z;
  is_pure_incremental : Z
}.

(** The defaults of the signature: no flag set. *)
Definition default_flags : flags :=
  {| is_random := 0; is_incremental := 0; is_SE := 0; is_bandit := 0;
     is_TS := 0; is_LRT := 0; is_pure_incremental := 0 |}.

(** [element_to_tune] after the policy cascade. *)
Definition target_size (f : flags) (bandit_choice : Z)
    (current : list string) (selection_mask : list bool) : Z :=
  let element_to_tune := Z.of_nat (length current) in
  if bool_decide (is_incremental f = 1 ∨ is_SE f = 1) then
    count_True selection_mask
  else if bool_decide (is_bandit f = 1) then
    count_True selection_mask + 5 * bandit_choice
  else if bool_decide (is_TS f = 1 ∨ is_LRT f = 1) then
    count_True selection_mask + 5 * bandit_choice
  else if truthy (is_pure_incremental f) then
    count_True selection_mask + 5
  else if bool_decide (count_True selection_mask = Z.of_nat (length selection_mask)) then
    Qfloor (inject_Z element_to_tune * (3 # 2))     (* math.floor(n * 1.5) *)
  else
    count_True selection_mask + 1.

(** [[k for i, k in enumerate(current) if selection_mask[i] and i < len(current)]]:
    [selection_mask[i]] is read for every index of [current]. *)
Fixpoint retained (current : list string) (selection_mask : list bool)
    : outcome (list string) :=
  match current, selection_mask with
  | [], _ => Return []
  | k :: current', b :: mask' =>
      let! rest := retained current' mask' in
      Return (if b then k :: rest else rest)
  | _ :: _, [] => Raise IndexError
  end.

(** The [while] loop of the random policy. Each turn draws a fresh shuffle
    of [keys] ([random.sample(keys, len(keys))], here [shuffle turn keys])
    and appends its first key that is not used yet. A turn that finds no
    such key changes nothing, so the loop spins for ever. [fuel] bounds the
    turns that append a key; [S (length keys)] is enough. *)
Fixpoint random_fill (fuel : nat) (shuffle : nat → list string → list string)
    (turn : nat) (keys : list string) (element_to_tune : Z)
    (new_list : list string) (used : gset string) (updated : bool)
    : outcome (list string * bool) :=
  if bool_decide (Z.of_nat (length new_list) < element_to_tune) then
    if bool_decide (size used = length keys) then Return (new_list, updated)
    else
      match List.find (λ c, bool_decide (c ∉ used)) (shuffle turn keys) with
      | None => Diverge
      | Some c =>
          match fuel with
          | O => Diverge
          | S fuel' =>
              random_fill fuel' shuffle (S turn) keys element_to_tune
                (new_list ++ [c]) ({[c]} ∪ used) true
          end
      end
  else Return (new_list, updated).

Definition update_tuned_knobs (shuffle : nat → list string → list string)
    (current_tuned_list : list string) (full_knob_dict : Normalizer.knob_dict)
    (selection_mask : list bool) (frozen_values : gmap string value)
    (f : flags) (bandit_choice : Z) : outcome (list string * bool) :=
  let current := current_tuned_list in
  let used : gset string := list_to_set current ∪ dom frozen_values in
  let keys := Normalizer.knob_names full_knob_dict in
  let updated := bool_decide (count_True selection_mask < Z.of_nat (length current)) in
  let element_to_tune := target_size f bandit_choice current selection_mask in
  let! new_list := retained current selection_mask in
  if truthy (is_random f) then
    random_fill (S (length keys)) shuffle 0 keys element_to_tune new_list used updated
  else
    let needed := element_to_tune - Z.of_nat (length new_list) in
    if bool_decide (0 < needed) then
      let available := filter (λ k, k ∉ used) keys in
      let to_add := take (Z.to_nat needed) available in
      Return (new_list ++ to_add, bool_decide (to_add ≠ []))
    else Return (new_list, updated).

(** A knob dictionary of twenty knobs named "a" to "t", for worked cases. *)
Definition letter (i : nat) : string := String (ascii_of_nat (97 + i)) EmptyString.

Definition twenty_knobs : Normalizer.knob_dict :=
  (λ i, (letter i, Normalizer.Integer 0 100 50)) <$> seq 0 20.

Definition first_ten : list string := letter <$> seq 0 10.

End KnobSelection.

(** ** tuner/TwoActionLRT.py *)

Module TwoActionLRT.

Record t : Type := {
  success : list Q;
  failure : list Q;
  _last_action : option nat
}.

Definition init : t :=
  {| success := [1; 1]%Q; failure := [1; 1]%Q; _last_action := None |}.

(** [self.success[i] / (self.success[i] + self.failure[i])] *)
Definition success_rate (self : t) (i : nat) : outcome Q :=
  match success self !! i, failure self !! i with
  | Some s, Some f =>
      if Qeq_bool (s + f) 0 then Raise ZeroDivisionError else Return (s / (s + f))%Q
  | _, _ => Raise IndexError
  end.

Definition eps : Q := 1 # 100000000.

(** [math.log(x) > 0] holds exactly when [x > 1]; [math.log] raises
    [ValueError] outside its domain. *)
Definition select (self : t) : outcome (t * nat) :=
  let! r0 := success_rate self 0 in
  let! r1 := success_rate self 1 in
  if Qeq_bool (r0 + eps) 0 then Raise ZeroDivisionError
  else
    let ratio := ((r1 + eps) / (r0 + eps))%Q in
    if Qle_bool ratio 0 then Raise ValueError
    else
      let action := if Qltb 1 ratio then 1%nat else 0%nat in
      Return ({| success := success self; failure := failure self;
                 _last_action := Some action |}, action).

(** [self.success[action] += reward] raises [IndexError] out of range. *)
Definition update (self : t) (reward : Q) : outcome t :=
  match _last_action self with
  | None => Return self
  | Some action =>
      match success self !! action, failure self !! action with
      | Some s, Some f =>
          Return {| success := <[action := (s + reward)%Q]> (success self);
                    failure := <[action := (f + (1 - reward))%Q]> (failure self);
                    _last_action := None |}
      | _, _ => Raise IndexError
      end
  end.

Definition default_threshold : Q := 1 # 1000.

(** The static method [reward]; [1.0] and [0.0] are [1] and [0]. *)
Definition reward (cur_perf best_perf : Q) (n_calls : Z) (threshold : Q) : outcome Q :=
  let improvement_ratio :=
    ((cur_perf - best_perf) / (if Qeq_bool best_perf 0 then 1 else best_perf))%Q in
  if n_calls =? 0 then Raise ZeroDivisionError
  else
    let improvement_per_step := (improvement_ratio / inject_Z n_calls)%Q in
    Return (if Qltb threshold improvement_per_step then 1 else 0)%Q.

(** The reward rule as the specification words it, to compare with [reward]:
    the improvement ratio is defined as [1.0] when [best_perf] is zero. *)
Definition reward_as_specified (cur_perf best_perf : Q) (n_calls : Z) (threshold : Q) : Q :=
  let improvement_ratio :=
    if Qeq_bool best_perf 0 then 1%Q else ((cur_perf - best_perf) / best_perf)%Q in
  let improvement_per_step := (improvement_ratio / inject_Z n_calls)%Q in
  if Qltb threshold improvement_per_step then 1%Q else 0%Q.

End TwoActionLRT.

(** ** tuner/TwoActionTS.py and tuner/contextualTS.py *)

(** What one call of [select] draws from the random generators:
    [random.random()], the uniformly chosen action, and one Beta sample per
    action. *)
Record draws : Type := {
  uniform : Q;
  coin : nat;
  theta0 : Q;
  theta1 : Q
}.

(** The sigmoid reward the two Thompson-sampling classes share, in binary64.
    [math.exp] is a parameter (it raises [OverflowError] on large
    arguments and underflows to 0.0 on very negative ones); only the
    [ZeroDivisionError] of the first division is caught, and gives the
    ratio [1.0]; [n_calls] is an [int], converted for the division. *)
Definition sigmoid_reward (exp : float → outcome float) (cur_perf best_perf : float)
    (n_calls : Z) (scale : float) : outcome float :=
  let! improvement_ratio :=
    match fdiv (fsub cur_perf best_perf) best_perf with
    | Raise ZeroDivisionError => Return (Finite 1)
    | o => o
    end in
  let! n := of_int n_calls in
  let! improvement_per_step := fdiv improvement_ratio n in
  let! e := exp (fmul (fneg scale) (fsub improvement_per_step (literal (1 # 1000)))) in
  fdiv (Finite 1) (fadd (Finite 1) e).

Module TwoActionTS.

Record t : Type := {
  epsilon : Q;
  alpha : list float;
  beta : list float;
  _last_action : option nat
}.

Definition init (epsilon : Q) : t :=
  {| epsilon := epsilon; alpha := [Finite 1; Finite 1]; beta := [Finite 1; Finite 1];
     _last_action := None |}.

(** [max(range(2), key=...)] keeps the first maximum. *)
Definition select (self : t) (d : draws) : t * nat :=
  let action :=
    if Qltb (uniform d) (epsilon self) then coin d
    else if Qltb (theta0 d) (theta1 d) then 1%nat else 0%nat in
  ({| epsilon := epsilon self; alpha := alpha self; beta := beta self;
      _last_action := Some action |}, action).

(** [self.alpha[a] += reward; self.beta[a] += (1.0 - reward)] *)
Definition update (self : t) (reward : float) : outcome t :=
  match _last_action self with
  | None => Return self
  | Some a =>
      match alpha self !! a, beta self !! a with
      | Some x, Some y =>
          Return {| epsilon := epsilon self;
                    alpha := <[a := fadd x reward]> (alpha self);
                    beta := <[a := fadd y (fsub (Finite 1) reward)]> (beta self);
                    _last_action := None |}
      | _, _ => Raise IndexError
      end
  end.

Definition reward := sigmoid_reward.

End TwoActionTS.

Module ContextualTS.

(** [alpha] and [beta] map a context (0 or 1) to the pair of accumulators
    of its two actions. *)
Record t : Type := {
  epsilon : Q;
  alpha : gmap Z (list float);
  beta : gmap Z (list float);
  _last_context : option Z;
  _last_action : option nat
}.

Definition init (epsilon : Q) : t :=
  {| epsilon := epsilon;
     alpha := {[ 0 := [Finite 1; Finite 1]; 1 := [Finite 1; Finite 1] ]};
     beta := {[ 0 := [Finite 1; Finite 1]; 1 := [Finite 1; Finite 1] ]};
     _last_context := None; _last_action := None |}.

(** [self.alpha[c][a]]: [KeyError] on an unknown context, [IndexError] on
    an action out of range. *)
Definition accumulator (m : gmap Z (list float)) (c : Z) (a : nat) : outcome float :=
  match m !! c with
  | None => Raise KeyError
  | Some l => match l !! a with None => Raise IndexError | Some x => Return x end
  end.

(** The posterior of the context is read only when sampling;
    [samples[0] >= samples[1]] picks action 0. *)
Definition select (self : t) (context : Z) (d : draws) : outcome (t * nat) :=
  let! action :=
    if Qltb (uniform d) (epsilon self) then Return (coin d)
    else
      let! _ := accumulator (alpha self) context 0 in
      let! _ := accumulator (beta self) context 0 in
      Return (if Qle_bool (theta1 d) (theta0 d) then 0%nat else 1%nat) in
  Return ({| epsilon := epsilon self; alpha := alpha self; beta := beta self;
             _last_context := Some context; _last_action := Some action |}, action).

Definition update (self : t) (reward : float) : outcome t :=
  match _last_context self, _last_action self with
  | Some c, Some a =>
      let! x := accumulator (alpha self) c a in
      let! y := accumulator (beta self) c a in
      Return {| epsilon := epsilon self;
                alpha := alter (λ l, <[a := fadd x reward]> l) c (alpha self);
                beta := alter (λ l, <[a := fadd y (fsub (Finite 1) reward)]> l) c
                          (beta self);
                _last_context := None; _last_action := None |}
  | _, _ => Return self
  end.

Definition reward := sigmoid_reward.

End ContextualTS.

(** ** tuner/main.py (with get_combined_config of tuner/utils.py) *)

Module Tuner.
Import KnobSelection.

(** The nine flags main() reads from the configuration, in the order of the
    tuple it passes around. *)
Record flags : Type := {
  is_basic : Z;
  is_low : Z;
  is_SE : Z;
  is_incremental : Z;
  is_bandit : Z;
  is_TS : Z;
  is_LRT : Z;
  is_super_low : Z;
  is_pure_incremental : Z
}.

Definition no_flags : flags :=
  {| is_basic := 0; is_low := 0; is_SE := 0; is_incremental := 0; is_bandit := 0;
     is_TS := 0; is_LRT := 0; is_super_low := 0; is_pure_incremental := 0 |}.

(** [decide_calls]: [x0] is [None] on a cold start; [sys.exit(1)] is
    [SystemExit 1]. *)
Definition decide_calls {X : Type} (x0 : option X)
    (updated_knobs_num len_knobs : Z) (f : flags) (remaining_iters : Z)
    : outcome (Z * Z) :=
  let '(initial_pts, n_calls) :=
    match x0 with
    | None =>
        let n_calls := 10 * len_knobs in
        let n_calls := if truthy (is_super_low f) then 5 * len_knobs else n_calls in
        let n_calls := if truthy (is_SE f) then 100 else n_calls in
        (10, n_calls)
    | Some _ =>
        let n_calls :=
          if updated_knobs_num =? 0 then 10
          else
            let n_calls := 10 * len_knobs in
            let n_calls :=
              if truthy (is_low f) then updated_knobs_num * 10 else n_calls in
            if truthy (is_super_low f) then updated_knobs_num * 5 else n_calls in
        let n_calls := if truthy (is_SE f) then remaining_iters - 100 else n_calls in
        (0, n_calls)
    end in
  let n_calls := if truthy (is_basic f) then remaining_iters else n_calls in
  if 2 <? is_basic f + is_incremental f + is_SE f + is_bandit f then
    Raise (SystemExit 1)
  else
    let n_calls := if truthy (is_incremental f) then 25 else n_calls in
    Return (initial_pts, Z.min n_calls remaining_iters).

(** The number of the exclusive control-strategy flags that are set. *)
Definition exclusive_flags_set (f : flags) : nat :=
  length (filter (λ flag, flag ≠ 0) [is_basic f; is_incremental f; is_SE f; is_bandit f]).

(** [get_combined_config] of utils.py; [best_norm] is a row of the
    optimizer's history, a list of finite floats. *)
Definition get_combined_config (normalizer full_knob_dict : Normalizer.knob_dict)
    (frozen_values : gmap string value) (best_norm : list Q)
    : outcome (gmap string value) :=
  let! tuned_config := Normalizer.denormalize normalizer (float_value <$> best_norm) in
  Return (foldl (λ combined nk,
            let '(knob, values) := nk in
            match tuned_config !! knob, frozen_values !! knob with
            | Some v, _ => <[knob := v]> combined
            | None, Some v => <[knob := v]> combined
            | None, None => <[knob := Normalizer.default_value values]> combined
            end) ∅ full_knob_dict).

(** [Normalizer({k: full_knob_dict[k] for k in knobs})] *)
Fixpoint sub_dict (full_knob_dict : Normalizer.knob_dict) (knobs : list string)
    : outcome Normalizer.knob_dict :=
  match knobs with
  | [] => Return []
  | k :: knobs' =>
      match (list_to_map full_knob_dict : gmap string Normalizer.knob) !! k with
      | None => Raise KeyError
      | Some values =>
          let! rest := sub_dict full_knob_dict knobs' in
          Return ((k, values) :: filter (λ nk, nk.1 ≠ k) rest)
      end
  end.

(** The bandit object main() builds, if any. *)
Inductive bandit : Type :=
  | Contextual (b : ContextualTS.t)
  | TwoTS (b : TwoActionTS.t)
  | TwoLRT (b : TwoActionLRT.t).

(** The collaborators of one call of [feature_selection_cycle]: the
    cross-validated feature elimination of scikit-learn, the Welch test of
    [eliminate_with_scipy_ttest], the CSV readers, the random generators
    and [math.exp]. Each one either returns or raises. *)
Record env : Type := {
  rfecv_support : list (list Q) → list Q → Z → option Z → outcome (list bool);
  ttest_support : list (list Q) → list Q → outcome (list bool);
  load_y_data : outcome (list Q);
  load_intermediate_data : list string → outcome (list (list Q) * list Q);
  select_draws : draws;
  shuffle : nat → list string → list string;
  exp : float → outcome float
}.

(** [reward = bandit.reward(cur_perf, best_perf, n_calls)] followed by
    [bandit.update(reward)], for the class of the bandit at hand. *)
Definition bandit_reward_update (e : env) (b : option bandit) (cur_perf best_perf : Q)
    (n_calls : Z) : outcome bandit :=
  match b with
  | None => Raise AttributeError
  | Some (TwoLRT s) =>
      let! reward :=
        TwoActionLRT.reward cur_perf best_perf n_calls TwoActionLRT.default_threshold in
      let! s' := TwoActionLRT.update s reward in
      Return (TwoLRT s')
  | Some (TwoTS s) =>
      let! reward :=
        TwoActionTS.reward (exp e) (Finite cur_perf) (Finite best_perf) n_calls
          (Finite 500) in
      let! s' := TwoActionTS.update s reward in
      Return (TwoTS s')
  | Some (Contextual s) =>
      let! reward :=
        ContextualTS.reward (exp e) (Finite cur_perf) (Finite best_perf) n_calls
          (Finite 500) in
      let! s' := ContextualTS.update s reward in
      Return (Contextual s')
  end.

(** [bandit.select(context)]: only the contextual class takes a context. *)
Definition bandit_select_context (e : env) (b : bandit) (context : Z)
    : outcome (bandit * Z) :=
  match b with
  | Contextual s =>
      let! (s', a) := ContextualTS.select s context (select_draws e) in
      Return (Contextual s', Z.of_nat a)
  | _ => Raise TypeError
  end.

(** [bandit.select()]: the contextual class would miss its argument. *)
Definition bandit_select (e : env) (b : bandit) : outcome (bandit * Z) :=
  match b with
  | TwoLRT s =>
      let! (s', a) := TwoActionLRT.select s in Return (TwoLRT s', Z.of_nat a)
  | TwoTS s =>
      let '(s', a) := TwoActionTS.select s (select_draws e) in
      Return (TwoTS s', Z.of_nat a)
  | Contextual _ => Raise TypeError
  end.

(** [cur_perf], [best_perf], then [bandit.update(bandit.reward(...))]. *)
Definition reward_and_update (e : env) (b : option bandit) (n_calls : option Z)
    : outcome bandit :=
  let! perf_list := load_y_data e in
  match n_calls with
  | None => Raise TypeError
  | Some n =>
      let! cur_perf := py_max (slice_from perf_list (- n)) in
      let earlier := slice_to perf_list (Z.of_nat (length perf_list) - n) in
      let! best_perf :=
        match earlier with [] => Return 0%Q | _ => py_max earlier end in
      bandit_reward_update e b cur_perf best_perf n
  end.

(** The locals the selection branches leave behind; a local that a branch
    never assigned is [None]. *)
Record locals : Type := {
  mask : list bool;
  bandit_choice : Z;
  min_features_to_select : option Z;
  selector' : option IncrementalSupportMask;
  bandit' : option bandit
}.

Definition n_estimators (current_knobs : list string) : Z :=
  100 + 10 * Z.of_nat (length current_knobs).

(** The [if]/[elif] cascade that computes the importance mask. *)
Definition select_features (e : env) (X_all : list (list Q)) (y_all : list Q)
    (current_knobs : list string) (f : flags)
    (selector : option IncrementalSupportMask) (b : option bandit)
    (n_calls : option Z) : outcome locals :=
  if negb (truthy (is_SE f)) && negb (truthy (is_incremental f))
     && negb (truthy (is_bandit f)) && negb (truthy (is_TS f))
     && negb (truthy (is_LRT f)) && negb (truthy (is_pure_incremental f)) then
    let! m := rfecv_support e X_all y_all (n_estimators current_knobs) None in
    Return {| mask := m; bandit_choice := -1; min_features_to_select := None;
              selector' := selector; bandit' := b |}
  else if truthy (is_incremental f) then
    match selector with
    | None => Raise TypeError          (* 'NoneType' object is not callable *)
    | Some s =>
        let '(s', m) := IncrementalSupportMask_call s in
        Return {| mask := m; bandit_choice := -1; min_features_to_select := None;
                  selector' := Some s'; bandit' := b |}
    end
  else if truthy (is_SE f) then
    let! m := ttest_support e X_all y_all in
    Return {| mask := m; bandit_choice := -1; min_features_to_select := None;
              selector' := selector; bandit' := b |}
  else if truthy (is_bandit f) then
    let! m := rfecv_support e X_all y_all (n_estimators current_knobs) None in
    let context := if forallb id m then 1 else 0 in
    let! b1 := reward_and_update e b n_calls in
    let! (b2, choice) := bandit_select_context e b1 context in
    Return {| mask := m; bandit_choice := choice; min_features_to_select := None;
              selector' := selector; bandit' := Some b2 |}
  else if truthy (is_TS f) || truthy (is_LRT f) then
    let min_features := if truthy (is_super_low f) then 10 else 1 in
    let! m := rfecv_support e X_all y_all (n_estimators current_knobs)
                (Some min_features) in
    let! b1 := reward_and_update e b n_calls in
    let! (b2, choice) := bandit_select e b1 in
    Return {| mask := m; bandit_choice := choice;
              min_features_to_select := Some min_features;
              selector' := selector; bandit' := Some b2 |}
  else if truthy (is_pure_incremental f) then
    let min_features := if truthy (is_super_low f) then 10 else 1 in
    let! m := rfecv_support e X_all y_all (n_estimators current_knobs)
                (Some min_features) in
    Return {| mask := m; bandit_choice := 0;
              min_features_to_select := Some min_features;
              selector' := selector; bandit' := b |}
  else Raise (SystemExit 1).

(** Reading a local variable: [UnboundLocalError] when no branch assigned it. *)
Definition read_local {A : Type} (x : option A) : outcome A :=
  match x with
  | Some a => Return a
  | None => Raise UnboundLocalError
  end.

(** What a call returns, together with the objects it mutated. *)
Record cycle_result : Type := {
  new_knobs : list string;
  updated_num : Z;
  new_x0 : list (list Q);
  new_y0 : list Q;
  frozen_values' : gmap string value;
  selector_after : option IncrementalSupportMask;
  bandit_after : option bandit
}.

(** [for k in current_knobs: if k not in new_knobs: frozen_values[k] = best_cfg[k]] *)
Fixpoint freeze (current_knobs new_knobs : list string)
    (best_cfg frozen_values : gmap string value) : outcome (gmap string value) :=
  match current_knobs with
  | [] => Return frozen_values
  | k :: rest =>
      if bool_decide (k ∈ new_knobs) then freeze rest new_knobs best_cfg frozen_values
      else
        match best_cfg !! k with
        | None => Raise KeyError
        | Some v => freeze rest new_knobs best_cfg (<[k := v]> frozen_values)
        end
  end.

Definition feature_selection_cycle (e : env) (X_all : list (list Q)) (y_all : list Q)
    (current_knobs : list string) (full_knob_dict : Normalizer.knob_dict)
    (frozen_values : gmap string value) (f : flags)
    (selector : option IncrementalSupportMask) (is_random : Z)
    (b : option bandit) (n_calls : option Z) : outcome cycle_result :=
  let! l := select_features e X_all y_all current_knobs f selector b n_calls in
  (* print("min_features_to_select is ", min_features_to_select) *)
  let! _ := read_local (min_features_to_select l) in
  let! (new_knobs, updated) :=
    update_tuned_knobs (shuffle e) current_knobs full_knob_dict (mask l) frozen_values
      {| KnobSelection.is_random := is_random;
         KnobSelection.is_incremental := is_incremental f;
         KnobSelection.is_SE := is_SE f;
         KnobSelection.is_bandit := is_bandit f;
         KnobSelection.is_TS := is_TS f;
         KnobSelection.is_LRT := is_LRT f;
         KnobSelection.is_pure_incremental := is_pure_incremental f |}
      (bandit_choice l) in
  if updated then
    let! best_idx := argmin y_all in
    let! normalizer := sub_dict full_knob_dict current_knobs in
    let! best_norm :=
      match X_all !! best_idx with Some x => Return x | None => Raise IndexError end in
    let! best_cfg := get_combined_config normalizer full_knob_dict frozen_values best_norm in
    let! frozen := freeze current_knobs new_knobs best_cfg frozen_values in
    let updated_num :=
      Z.of_nat (size (list_to_set new_knobs ∖ list_to_set current_knobs : gset string)) in
    let! _ := sub_dict full_knob_dict new_knobs in
    let! (x0, y0) := load_intermediate_data e new_knobs in
    Return {| new_knobs := new_knobs; updated_num := updated_num;
              new_x0 := x0; new_y0 := y0; frozen_values' := frozen;
              selector_after := selector' l; bandit_after := bandit' l |}
  else
    Return {| new_knobs := current_knobs; updated_num := 0;
              new_x0 := X_all; new_y0 := y_all; frozen_values' := frozen_values;
              selector_after := selector' l; bandit_after := bandit' l |}.

(** Collaborators that always succeed and call every knob important, for
    worked cases. *)
Definition obliging_env : env :=
  {| rfecv_support := λ X_all _ _ _, Return (replicate (length (List.hd [] X_all)) true);
     ttest_support := λ X_all _, Return (replicate (length (List.hd [] X_all)) true);
     load_y_data := Return [1; 2; 3]%Q;
     load_intermediate_data := λ _, Return ([], []);
     select_draws := {| uniform := 1; coin := 0; theta0 := 0; theta1 := 0 |};
     shuffle := λ _ keys, keys;
     exp := λ _, Return (Finite 1) |}.

End Tuner.

(** ** Drivers/MySQLDriver.py: execute_olap *)

Module MySQLDriver.

(** *** Statement units *)

Definition lower_ascii (c : ascii) : ascii :=
  let n := nat_of_ascii c in
  if (65 <=? n)%nat && (n <=? 90)%nat then ascii_of_nat (n + 32) else c.

(** [str.lower] *)
Fixpoint lower (s : string) : string :=
  match s with
  | EmptyString => EmptyString
  | String c s' => String (lower_ascii c) (lower s')
  end.

(** ['; '.join(buffer)] *)
Fixpoint join (sep : string) (l : list string) : string :=
  match l with
  | [] => EmptyString
  | [s] => s
  | s :: l' => (s ++ sep ++ join sep l')%string
  end.

(** The grouping loop over the stripped, non-empty [parts] of the script:
    a [CREATE VIEW ... DROP VIEW] span becomes one unit. *)
Fixpoint group_statements (parts buffer : list string) (in_view : bool) : list string :=
  match parts with
  | [] => []
  | part :: parts' =>
      let low := lower part in
      if String.prefix "create view" low then group_statements parts' [part] true
      else if in_view then
        let buffer := buffer ++ [part] in
        if String.prefix "drop view" low then
          (join "; " buffer ++ ";")%string :: group_statements parts' [] false
        else group_statements parts' buffer true
      else (part ++ ";")%string :: group_statements parts' buffer false
  end.

(** *** Driver state and environment *)

(** The two attributes [execute_olap] creates on first use. *)
Record baseline : Type := {
  best_total_time : option Q;
  best_olap_times : gmap string Q
}.

(** [olap] is [None] until the attributes exist ([hasattr]). *)
Record driver : Type := {
  budget_allocator : Q;
  olap : option baseline
}.

(** What the outside world contributes to one call: the random choices of
    [random.sample], the time [_execute_single_query] reports for the
    [n]-th statement the call executes, and the wall-clock time of the full
    run (already rounded). The connection and the statements are taken to
    succeed. *)
Record run : Type := {
  choices : nat → nat;
  query_time : nat → string → Q;
  full_elapsed : Q
}.

(** [random.sample(population, k)]: [k] draws without replacement; the
    draw of turn [t] takes position [choices t mod len] of what is left. *)
Fixpoint draw {A : Type} (choices : nat → nat) (turn k : nat) (population : list A)
    : list A :=
  match k with
  | O => []
  | S k' =>
      let i := (choices turn mod length population)%nat in
      match population !! i with
      | None => []
      | Some x => x :: draw choices (S turn) k' (delete i population)
      end
  end.

Definition random_sample {A : Type} (choices : nat → nat) (population : list A) (k : Z)
    : outcome (list A) :=
  if bool_decide (k < 0 ∨ Z.of_nat (length population) < k) then Raise ValueError
  else Return (draw choices 0 (Z.to_nat k) population).

(** [random.sample] draws each position uniformly among those that are
    left: for [k] draws from [n] items the choices that matter are the
    vectors [cs] with [cs[t] < n - t], all equally likely. *)
Definition choice_vector (n k : nat) (cs : list nat) : Prop :=
  length cs = k ∧ ∀ t c, cs !! t = Some c → (c < n - t)%nat.

(** The generator that makes the choices [cs]. *)
Definition choices_of (cs : list nat) : nat → nat := λ t, default 0%nat (cs !! t).

(** An arrangement of [k] distinct items of the population. *)
Definition arrangement {A : Type} (k : nat) (population sample : list A) : Prop :=
  length sample = k ∧ NoDup sample ∧ sample ⊆ population.

(** The unit at a position of the script; [random.sample] selects
    positions, so a unit that occurs twice can be drawn twice. *)
Definition unit_at (queries : list string) (i : nat) : string :=
  default EmptyString (queries !! i).

(** A [dict] filled in a loop: [d[k] = v] overwrites in place or appends. *)
Fixpoint dict_set (d : list (string * Q)) (k : string) (v : Q) : list (string * Q) :=
  match d with
  | [] => [(k, v)]
  | (k', v') :: d' =>
      if bool_decide (k' = k) then (k, v) :: d' else (k', v') :: dict_set d' k v
  end.

(** [{q: self._execute_single_query(cursor, q) for q in qs}], the first
    statement being the [n]-th of the call. *)
Fixpoint time_all (r : run) (n : nat) (qs : list string) (d : list (string * Q))
    : list (string * Q) :=
  match qs with
  | [] => d
  | q :: qs' => time_all r (S n) qs' (dict_set d q (query_time r n q))
  end.

(** [sum(self.best_olap_times.get(q, 0) for q in qs)] *)
Definition best_sum (best : gmap string Q) (qs : list string) : Q :=
  Qsum ((λ q, default 0%Q (best !! q)) <$> qs).

(** [max(0, min(100, budget_allocator))] *)
Definition clamp_percent (budget : Q) : Q :=
  let m := if Qltb budget 100 then budget else 100%Q in
  if Qltb 0 m then m else 0%Q.

(** [max(1, int(len(queries) * pct / 100))]: the product and the quotient
    are floats, each rounded to binary64; the length itself is exact up to
    [2^53]. (With an [int] budget the product is an exact [int] and only
    the quotient rounds, which is the same as long as the product is below
    [2^53].) *)
Definition sample_count (n_queries : nat) (pct : Q) : Z :=
  Z.max 1 (py_int (RN (RN (inject_Z (Z.of_nat n_queries) * pct) / 100))).

(** The sample size as the specification words it, to compare with
    [sample_count]: [max(1, round(N * budget_percent / 100))]. *)
Definition sample_count_as_specified (n_queries : nat) (pct : Q) : Z :=
  Z.max 1 (py_round (inject_Z (Z.of_nat n_queries) * pct / 100)).

(** The estimate of the full-run time from a sample. *)
Definition estimate (b : baseline) (queries sampled : list string) (sample_total : Q) : Q :=
  let total_best := best_sum (best_olap_times b) queries in
  let sampled_best := best_sum (best_olap_times b) sampled in
  let ratio := if Qeq_bool sampled_best 0 then 1%Q else (sample_total / sampled_best)%Q in
  py_round_digits (total_best * ratio) 2.

(** What a call leaves behind: the returned time, the driver, the
    statements executed while sampling, and those of the full run ([None]
    when the full run did not take place). *)
Record result : Type := {
  returned : Q;
  driver_after : driver;
  sampled_run : list string;
  full_run : option (list string)
}.

(** The full execution and the baseline update that ends [execute_olap]. *)
Definition full_execution (self : driver) (b : baseline) (r : run)
    (queries sampled : list string) : result :=
  let full_times := time_all r (length sampled) queries [] in
  let full_total := full_elapsed r in
  let improved :=
    match best_total_time b with
    | None => true
    | Some best => Qltb full_total best
    end in
  let b' :=
    if improved then
      {| best_total_time := Some full_total; best_olap_times := list_to_map full_times |}
    else b in
  {| returned := full_total;
     driver_after := {| budget_allocator := budget_allocator self; olap := Some b' |};
     sampled_run := sampled;
     full_run := Some queries |}.

Definition execute_olap (self : driver) (r : run) (parts : list string) : outcome result :=
  let queries := group_statements parts [] false in
  match queries with
  | [] =>
      Return {| returned := 0; driver_after := self; sampled_run := []; full_run := None |}
  | _ :: _ =>
      let b :=
        match olap self with
        | None => {| best_total_time := None; best_olap_times := ∅ |}
        | Some b => b
        end in
      let pct := clamp_percent (budget_allocator self) in
      if Qltb 0 pct && Qltb pct 100 then
        let count := sample_count (length queries) pct in
        let! sampled := random_sample (choices r) queries count in
        let sample_times := time_all r 0 sampled [] in
        let sample_total := py_round_digits (Qsum sample_times.*2) 2 in
        let est := estimate b queries sampled sample_total in
        match best_total_time b with
        | Some best =>
            if Qle_bool best est then
              Return {| returned := est;
                        driver_after :=
                          {| budget_allocator := budget_allocator self; olap := Some b |};
                        sampled_run := sampled;
                        full_run := None |}
            else Return (full_execution self b r queries sampled)
        | None => Return (full_execution self b r queries sampled)
        end
      else Return (full_execution self b r queries [])
  end.

(** A script of three plain statements and a world in which every statement
    takes one second, for worked cases. *)
Definition three_statements : list string :=
  ["select 1"; "select 2"; "select 3"]%string.

Definition steady_run : run :=
  {| choices := λ _, 0%nat; query_time := λ _ _, 1%Q; full_elapsed := 3%Q |}.

(** A driver whose best full run took 100 seconds, and a world in which
    every statement now takes 50 seconds. *)
Definition driver_with_best_100 : driver :=
  {| budget_allocator := 50;
     olap := Some {| best_total_time := Some 100%Q;
                     best_olap_times :=
                       {[ "select 1;"%string := 40%Q; "select 2;"%string := 30%Q;
                          "select 3;"%string := 30%Q ]} |} |}.

Definition slow_run : run :=
  {| choices := λ _, 0%nat; query_time := λ _ _, 50%Q; full_elapsed := 150%Q |}.

End MySQLDriver.

(** ** Contracts of the Normalizer *)

Module NormalizerContract.
Import Normalizer.

(** A knob of a supported kind whose range is not reversed. *)
Definition well_ranged (k : knob) : Prop :=
  match k with
  | Integer min_val max_val _ => min_val ≤ max_val
  | Boolean _ _ _ => True
  | Unsupported _ _ _ _ => False
  end.

(** The invariant of the data model: a proper range around the default of
    an integer knob, a default that is one of the two states of a boolean
    knob. *)
Definition well_formed (k : knob) : Prop :=
  match k with
  | Integer min_val max_val default_val =>
      min_val < max_val ∧ min_val ≤ default_val ≤ max_val
  | Boolean min_val max_val default_val =>
      py_eq default_val min_val = true ∨ py_eq default_val max_val = true
  | Unsupported _ _ _ _ => False
  end.

(** The real values a knob can take. *)
Definition in_domain (k : knob) (v : value) : Prop :=
  match k with
  | Integer min_val max_val _ => ∃ z, v = VInt z ∧ min_val ≤ z ≤ max_val
  | Boolean min_val max_val _ => v = min_val ∨ v = max_val
  | Unsupported _ _ _ _ => False
  end.

(** A vector entry that [denormalize] can scale for the knob: any float or
    [int] for a boolean knob; for an integer knob with bounds of magnitude up
    to [2^1000], a finite float of magnitude up to [2^20]. *)
Definition scalable (k : knob) (x : value) : Prop :=
  match k with
  | Integer min_val max_val _ =>
      - 2 ^ 1000 ≤ min_val ∧ min_val ≤ max_val ∧ max_val ≤ 2 ^ 1000 ∧
      ∃ q, x = VFloat (Finite q) ∧ (Qabs q <= 1048576)%Q
  | Boolean _ _ _ => ∀ s, x ≠ VStr s
  | Unsupported _ _ _ _ => False
  end.

End NormalizerContract.


(** ** Repeated use of the knob-set controller *)

Module KnobSchedule.
Import KnobSelection.

(** The selector object after [k] calls. *)
Fixpoint after_calls (k : nat) (self : IncrementalSupportMask) : IncrementalSupportMask :=
  match k with
  | O => self
  | S k' => (IncrementalSupportMask_call (after_calls k' self)).1
  end.

(** The set of knobs [update_tuned_knobs] treats as used, and the dictionary
    keys outside it, in dictionary order. *)
Definition used_knobs (current : list string) (frozen_values : gmap string value)
    : gset string :=
  list_to_set current ∪ dom frozen_values.

Definition unused_keys (current : list string) (full_knob_dict : Normalizer.knob_dict)
    (frozen_values : gmap string value) : list string :=
  filter (λ k, k ∉ used_knobs current frozen_values) (Normalizer.knob_names full_knob_dict).

(** The random policy alone. *)
Definition random_flags : flags :=
  {| is_random := 1; is_incremental := 0; is_SE := 0; is_bandit := 0;
     is_TS := 0; is_LRT := 0; is_pure_incremental := 0 |}.

End KnobSchedule.


(** ** Well-formed bandit states *)

Module BanditState.

(** Two accumulators, both positive. *)
Definition positive_pair (l : list Q) : Prop :=
  ∃ x y, l = [x; y] ∧ (0 < x)%Q ∧ (0 < y)%Q.

(** A pending decision, if any, is one of the two actions. *)
Definition valid_action (a : option nat) : Prop :=
  match a with
  | None => True
  | Some n => (n < 2)%nat
  end.

Definition lrt_ok (s : TwoActionLRT.t) : Prop :=
  positive_pair (TwoActionLRT.success s) ∧ positive_pair (TwoActionLRT.failure s) ∧
  valid_action (TwoActionLRT._last_action s).

(** A Beta parameter that has not fallen below its initial value 1.0. *)
Definition at_least_one (f : float) : Prop :=
  match f with
  | Finite q => (1 <= q)%Q
  | PInf => True
  | _ => False
  end.

Definition grown_pair (l : list float) : Prop :=
  ∃ x y, l = [x; y] ∧ at_least_one x ∧ at_least_one y.

Definition ts_ok (s : TwoActionTS.t) : Prop :=
  grown_pair (TwoActionTS.alpha s) ∧ grown_pair (TwoActionTS.beta s) ∧
  valid_action (TwoActionTS._last_action s).

(** What [math.exp] returns on an argument that is not [nan]: a float that
    is not negative, possibly 0.0 (underflow) or [inf]. *)
Definition nonneg (f : float) : Prop :=
  match f with
  | Finite q => (0 <= q)%Q
  | PInf => True
  | _ => False
  end.

Definition exp_range (exp : float → outcome float) : Prop :=
  ∀ x y, x ≠ NaN → exp x = Return y → nonneg y.

End BanditState.


(** ** A run of the feature-selection cycle *)

Module CycleScenario.
Import Tuner.

(** Collaborators that succeed and find the second of two knobs
    unimportant. *)
Definition picky_env : env :=
  {| rfecv_support := λ _ _ _ _, Return [true; false];
     ttest_support := λ _ _, Return [true; false];
     load_y_data := Return [1; 2; 3]%Q;
     load_intermediate_data := λ _, Return ([], []);
     select_draws := {| uniform := 1; coin := 0; theta0 := 0; theta1 := 0 |};
     shuffle := λ _ keys, keys;
     exp := λ _, Return (Finite 1) |}.

(** The pure-incremental policy alone. *)
Definition pure_incremental_flags : flags :=
  {| is_basic := 0; is_low := 0; is_SE := 0; is_incremental := 0; is_bandit := 0;
     is_TS := 0; is_LRT := 0; is_super_low := 0; is_pure_incremental := 1 |}.

End CycleScenario.

(** ** tuner/utils.py: get_knob_dicts *)

Module Utils.

(** [get_knob_dicts]: the first [top_n] keys, or [top_n] keys drawn by
    [random.sample] when [is_random] is 1; the tuned dictionary is the
    comprehension over those keys. Returns [(full, tuned, tuned_keys)]. *)
Definition get_knob_dicts (choices : nat → nat) (full_knob_dict : Normalizer.knob_dict)
    (top_n : Z) (is_random : Z)
    : outcome (Normalizer.knob_dict * Normalizer.knob_dict * list string) :=
  let all_keys := Normalizer.knob_names full_knob_dict in
  let! tuned_keys :=
    if bool_decide (is_random ≠ 1) then Return (slice_to all_keys top_n)
    else MySQLDriver.random_sample choices all_keys top_n in
  let! tuned_knob_dict := Tuner.sub_dict full_knob_dict tuned_keys in
  Return (full_knob_dict, tuned_knob_dict, tuned_keys).

End Utils.

(** ** tuner/objective.py *)

Module Objective.

(** What the benchmark side answers to one evaluation: the debug switch and
    its simulated throughput, whether the configuration could be applied,
    and the measurements of the two kinds of benchmark. *)
Record bench : Type := {
  debug : bool;
  simulated_tps : Q;
  apply_config_and_restart : gmap string value → bool;
  olap_time : Q;
  oltp_tps : Q
}.

(** The loop that completes the denormalized configuration: a knob outside
    the Normalizer gets its frozen value, or else its default. *)
Definition fill_config (knob_names : list string) (full_knob_dict : Normalizer.knob_dict)
    (frozen_values config_dict : gmap string value) : gmap string value :=
  foldl (λ cfg nk,
           let '(knob, values) := nk in
           if bool_decide (knob ∈ knob_names) then cfg
           else
             match frozen_values !! knob with
             | Some v => <[knob := v]> cfg
             | None => <[knob := Normalizer.default_value values]> cfg
             end) config_dict full_knob_dict.

(** The configuration [objective_func] hands to the driver. *)
Definition objective_config (norm_values : list Q)
    (normalizer full_knob_dict : Normalizer.knob_dict)
    (frozen_values : gmap string value) : outcome (gmap string value) :=
  let! config_dict := Normalizer.denormalize normalizer (float_value <$> norm_values) in
  Return (fill_config (Normalizer.knob_names normalizer) full_knob_dict frozen_values
            config_dict).

(** ['tpch' in benchmark] *)
Definition mentions_tpch (benchmark : string) : bool :=
  match String.index 0 "tpch" benchmark with
  | Some _ => true
  | None => false
  end.

(** [objective_func]: the penalty [1e9] when the configuration cannot be
    applied, the elapsed time for an OLAP benchmark, the negated throughput
    otherwise. *)
Definition objective_func (d : bench) (norm_values : list Q)
    (normalizer full_knob_dict : Normalizer.knob_dict)
    (frozen_values : gmap string value) (benchmark : string) : outcome Q :=
  let! config_dict := objective_config norm_values normalizer full_knob_dict frozen_values in
  if debug d then Return (- simulated_tps d)%Q
  else if negb (apply_config_and_restart d config_dict) then Return 1000000000%Q
  else if mentions_tpch benchmark then Return (olap_time d)
  else Return (- oltp_tps d)%Q.

End Objective.

(** ** Binary64: rounding lemmas *)

Section Binary64Facts.

Lemma pow2_pos e : (0 < pow2 e)%Q.
Proof. apply Qpower_0_lt. reflexivity. Qed.

Lemma pow2_plus a b : (pow2 (a + b) == pow2 a * pow2 b)%Q.
Proof. apply Qpower_plus. discriminate. Qed.

Lemma pow2_minus a b : (pow2 (a - b) == pow2 a / pow2 b)%Q.
Proof. apply Qpower_minus. discriminate. Qed.

Lemma pow2_inject e : 0 ≤ e → (pow2 e == inject_Z (2 ^ e))%Q.
Proof. intros He. unfold pow2. by rewrite (Zpower_Qpower 2 e He). Qed.

Lemma pow2_le a b : a ≤ b → (pow2 a <= pow2 b)%Q.
Proof. intros H. apply Qpower_le_compat_l; [done|]. discriminate. Qed.

Lemma pow2_lt a b : a < b → (pow2 a < pow2 b)%Q.
Proof. intros H. apply Qpower_lt_compat_l; [done|]. reflexivity. Qed.

Lemma pow2_lt_inv a b : (pow2 a < pow2 b)%Q → a < b.
Proof. intros H. eapply Qpower_lt_compat_l_inv; [exact H|]. reflexivity. Qed.

Lemma pow2_le_inv a b : (pow2 a <= pow2 b)%Q → a ≤ b.
Proof. intros H. eapply Qpower_le_compat_l_inv; [exact H|]. reflexivity. Qed.

Lemma pow2_succ a : (pow2 (a + 1) == 2 * pow2 a)%Q.
Proof. rewrite pow2_plus. change (pow2 1) with 2%Q. ring. Qed.

Lemma Qabs_num_den (x : Q) :
  (Qabs x * inject_Z (Zpos (Qden x)) == inject_Z (Z.abs (Qnum x)))%Q.
Proof.
  destruct x as [n d]. unfold Qabs, Qeq, Qmult, inject_Z. simpl. lia.
Qed.

Lemma binade_spec (x : Q) :
  ¬ (x == 0)%Q → (pow2 (binade x) <= Qabs x)%Q ∧ (Qabs x < pow2 (binade x + 1))%Q.
Proof.
  intros Hx.
  set (n := Z.abs (Qnum x)). set (d := Zpos (Qden x)).
  assert (Hn : 0 < n).
  { unfold n. destruct x as [[|p|p] dd]; simpl; try lia. exfalso. apply Hx. reflexivity. }
  assert (Hd : 0 < d) by (unfold d; lia).
  pose proof (Z.log2_spec n Hn) as [Hn1 Hn2].
  pose proof (Z.log2_spec d Hd) as [Hd1 Hd2].
  pose proof (Z.log2_nonneg n) as Hln. pose proof (Z.log2_nonneg d) as Hld.
  pose proof (Qabs_num_den x) as HX. fold n d in HX.
  pose proof (Qabs_nonneg x) as HX0.
  set (e := Z.log2 n - Z.log2 d).
  assert (HE : (pow2 e * inject_Z (2 ^ Z.log2 d) == inject_Z (2 ^ Z.log2 n))%Q).
  { unfold e. rewrite pow2_minus, <- !pow2_inject by done. field.
    pose proof (pow2_pos (Z.log2 d)). lra. }
  rewrite Z.pow_succ_r in Hn2, Hd2 by done.
  rewrite Zle_Qle in Hn1, Hd1. rewrite Zlt_Qlt in Hn2, Hd2, Hn, Hd.
  rewrite inject_Z_mult in Hn2, Hd2.
  change (inject_Z 2) with 2%Q in *. change (inject_Z 0) with 0%Q in *.
  pose proof (pow2_pos e) as HEpos.
  generalize dependent (inject_Z (2 ^ Z.log2 n)). intros P ? ? ?.
  generalize dependent (inject_Z (2 ^ Z.log2 d)). intros R ? ? ?.
  generalize dependent (inject_Z n). intros A ? ? ? ?.
  generalize dependent (inject_Z d). intros D ? ? ? ?.
  assert (Hup : (Qabs x < 2 * pow2 e)%Q).
  { apply Qnot_le_lt. intros Hc.
    pose proof (Qmult_le_0_compat (Qabs x - 2 * pow2 e) R ltac:(lra) ltac:(lra)).
    pose proof (Qmult_le_0_compat (Qabs x) (D - R) ltac:(lra) ltac:(lra)).
    nra. }
  assert (Hlo : (pow2 e < 2 * Qabs x)%Q).
  { apply Qnot_le_lt. intros Hc.
    pose proof (Qmult_le_0_compat (pow2 e - 2 * Qabs x) D ltac:(lra) ltac:(lra)).
    pose proof (Qmult_lt_0_compat (pow2 e) (2 * R - D) ltac:(lra) ltac:(lra)).
    nra. }
  unfold binade. fold n d e.
  destruct (Qle_bool (pow2 e) (Qabs x)) eqn:Hb.
  - apply Qle_bool_iff in Hb. split; [done|]. by rewrite pow2_succ.
  - assert (Hlt : (Qabs x < pow2 e)%Q).
    { apply Qnot_le_lt. intros Hc. apply Qle_bool_iff in Hc. congruence. }
    replace (e - 1 + 1) with e by lia. split; [|done].
    assert (E : (pow2 e == 2 * pow2 (e - 1))%Q).
    { rewrite <- pow2_succ. by replace (e - 1 + 1) with e by lia. }
    lra.
Qed.

Lemma binade_unique (x : Q) (e : Z) :
  (pow2 e <= Qabs x)%Q → (Qabs x < pow2 (e + 1))%Q → binade x = e.
Proof.
  intros H1 H2.
  assert (Hx : ¬ (x == 0)%Q).
  { intros E. rewrite E in H1. pose proof (pow2_pos e). change (Qabs 0) with 0%Q in H1. lra. }
  destruct (binade_spec x Hx) as [B1 B2].
  assert (e < binade x + 1).
  { apply pow2_lt_inv. eapply Qle_lt_trans; [exact H1 | exact B2]. }
  assert (binade x < e + 1).
  { apply pow2_lt_inv. eapply Qle_lt_trans; [exact B1 | exact H2]. }
  lia.
Qed.

Lemma binade_comp (x y : Q) : ¬ (x == 0)%Q → (x == y)%Q → binade x = binade y.
Proof.
  intros Hx E. destruct (binade_spec x Hx) as [B1 B2].
  symmetry. apply binade_unique; by rewrite <- E.
Qed.

Lemma py_round_comp (x y : Q) : (x == y)%Q → py_round x = py_round y.
Proof.
  intros E. unfold py_round. rewrite (Qfloor_comp _ _ E).
  assert (E' : (x - inject_Z (Qfloor y) == y - inject_Z (Qfloor y))%Q) by (by rewrite E).
  by rewrite (Qcompare_comp _ _ E' (1 # 2) (1 # 2) (Qeq_refl _)).
Qed.

Lemma RN_comp (x y : Q) : (x == y)%Q → RN x = RN y.
Proof.
  intros E. unfold RN.
  assert (Hb : Qeq_bool x 0 = Qeq_bool y 0).
  { destruct (Qeq_bool x 0) eqn:E1, (Qeq_bool y 0) eqn:E2; try done.
    - apply Qeq_bool_iff in E1. rewrite E in E1. apply Qeq_bool_iff in E1. congruence.
    - apply Qeq_bool_iff in E2. rewrite <- E in E2. apply Qeq_bool_iff in E2. congruence. }
  rewrite <- Hb. destruct (Qeq_bool x 0) eqn:E1; [done|].
  assert (Hx : ¬ (x == 0)%Q).
  { intros E0. apply Qeq_bool_iff in E0. congruence. }
  unfold quantum. rewrite <- (binade_comp x y Hx E).
  apply Qred_complete.
  rewrite (py_round_comp (x / pow2 (Z.max (binade x - 52) (-1074)))
             (y / pow2 (Z.max (binade x - 52) (-1074)))); [reflexivity|].
  apply Qdiv_comp; [exact E | reflexivity].
Qed.

(** *** Round half to even *)

Lemma py_round_spec (x : Q) :
  let n := py_round x in
  (Qabs (inject_Z n - x) < 1 # 2)%Q ∨
  ((Qabs (inject_Z n - x) == 1 # 2)%Q ∧ Z.even n = true).
Proof.
  cbv zeta. unfold py_round.
  pose proof (Qfloor_le x) as Hf1. pose proof (Qlt_floor x) as Hf2.
  generalize dependent (Qfloor x). intros f Hf1 Hf2.
  rewrite inject_Z_plus in Hf2. change (inject_Z 1) with 1%Q in Hf2.
  destruct (Qcompare_spec (x - inject_Z f) (1 # 2)) as [E|E|E]; cbv iota.
  - destruct (Z.even f) eqn:Hev.
    + right. split; [|done].
      assert (Ey : (inject_Z f - x == - (1 # 2))%Q) by lra.
      rewrite (Qabs_wd _ _ Ey). reflexivity.
    + right. split.
      * rewrite inject_Z_plus. change (inject_Z 1) with 1%Q.
        assert (Ey : (inject_Z f + 1 - x == 1 # 2)%Q) by lra.
        rewrite (Qabs_wd _ _ Ey). reflexivity.
      * rewrite Z.even_add. rewrite Hev. done.
  - left. apply Qabs_Qlt_condition. lra.
  - left. rewrite inject_Z_plus. change (inject_Z 1) with 1%Q.
    apply Qabs_Qlt_condition. lra.
Qed.

Lemma py_round_half (x : Q) : (Qabs (inject_Z (py_round x) - x) <= 1 # 2)%Q.
Proof. destruct (py_round_spec x) as [H|[H _]]; [lra | rewrite H; lra]. Qed.

Lemma py_round_unique (x : Q) (n : Z) :
  (Qabs (inject_Z n - x) < 1 # 2)%Q ∨
  ((Qabs (inject_Z n - x) == 1 # 2)%Q ∧ Z.even n = true) →
  py_round x = n.
Proof.
  intros Hn. destruct (py_round_spec x) as [Hm|[Hm Hme]];
    generalize dependent (py_round x); intros m Hm.
  - destruct Hn as [Hn|[Hn _]].
    + apply Qabs_Qlt_condition in Hn, Hm.
      assert (H1 : (inject_Z m < inject_Z (n + 1))%Q).
      { rewrite inject_Z_plus. change (inject_Z 1) with 1%Q. lra. }
      assert (H2 : (inject_Z n < inject_Z (m + 1))%Q).
      { rewrite inject_Z_plus. change (inject_Z 1) with 1%Q. lra. }
      rewrite <- Zlt_Qlt in H1, H2. lia.
    + apply Qabs_Qlt_condition in Hm.
      assert (Hn' : (Qabs (inject_Z n - x) <= 1 # 2)%Q) by (rewrite Hn; lra).
      apply Qabs_Qle_condition in Hn'.
      assert (H1 : (inject_Z m < inject_Z (n + 1))%Q).
      { rewrite inject_Z_plus. change (inject_Z 1) with 1%Q. lra. }
      assert (H2 : (inject_Z n < inject_Z (m + 1))%Q).
      { rewrite inject_Z_plus. change (inject_Z 1) with 1%Q. lra. }
      rewrite <- Zlt_Qlt in H1, H2. lia.
  - intros Hme. destruct Hn as [Hn|[Hn Hne]].
    + apply Qabs_Qlt_condition in Hn.
      assert (Hm' : (Qabs (inject_Z m - x) <= 1 # 2)%Q) by (rewrite Hm; lra).
      apply Qabs_Qle_condition in Hm'.
      assert (H1 : (inject_Z m < inject_Z (n + 1))%Q).
      { rewrite inject_Z_plus. change (inject_Z 1) with 1%Q. lra. }
      assert (H2 : (inject_Z n < inject_Z (m + 1))%Q).
      { rewrite inject_Z_plus. change (inject_Z 1) with 1%Q. lra. }
      rewrite <- Zlt_Qlt in H1, H2. lia.
    + assert (Hm' : (Qabs (inject_Z m - x) <= 1 # 2)%Q) by (rewrite Hm; lra).
      assert (Hn' : (Qabs (inject_Z n - x) <= 1 # 2)%Q) by (rewrite Hn; lra).
      apply Qabs_Qle_condition in Hm', Hn'.
      assert (H1 : (inject_Z m < inject_Z (n + 2))%Q).
      { rewrite inject_Z_plus. change (inject_Z 2) with 2%Q. lra. }
      assert (H2 : (inject_Z n < inject_Z (m + 2))%Q).
      { rewrite inject_Z_plus. change (inject_Z 2) with 2%Q. lra. }
      rewrite <- Zlt_Qlt in H1, H2.
      destruct (decide (m = n)) as [|Hne']; [done|].
      exfalso. assert (m = n + 1 ∨ n = m + 1) as [->| ->] by lia.
      * rewrite Z.even_add, Hne in Hme. done.
      * rewrite Z.even_add, Hme in Hne. done.
Qed.

Lemma py_round_Z (z : Z) : py_round (inject_Z z) = z.
Proof.
  apply py_round_unique. left.
  assert (E : (inject_Z z - inject_Z z == 0)%Q) by ring.
  rewrite (Qabs_wd _ _ E). reflexivity.
Qed.

Lemma py_round_opp (x : Q) : py_round (- x) = - py_round x.
Proof.
  apply py_round_unique.
  assert (E : (inject_Z (- py_round x) - - x == - (inject_Z (py_round x) - x))%Q).
  { rewrite inject_Z_opp. ring. }
  rewrite (Qabs_wd _ _ E), Qabs_opp, Z.even_opp.
  apply py_round_spec.
Qed.

Lemma py_round_mono (x y : Q) : (x <= y)%Q → py_round x ≤ py_round y.
Proof.
  intros Hxy.
  destruct (Z.le_gt_cases (py_round x) (py_round y)) as [|Hgt]; [done|]. exfalso.
  pose proof (py_round_spec x) as Hx. pose proof (py_round_spec y) as Hy.
  cbv zeta in Hx, Hy.
  remember (py_round x) as m eqn:Hm. clear Hm.
  remember (py_round y) as n eqn:Hn. clear Hn.
  assert (Hmn : (inject_Z n + 1 <= inject_Z m)%Q).
  { change 1%Q with (inject_Z 1). rewrite <- inject_Z_plus, <- Zle_Qle. lia. }
  assert (Hx' : (Qabs (inject_Z m - x) <= 1 # 2)%Q).
  { destruct Hx as [?|[E _]]; [lra | rewrite E; lra]. }
  assert (Hy' : (Qabs (inject_Z n - y) <= 1 # 2)%Q).
  { destruct Hy as [?|[E _]]; [lra | rewrite E; lra]. }
  apply Qabs_Qle_condition in Hx'. destruct Hx' as [Hx1 Hx2].
  apply Qabs_Qle_condition in Hy'. destruct Hy' as [Hy1 Hy2].
  (* both are ties: m = x + 1/2, n = y - 1/2, x = y, m = n + 1 *)
  assert (Em : (inject_Z m - x == 1 # 2)%Q) by lra.
  assert (En : (inject_Z n - y == - (1 # 2))%Q) by lra.
  assert (Emn : (inject_Z m == inject_Z (n + 1))%Q).
  { rewrite inject_Z_plus. change (inject_Z 1) with 1%Q. lra. }
  rewrite inject_Z_injective in Emn. subst m.
  destruct Hx as [Hx|[_ Hx]].
  { rewrite (Qabs_wd _ _ Em) in Hx. revert Hx. compute. congruence. }
  destruct Hy as [Hy|[_ Hy]].
  { rewrite (Qabs_wd _ _ En) in Hy. revert Hy. compute. congruence. }
  rewrite Z.even_add, Hy in Hx. done.
Qed.

(** *** Rounding to binary64 *)

Lemma Qeq_bool_false (x y : Q) : Qeq_bool x y = false ↔ ¬ (x == y)%Q.
Proof.
  split.
  - intros H E. apply Qeq_bool_iff in E. congruence.
  - intros H. destruct (Qeq_bool x y) eqn:E; [|done]. apply Qeq_bool_iff in E. done.
Qed.

Lemma RN_0 (x : Q) : (x == 0)%Q → RN x = 0%Q.
Proof. intros E. unfold RN. apply Qeq_bool_iff in E. by rewrite E. Qed.

Lemma RN_eq (x : Q) :
  ¬ (x == 0)%Q →
  (RN x == inject_Z (py_round (x / pow2 (quantum x))) * pow2 (quantum x))%Q.
Proof.
  intros Hx. unfold RN. apply Qeq_bool_false in Hx. rewrite Hx. apply Qred_correct.
Qed.

Lemma quantum_opp (x : Q) : quantum (- x) = quantum x.
Proof.
  unfold quantum, binade, Qabs, Qopp. destruct x as [n d]. cbn [Qnum Qden].
  by rewrite !Z.abs_opp.
Qed.

Lemma RN_opp (x : Q) : (RN (- x) == - RN x)%Q.
Proof.
  destruct (Qeq_dec x 0) as [E|Hx].
  - rewrite (RN_0 x E), (RN_0 (- x)); [reflexivity|]. rewrite E. reflexivity.
  - assert (Hx' : ¬ (- x == 0)%Q) by (intros E; apply Hx; lra).
    rewrite (RN_eq x Hx), (RN_eq (- x) Hx'), quantum_opp.
    assert (E : (- x / pow2 (quantum x) == - (x / pow2 (quantum x)))%Q).
    { field. pose proof (pow2_pos (quantum x)). lra. }
    rewrite (py_round_comp _ _ E), py_round_opp, inject_Z_opp. ring.
Qed.

Lemma Qdiv_pow2_le (x y : Q) (q : Z) : (x <= y)%Q → (x / pow2 q <= y / pow2 q)%Q.
Proof.
  intros H. pose proof (pow2_pos q). apply Qle_shift_div_l; [done|].
  assert (E : (x / pow2 q * pow2 q == x)%Q) by (field; lra). lra.
Qed.

Lemma pow2_div (k q : Z) : q ≤ k → (pow2 k / pow2 q == inject_Z (2 ^ (k - q)))%Q.
Proof. intros H. rewrite <- pow2_minus. apply pow2_inject. lia. Qed.

Lemma RN_nonneg (x : Q) : (0 <= x)%Q → (0 <= RN x)%Q.
Proof.
  intros H. destruct (Qeq_dec x 0) as [E|Hx]; [by rewrite (RN_0 x E)|].
  rewrite (RN_eq x Hx). pose proof (pow2_pos (quantum x)) as Hp.
  apply Qmult_le_0_compat; [|lra].
  change 0%Q with (inject_Z 0). rewrite <- Zle_Qle.
  rewrite <- (py_round_Z 0). apply py_round_mono. change (inject_Z 0) with 0%Q.
  apply Qle_shift_div_l; [done|]. lra.
Qed.

Lemma RN_le_pow2 (x : Q) (k : Z) :
  -1074 ≤ k → (0 <= x)%Q → (x <= pow2 k)%Q → (RN x <= pow2 k)%Q.
Proof.
  intros Hk H0 Hx. destruct (Qeq_dec x 0) as [E|Hne].
  { rewrite (RN_0 x E). pose proof (pow2_pos k). lra. }
  destruct (binade_spec x Hne) as [B1 B2]. rewrite Qabs_pos in B1, B2 by done.
  assert (Hb : binade x ≤ k) by (apply pow2_le_inv; lra).
  assert (Hq : quantum x ≤ k) by (unfold quantum; lia).
  rewrite (RN_eq x Hne). pose proof (pow2_pos (quantum x)) as Hp.
  assert (Hr : py_round (x / pow2 (quantum x)) ≤ 2 ^ (k - quantum x)).
  { rewrite <- (py_round_Z (2 ^ (k - quantum x))). apply py_round_mono.
    rewrite <- pow2_div by done. by apply Qdiv_pow2_le. }
  rewrite Zle_Qle, <- pow2_div in Hr by done.
  assert (E : (pow2 k / pow2 (quantum x) * pow2 (quantum x) == pow2 k)%Q) by (field; lra).
  rewrite <- E. apply Qmult_le_compat_r; [done | lra].
Qed.

Lemma RN_ge_pow2 (x : Q) (k : Z) :
  -1074 ≤ k → (pow2 k <= x)%Q → (pow2 k <= RN x)%Q.
Proof.
  intros Hk Hx. pose proof (pow2_pos k) as Hkp.
  assert (Hne : ¬ (x == 0)%Q) by (intros E; lra).
  destruct (binade_spec x Hne) as [B1 B2]. rewrite Qabs_pos in B1, B2 by lra.
  assert (Hb : k ≤ binade x).
  { assert (k < binade x + 1) by (apply pow2_lt_inv; lra). lia. }
  assert (Hq : quantum x ≤ binade x) by (unfold quantum; lia).
  rewrite (RN_eq x Hne). pose proof (pow2_pos (quantum x)) as Hp.
  assert (Hr : 2 ^ (binade x - quantum x) ≤ py_round (x / pow2 (quantum x))).
  { rewrite <- (py_round_Z (2 ^ (binade x - quantum x))). apply py_round_mono.
    rewrite <- pow2_div by done. by apply Qdiv_pow2_le. }
  rewrite Zle_Qle, <- pow2_div in Hr by done.
  assert (E : (pow2 (binade x) / pow2 (quantum x) * pow2 (quantum x) == pow2 (binade x))%Q)
    by (field; lra).
  apply Qle_trans with (pow2 (binade x)); [by apply pow2_le|].
  rewrite <- E. apply Qmult_le_compat_r; [done | lra].
Qed.

Lemma RN_mono_pos (x y : Q) : (0 < x)%Q → (x <= y)%Q → (RN x <= RN y)%Q.
Proof.
  intros H0 Hxy.
  assert (Hx : ¬ (x == 0)%Q) by (intros E; lra).
  assert (Hy : ¬ (y == 0)%Q) by (intros E; lra).
  destruct (binade_spec x Hx) as [X1 X2]. rewrite Qabs_pos in X1, X2 by lra.
  destruct (binade_spec y Hy) as [Y1 Y2]. rewrite Qabs_pos in Y1, Y2 by lra.
  assert (Hb : binade x ≤ binade y).
  { assert (binade x < binade y + 1) by (apply pow2_lt_inv; lra). lia. }
  destruct (decide (quantum x = quantum y)) as [Eq|Hq].
  - rewrite (RN_eq x Hx), (RN_eq y Hy), Eq. pose proof (pow2_pos (quantum y)).
    apply Qmult_le_compat_r; [|lra]. rewrite <- Zle_Qle. apply py_round_mono.
    by apply Qdiv_pow2_le.
  - assert (Hby : binade x + 1 ≤ binade y ∧ -1074 ≤ binade y) by (unfold quantum in *; lia).
    apply Qle_trans with (pow2 (binade y)).
    + apply RN_le_pow2; [lia | lra |].
      apply Qle_trans with (pow2 (binade x + 1)); [lra | apply pow2_le; lia].
    + apply RN_ge_pow2; [lia | done].
Qed.

Lemma RN_mono (x y : Q) : (x <= y)%Q → (RN x <= RN y)%Q.
Proof.
  intros Hxy. destruct (Qlt_le_dec 0 x) as [Hx|Hx].
  - by apply RN_mono_pos.
  - assert (Hrx : (RN x <= 0)%Q).
    { pose proof (RN_nonneg (- x) ltac:(lra)) as H. rewrite RN_opp in H. lra. }
    destruct (Qlt_le_dec y 0) as [Hy|Hy].
    + pose proof (RN_mono_pos (- y) (- x) ltac:(lra) ltac:(lra)) as H.
      rewrite !RN_opp in H. lra.
    + pose proof (RN_nonneg y Hy). lra.
Qed.

(** Half a unit in the last place: the relative error is at most [2^-53],
    and at most [2^-1075] in absolute value below the normal range. *)
Lemma RN_error (x : Q) :
  (Qabs (RN x - x) <= Qabs x * pow2 (-53) + pow2 (-1075))%Q.
Proof.
  pose proof (pow2_pos (-53)). pose proof (pow2_pos (-1075)). pose proof (Qabs_nonneg x).
  destruct (Qeq_dec x 0) as [E|Hx].
  { rewrite (RN_0 x E). assert (E' : (0 - x == 0)%Q) by lra.
    rewrite (Qabs_wd _ _ E'). change (Qabs 0) with 0%Q. nra. }
  destruct (binade_spec x Hx) as [B1 B2].
  set (q := quantum x). pose proof (pow2_pos q) as Hq.
  assert (E : (RN x - x == (inject_Z (py_round (x / pow2 q)) - x / pow2 q) * pow2 q)%Q).
  { rewrite (RN_eq x Hx). fold q. field. lra. }
  rewrite (Qabs_wd _ _ E), Qabs_Qmult, (Qabs_pos (pow2 q)) by lra.
  pose proof (py_round_half (x / pow2 q)) as Hh.
  assert (Hhalf : (Qabs (inject_Z (py_round (x / pow2 q)) - x / pow2 q) * pow2 q
                   <= (1 # 2) * pow2 q)%Q).
  { apply Qmult_le_compat_r; [done | lra]. }
  eapply Qle_trans; [exact Hhalf|].
  unfold q, quantum. destruct (Z.max_spec (binade x - 52) (-1074)) as [[_ ->]|[_ ->]].
  - assert (E2 : (pow2 (-1074) == 2 * pow2 (-1075))%Q) by reflexivity.
    rewrite E2. nra.
  - assert (E2 : (pow2 (binade x - 52) == 2 * (pow2 (binade x) * pow2 (-53)))%Q).
    { replace (binade x - 52) with ((binade x + -53) + 1) by lia.
      rewrite pow2_succ, pow2_plus. reflexivity. }
    rewrite E2. nra.
Qed.

(** A number [m * 2^k] with [|m| <= 2^53] and [k >= -1074] is a binary64
    number: rounding leaves it alone. *)
Lemma RN_exact_strict (x : Q) (m k : Z) :
  -1074 ≤ k → Z.abs m < 2 ^ 53 → (x == inject_Z m * pow2 k)%Q → (RN x == x)%Q.
Proof.
  intros Hk Hm Ex. destruct (Qeq_dec x 0) as [E|Hx]; [by rewrite (RN_0 x E), E|].
  destruct (binade_spec x Hx) as [B1 B2]. pose proof (pow2_pos k) as Hkp.
  assert (Habs : (Qabs x == inject_Z (Z.abs m) * pow2 k)%Q).
  { rewrite (Qabs_wd _ _ Ex), Qabs_Qmult, (Qabs_pos (pow2 k)) by lra.
    apply Qmult_comp; [|reflexivity]. unfold Qabs, inject_Z. reflexivity. }
  assert (Hlt : (Qabs x < pow2 (53 + k))%Q).
  { rewrite Habs, pow2_plus, (pow2_inject 53) by lia.
    apply Qmult_lt_compat_r; [done|]. by rewrite <- Zlt_Qlt. }
  assert (Hb : binade x < 53 + k) by (apply pow2_lt_inv; lra).
  assert (Hq : quantum x ≤ k) by (unfold quantum; lia).
  pose proof (pow2_pos (quantum x)) as Hqp.
  assert (Ey : (x / pow2 (quantum x) == inject_Z (m * 2 ^ (k - quantum x)))%Q).
  { rewrite inject_Z_mult, <- pow2_div by done.
    transitivity (inject_Z m * pow2 k / pow2 (quantum x))%Q;
      [apply Qdiv_comp; [exact Ex | reflexivity]|]. field. lra. }
  rewrite (RN_eq x Hx), (py_round_comp _ _ Ey), py_round_Z, <- Ey. field. lra.
Qed.

Lemma RN_exact (x : Q) (m k : Z) :
  -1074 ≤ k → Z.abs m ≤ 2 ^ 53 → (x == inject_Z m * pow2 k)%Q → (RN x == x)%Q.
Proof.
  intros Hk Hm Ex. destruct (decide (Z.abs m < 2 ^ 53)) as [Hlt|Hge].
  { by apply (RN_exact_strict x m k). }
  assert (Hm2 : m = 2 * (m / 2)).
  { assert (Z.abs m = 2 ^ 53) by lia.
    assert (m = 2 ^ 53 ∨ m = - 2 ^ 53) as [->| ->] by lia; reflexivity. }
  apply (RN_exact_strict x (m / 2) (k + 1)); [lia | |].
  - assert (Z.abs m = 2 ^ 53) by lia.
    assert (m = 2 ^ 53 ∨ m = - 2 ^ 53) as [->| ->] by lia; reflexivity.
  - rewrite Ex, pow2_succ. rewrite Hm2 at 1. rewrite inject_Z_mult.
    change (inject_Z 2) with 2%Q. ring.
Qed.

Lemma RN_Z (z : Z) : Z.abs z ≤ 2 ^ 53 → (RN (inject_Z z) == inject_Z z)%Q.
Proof.
  intros Hz. apply (RN_exact _ z 0); [lia | done |].
  change (pow2 0) with 1%Q. ring.
Qed.

Lemma RN_pow2 (k : Z) : -1074 ≤ k → (RN (pow2 k) == pow2 k)%Q.
Proof.
  intros Hk. apply (RN_exact _ 1 k); [done | done |]. change (inject_Z 1) with 1%Q. ring.
Qed.

Lemma RN_abs (x : Q) : (Qabs (RN x) == RN (Qabs x))%Q.
Proof.
  destruct (Qlt_le_dec x 0) as [Hx|Hx].
  - assert (E : (Qabs x == - x)%Q) by (apply Qabs_neg; lra).
    rewrite (RN_comp _ _ E), RN_opp. apply Qabs_neg.
    pose proof (RN_nonneg (- x) ltac:(lra)) as H. rewrite RN_opp in H. lra.
  - assert (E : (Qabs x == x)%Q) by (by apply Qabs_pos).
    rewrite (RN_comp _ _ E). apply Qabs_pos. by apply RN_nonneg.
Qed.

(** *** Overflow *)

Lemma py_round_below (y : Q) (n : Z) : (y < inject_Z n + (1 # 2))%Q → py_round y ≤ n.
Proof.
  intros Hy. pose proof (py_round_half y) as H. apply Qabs_Qle_condition in H.
  destruct H as [_ H].
  assert (Hlt : (inject_Z (py_round y) < inject_Z (n + 1))%Q).
  { rewrite inject_Z_plus. change (inject_Z 1) with 1%Q. lra. }
  rewrite <- Zlt_Qlt in Hlt. lia.
Qed.

Lemma RN_midpoint_1024 : (RN (pow2 1024 - pow2 970) == pow2 1024)%Q.
Proof. apply Qeq_bool_eq. vm_compute. reflexivity. Qed.

Lemma RN_below_1024 (a : Q) :
  (0 <= a)%Q → (a < pow2 1024 - pow2 970)%Q → (RN a < pow2 1024)%Q.
Proof.
  intros H0 Ha. destruct (Qlt_le_dec a (pow2 1023)) as [Hlo|Hhi].
  - apply Qle_lt_trans with (pow2 1023).
    + apply RN_le_pow2; [done | done | lra].
    + by apply pow2_lt.
  - pose proof (pow2_pos 1023) as H1023. pose proof (pow2_pos 970) as H970.
    assert (Hne : ¬ (a == 0)%Q) by (intros E; lra).
    assert (Hb : binade a = 1023).
    { apply binade_unique; rewrite Qabs_pos by done; [done|].
      change (1023 + 1) with 1024. lra. }
    assert (Hq : quantum a = 971) by (unfold quantum; rewrite Hb; reflexivity).
    rewrite (RN_eq a Hne), Hq. pose proof (pow2_pos 971) as H971.
    assert (Hr : py_round (a / pow2 971) ≤ 2 ^ 53 - 1).
    { apply py_round_below. apply Qlt_shift_div_r; [done|].
      assert (E : ((inject_Z (2 ^ 53 - 1) + (1 # 2)) * pow2 971 == pow2 1024 - pow2 970)%Q).
      { apply Qeq_bool_eq. vm_compute. reflexivity. }
      lra. }
    rewrite Zle_Qle in Hr.
    assert (E : (inject_Z (2 ^ 53 - 1) * pow2 971 < pow2 1024)%Q).
    { apply Qlt_alt. vm_compute. reflexivity. }
    eapply Qle_lt_trans; [|exact E]. apply Qmult_le_compat_r; [done | lra].
Qed.

Lemma overflows_iff (x : Q) : overflows x = true ↔ too_large x.
Proof.
  unfold overflows, too_large. rewrite Qle_bool_iff, RN_abs.
  pose proof (Qabs_nonneg x) as H0. split.
  - intros H. apply Qnot_lt_le. intros Hlt.
    pose proof (RN_below_1024 (Qabs x) H0 Hlt). lra.
  - intros H. rewrite <- RN_midpoint_1024. by apply RN_mono.
Qed.

Lemma overflows_false (x : Q) : overflows x = false ↔ (Qabs x < pow2 1024 - pow2 970)%Q.
Proof.
  destruct (overflows x) eqn:E.
  - apply overflows_iff in E. unfold too_large in E. split; [done|]. intros H. lra.
  - split; [|done]. intros _. apply Qnot_le_lt. intros H.
    apply (overflows_iff x) in H. congruence.
Qed.

End Binary64Facts.

(** ** Binary64: operations that stay finite *)

Section FloatFacts.

Lemma overflows_comp (x y : Q) : (x == y)%Q → overflows x = overflows y.
Proof. intros E. unfold overflows. by rewrite (RN_comp x y E). Qed.

Lemma threshold_above (k : Z) : k ≤ 1023 → (pow2 k < pow2 1024 - pow2 970)%Q.
Proof.
  intros Hk. apply Qle_lt_trans with (pow2 1023); [by apply pow2_le|].
  apply Qlt_alt. vm_compute. reflexivity.
Qed.

Lemma fits (x : Q) (k : Z) : k ≤ 1023 → (Qabs x <= pow2 k)%Q → overflows x = false.
Proof.
  intros Hk Hx. apply overflows_false. pose proof (threshold_above k Hk). lra.
Qed.

Lemma fl_fits (x : Q) (k : Z) : k ≤ 1023 → (Qabs x <= pow2 k)%Q → fl x = Finite (RN x).
Proof. intros Hk Hx. unfold fl. by rewrite (fits x k). Qed.

Lemma Qabs_inject_Z (z : Z) : Qabs (inject_Z z) = inject_Z (Z.abs z).
Proof. reflexivity. Qed.

Lemma of_int_fits (z : Z) (k : Z) :
  0 ≤ k ≤ 1023 → Z.abs z ≤ 2 ^ k → of_int z = Return (Finite (RN (inject_Z z))).
Proof.
  intros Hk Hz. unfold of_int. rewrite (fits _ k); [done | lia |].
  rewrite Qabs_inject_Z, pow2_inject by lia. by rewrite <- Zle_Qle.
Qed.

Lemma of_int_raises (z : Z) : raises (of_int z) ↔ too_large (inject_Z z).
Proof.
  unfold of_int. rewrite <- overflows_iff. destruct (overflows (inject_Z z)).
  - split; [done|]. intros _. by eexists.
  - split; [intros [e H]; discriminate | done].
Qed.

Lemma RN_bound (x : Q) (k : Z) : -1074 ≤ k → (Qabs x <= pow2 k)%Q → (Qabs (RN x) <= pow2 k)%Q.
Proof.
  intros Hk Hx. rewrite RN_abs. apply RN_le_pow2; [done | apply Qabs_nonneg | done].
Qed.

(** The error of one rounding, as a two-sided bound. *)
Lemma RN_within (x e : Q) :
  (Qabs x * pow2 (-53) + pow2 (-1075) <= e)%Q → (x - e <= RN x)%Q ∧ (RN x <= x + e)%Q.
Proof.
  intros He. pose proof (RN_error x) as H. apply Qabs_Qle_condition in H.
  destruct H as [H1 H2]. split; lra.
Qed.

(** The same with the constants written out: [2^-53], and [2^-100] in place
    of the much smaller [2^-1075]. *)
Lemma RN_close (x e : Q) :
  (Qabs x * (1 # 9007199254740992) + (1 # 1267650600228229401496703205376) <= e)%Q →
  (x - e <= RN x)%Q ∧ (RN x <= x + e)%Q.
Proof.
  intros He. apply RN_within.
  assert (H1 : (pow2 (-1075) <= 1 # 1267650600228229401496703205376)%Q).
  { apply Qle_bool_iff. vm_compute. reflexivity. }
  assert (H2 : (pow2 (-53) == 1 # 9007199254740992)%Q) by reflexivity.
  rewrite H2. lra.
Qed.

End FloatFacts.

(** ** Rounding lemmas *)

Lemma py_round_near (x : Q) (v : Z) :
  (Qabs (x - inject_Z v) < 1 # 2)%Q → py_round x = v.
Proof.
  intros H. apply Qabs_Qlt_condition in H. destruct H as [H1 H2].
  unfold py_round.
  pose proof (Qfloor_le x) as Hf1. pose proof (Qlt_floor x) as Hf2.
  generalize dependent (Qfloor x). intros f Hf1 Hf2.
  rewrite inject_Z_plus in Hf2. change (inject_Z 1) with 1%Q in Hf2.
  assert (Hlo : (inject_Z (v + -1) < inject_Z (f + 1))%Q).
  { rewrite !inject_Z_plus. change (inject_Z (-1)) with (-1 # 1)%Q.
    change (inject_Z 1) with 1%Q. lra. }
  assert (Hhi : (inject_Z f < inject_Z (v + 1))%Q).
  { rewrite !inject_Z_plus. change (inject_Z 1) with 1%Q. lra. }
  rewrite <- Zlt_Qlt in Hlo, Hhi.
  destruct (decide (f = v)) as [->|Hne].
  - destruct (Qcompare_spec (x - inject_Z v) (1 # 2)) as [E|E|E]; [lra | done | lra].
  - assert (f = v + -1) as -> by lia.
    rewrite inject_Z_plus in *. change (inject_Z (-1)) with (-1 # 1)%Q in *.
    destruct (Qcompare_spec (x - (inject_Z v + (-1 # 1))) (1 # 2)) as [E|E|E];
      [lra | lra | lia].
Qed.

(** ** Normalizer: helper lemmas *)

Section NormalizerFacts.
Import Normalizer.

Lemma normalize_length kd config vec :
  normalize kd config = Return vec → length vec = length kd.
Proof.
  revert vec. induction kd as [|[name k] kd IH]; intros vec H; simpl in H.
  - by inversion H.
  - destruct (config !! name) as [rv|]; [|done].
    destruct (normalize_knob k rv) as [x| |]; [|done..]. simpl in H.
    destruct (normalize kd config) as [vec0| |] eqn:Hn; [|done..]. simpl in H.
    inversion H; subst. simpl. f_equal. by apply IH.
Qed.

(** What binary64 does to [min + ((v - min) / (max - min)) * (max - min)]:
    with the three roundings the result stays within half a unit of [v]
    whenever the range and [v] are within [2^50]. *)
Lemma roundtrip_error (a b mn : Z) :
  0 ≤ a ≤ b → 1 ≤ b ≤ 2 ^ 50 → Z.abs (mn + a) ≤ 2 ^ 50 →
  let x := RN (inject_Z a / inject_Z b) in
  let p := RN (x * inject_Z b) in
  let s := RN (inject_Z mn + p) in
  (Qabs (s - inject_Z (mn + a)) < 1 # 2)%Q.
Proof.
  intros Ha Hb Hv. cbv zeta.
  assert (HA : (0 <= inject_Z a)%Q ∧ (inject_Z a <= inject_Z b)%Q).
  { rewrite <- !Zle_Qle. change 0%Q with (inject_Z 0). rewrite <- Zle_Qle. lia. }
  assert (HB : (1 <= inject_Z b)%Q ∧ (inject_Z b <= inject_Z (2 ^ 50))%Q).
  { change 1%Q with (inject_Z 1). rewrite <- !Zle_Qle. lia. }
  assert (HV : (inject_Z (- 2 ^ 50) <= inject_Z (mn + a))%Q ∧
               (inject_Z (mn + a) <= inject_Z (2 ^ 50))%Q).
  { rewrite <- !Zle_Qle. lia. }
  change (inject_Z (2 ^ 50)) with (1125899906842624 # 1)%Q in HB, HV.
  change (inject_Z (- 2 ^ 50)) with (-1125899906842624 # 1)%Q in HV.
  rewrite inject_Z_plus in HV.
  rewrite inject_Z_plus.
  clear Ha Hb Hv.
  generalize dependent (inject_Z a). intros A HA HV.
  generalize dependent (inject_Z b). intros B HB HA.
  generalize dependent (inject_Z mn). intros M HV.
  set (x := RN (A / B)). set (p := RN (x * B)). set (s := RN (M + p)).
  destruct HA as [HA0 HAB]. destruct HB as [HB1 HB2]. destruct HV as [HV1 HV2].
  set (u := (1 # 9007199254740992)%Q). set (eta := (1 # 1267650600228229401496703205376)%Q).
  (* first rounding *)
  assert (Hq : (0 <= A / B)%Q ∧ (A / B <= 1)%Q).
  { split; [apply Qle_shift_div_l | apply Qle_shift_div_r]; lra. }
  destruct (RN_close (A / B) (A / B * u + eta)) as [X1 X2].
  { rewrite Qabs_pos by lra. unfold u, eta. lra. }
  fold x in X1, X2.
  assert (EB : (A / B * B == A)%Q) by (field; lra).
  assert (P1 : (A - (A * u + eta * B) <= x * B)%Q).
  { pose proof (Qmult_le_0_compat (x - (A / B - (A / B * u + eta))) B
                  ltac:(lra) ltac:(lra)). unfold u, eta in *. nra. }
  assert (P2 : (x * B <= A + (A * u + eta * B))%Q).
  { pose proof (Qmult_le_0_compat (A / B + (A / B * u + eta) - x) B
                  ltac:(lra) ltac:(lra)). unfold u, eta in *. nra. }
  assert (Hx0 : (0 <= x)%Q) by (apply RN_nonneg; lra).
  assert (HxB0 : (0 <= x * B)%Q).
  { pose proof (Qmult_le_0_compat x B ltac:(lra) ltac:(lra)). lra. }
  (* second rounding *)
  destruct (RN_close (x * B) ((A + (A * u + eta * B)) * u + eta)) as [Y1 Y2].
  { rewrite Qabs_pos by done. unfold u, eta in *. lra. }
  fold p in Y1, Y2.
  (* third rounding *)
  assert (Hsum : (Qabs (M + p) <= 1125899906842625)%Q).
  { apply Qabs_Qle_condition. unfold u, eta in *. split; lra. }
  destruct (RN_close (M + p) (1125899906842625 * u + eta)) as [Z1 Z2].
  { unfold u, eta in *. lra. }
  fold s in Z1, Z2.
  apply Qabs_Qlt_condition. unfold u, eta in *. split; lra.
Qed.

(** The share of the range an [int] value inside the range takes: a float
    of the unit interval. *)
Lemma unit_share_in_range (min_val max_val v : Z) :
  min_val < max_val → min_val ≤ v ≤ max_val →
  let x := RN (inject_Z (v - min_val) / inject_Z (max_val - min_val)) in
  unit_share min_val max_val (VInt v) = Return (Finite x) ∧ (0 <= x)%Q ∧ (x <= 1)%Q.
Proof.
  intros Hlt Hv x.
  assert (HB : (0 < inject_Z (max_val - min_val))%Q).
  { change 0%Q with (inject_Z 0). rewrite <- Zlt_Qlt. lia. }
  assert (HA : (0 <= inject_Z (v - min_val))%Q ∧
               (inject_Z (v - min_val) <= inject_Z (max_val - min_val))%Q).
  { change 0%Q with (inject_Z 0). rewrite <- !Zle_Qle. lia. }
  assert (Hq : (0 <= inject_Z (v - min_val) / inject_Z (max_val - min_val))%Q ∧
               (inject_Z (v - min_val) / inject_Z (max_val - min_val) <= 1)%Q).
  { split; [apply Qle_shift_div_l | apply Qle_shift_div_r]; lra. }
  split; [|split].
  - unfold unit_share, int_truediv.
    destruct (Z.eqb_spec (max_val - min_val) 0) as [|_]; [lia|].
    rewrite (fits _ 0); [done | done |]. rewrite Qabs_pos by lra.
    change (pow2 0) with 1%Q. lra.
  - apply RN_nonneg. lra.
  - change 1%Q with (pow2 0). apply RN_le_pow2; [done | lra |]. change (pow2 0) with 1%Q. lra.
Qed.

(** Round trip of a single integer knob in binary64. *)
Lemma integer_roundtrip (min_val max_val v : Z) :
  min_val < max_val → min_val ≤ v ≤ max_val →
  - 2 ^ 50 ≤ min_val → max_val ≤ 2 ^ 50 → max_val - min_val ≤ 2 ^ 50 →
  scaled min_val max_val
    (VFloat (Finite (RN (inject_Z (v - min_val) / inject_Z (max_val - min_val)))))
  = Return v.
Proof.
  intros Hlt Hv Hmin Hmax Hrange.
  destruct (unit_share_in_range min_val max_val v Hlt Hv) as (_ & Hx0 & Hx1).
  set (x := RN (inject_Z (v - min_val) / inject_Z (max_val - min_val))) in *.
  pose proof (roundtrip_error (v - min_val) (max_val - min_val) min_val
                ltac:(lia) ltac:(lia) ltac:(lia)) as Herr.
  cbv zeta in Herr. fold x in Herr.
  replace (min_val + (v - min_val)) with v in Herr by lia.
  unfold scaled.
  rewrite (of_int_fits (max_val - min_val) 50) by lia. cbn [bind].
  rewrite (of_int_fits min_val 50) by lia. cbn [bind].
  assert (Eb : (RN (inject_Z (max_val - min_val)) == inject_Z (max_val - min_val))%Q).
  { apply RN_Z. lia. }
  assert (Em : (RN (inject_Z min_val) == inject_Z min_val)%Q) by (apply RN_Z; lia).
  assert (HB : (1 <= inject_Z (max_val - min_val))%Q ∧
               (inject_Z (max_val - min_val) <= inject_Z (2 ^ 50))%Q).
  { change 1%Q with (inject_Z 1). rewrite <- !Zle_Qle. lia. }
  assert (HM : (inject_Z (- 2 ^ 50) <= inject_Z min_val)%Q ∧
               (inject_Z min_val <= inject_Z (2 ^ 50))%Q).
  { rewrite <- !Zle_Qle. lia. }
  change (inject_Z (2 ^ 50)) with (1125899906842624 # 1)%Q in HB, HM.
  change (inject_Z (- 2 ^ 50)) with (-1125899906842624 # 1)%Q in HM.
  assert (Ep : (x * RN (inject_Z (max_val - min_val)) == x * inject_Z (max_val - min_val))%Q).
  { by rewrite Eb. }
  assert (Hp : (Qabs (x * inject_Z (max_val - min_val)) <= pow2 50)%Q).
  { rewrite (pow2_inject 50) by done. change (inject_Z (2 ^ 50)) with (1125899906842624 # 1)%Q.
    apply Qabs_Qle_condition.
    pose proof (Qmult_le_0_compat x (inject_Z (max_val - min_val)) ltac:(lra) ltac:(lra)).
    pose proof (Qmult_le_0_compat (1 - x) (inject_Z (max_val - min_val))
                  ltac:(lra) ltac:(lra)).
    split; lra. }
  unfold fmul. rewrite (fl_fits _ 50); [|done|by rewrite (Qabs_wd _ _ Ep)].
  rewrite (RN_comp _ _ Ep).
  set (p := RN (x * inject_Z (max_val - min_val))) in *.
  assert (Hpb : (Qabs p <= pow2 50)%Q) by (by apply RN_bound).
  assert (Es : (RN (inject_Z min_val) + p == inject_Z min_val + p)%Q) by (by rewrite Em).
  assert (Hs : (Qabs (inject_Z min_val + p) <= pow2 51)%Q).
  { rewrite (pow2_inject 50) in Hpb by done.
    change (inject_Z (2 ^ 50)) with (1125899906842624 # 1)%Q in Hpb.
    apply Qabs_Qle_condition in Hpb. destruct Hpb as [? ?].
    rewrite (pow2_inject 51) by done.
    change (inject_Z (2 ^ 51)) with (2251799813685248 # 1)%Q.
    apply Qabs_Qle_condition. split; lra. }
  unfold fadd. rewrite (fl_fits _ 51); [|done|by rewrite (Qabs_wd _ _ Es)].
  rewrite (RN_comp _ _ Es). cbn [float_round]. f_equal.
  by apply py_round_near.
Qed.

Lemma clamp_inside (min_val max_val v : Z) :
  min_val ≤ v ≤ max_val →
  (let r := if v >=? max_val then max_val else v in
   if r <=? min_val then min_val else r) = v.
Proof.
  intros Hv. cbv zeta.
  destruct (Z.geb_spec v max_val), (Z.leb_spec max_val min_val), (Z.leb_spec v min_val); lia.
Qed.

Lemma clamp_range (min_val max_val v : Z) :
  min_val ≤ max_val →
  min_val ≤ (let r := if v >=? max_val then max_val else v in
             if r <=? min_val then min_val else r) ≤ max_val.
Proof.
  intros Hv. cbv zeta.
  destruct (Z.geb_spec v max_val), (Z.leb_spec max_val min_val), (Z.leb_spec v min_val); lia.
Qed.

Lemma clamp_mono (min_val max_val v w : Z) :
  v ≤ w →
  (let r := if v >=? max_val then max_val else v in
   if r <=? min_val then min_val else r)
  ≤ (let r := if w >=? max_val then max_val else w in
     if r <=? min_val then min_val else r).
Proof.
  intros Hv. cbv zeta.
  destruct (Z.geb_spec v max_val), (Z.geb_spec w max_val), (Z.leb_spec max_val min_val),
    (Z.leb_spec v min_val), (Z.leb_spec w min_val); lia.
Qed.

(** What one knob gives back when its normalized value is denormalized. *)
Lemma knob_roundtrip k given :
  legal_value k given → moderate k →
  ∃ x w, normalize_knob k given = Return x ∧ denormalize_knob k x = Return w ∧
    match k with
    | Integer _ _ _ => w = given
    | _ => py_eq given w = true
    end.
Proof.
  destruct k as [mn mx d|mn mx d|ty mn mx d]; simpl; [| |done].
  - intros (Hlt & v & -> & Hv) (Hmin & Hmax & Hrange).
    destruct (decide (mx = mn)) as [|_]; [lia|].
    destruct (unit_share_in_range mn mx v Hlt Hv) as (-> & _ & _). cbn [bind].
    eexists _, _. split; [reflexivity|].
    rewrite integer_roundtrip by done. cbn [bind].
    pose proof (clamp_inside mn mx v Hv) as Hc. cbv zeta in Hc. rewrite Hc. done.
  - intros Hlegal _. destruct (py_eq given mn) eqn:E1.
    + eexists _, _. split; [reflexivity|]. by split.
    + destruct Hlegal as [|E2]; [done|]. rewrite E2.
      eexists _, _. split; [reflexivity|]. by split.
Qed.

Lemma denormalize_loop_spec config kd : ∀ acc,
  NoDup (knob_names kd) →
  legal_config kd config → Forall (λ nk, moderate nk.2) kd →
  ∃ vec out, normalize kd config = Return vec ∧
    denormalize_loop kd vec acc = Return out ∧
    (∀ name, name ∉ knob_names kd → out !! name = acc !! name) ∧
    (∀ name k, (name, k) ∈ kd →
       ∃ given w, config !! name = Some given ∧ out !! name = Some w ∧
         match k with
         | Integer _ _ _ => w = given
         | _ => py_eq given w = true
         end).
Proof.
  induction kd as [|[name k] kd IH]; intros acc Hnd Hlegal Hmod.
  - exists [], acc. split; [done|]. split; [done|]. split; [done|].
    intros ?? H. by apply elem_of_nil in H.
  - apply NoDup_cons in Hnd as [Hfresh Hnd].
    apply Forall_cons in Hlegal as [(given & Hcfg & Hl) Hlegal].
    apply Forall_cons in Hmod as [Hm Hmod]. simpl in Hcfg, Hl, Hm.
    destruct (knob_roundtrip k given Hl Hm) as (x & w & Hn & Hd & Hw).
    destruct (IH (<[name := w]> acc) Hnd Hlegal Hmod) as (vec & out & Hvec & Hout & Hother & Hin).
    exists (x :: vec), out. simpl. rewrite Hcfg, Hn. cbn [bind]. rewrite Hvec. cbn [bind].
    split; [done|]. rewrite Hd. cbn [bind]. split; [exact Hout|]. split.
    + intros n Hn'. apply not_elem_of_cons in Hn' as [Hne Hn'].
      rewrite (Hother n Hn'). by rewrite lookup_insert_ne.
    + intros n k' Hel. apply elem_of_cons in Hel as [Heq|Hel].
      * inversion Heq; subst n k'. exists given, w. split; [done|]. split; [|done].
        rewrite (Hother name Hfresh). by rewrite lookup_insert_eq.
      * by apply Hin.
Qed.

End NormalizerFacts.

Section NormalizerTheorems.
Import Normalizer.

Lemma normalize_legal kd config :
  legal_config kd config → ∃ vec, normalize kd config = Return vec.
Proof.
  induction 1 as [|[name k] kd (v & Hv & Hl) _ [vec IH]]; [by eexists|].
  simpl in *. rewrite Hv, IH.
  destruct k as [mn mx d|mn mx d|ty mn mx d]; simpl in *; [| |done].
  - destruct Hl as (Hlt & z & -> & Hz).
    destruct (decide (mx = mn)); [lia|].
    destruct (unit_share_in_range mn mx z Hlt Hz) as (-> & _ & _). by eexists.
  - destruct (py_eq v mn); [by eexists|].
    destruct Hl as [|Hl]; [done|]. rewrite Hl. by eexists.
Qed.

(** C1, as stated, fails: binary64 cannot hold every share of a wide range.
    In the range [0, 8045753800741995], a little under [2^53], the value
    4216911821962611 comes back one unit lower; in the range [0, 2^62] the
    value [2^61 + 100] normalizes to 0.5 and comes back as [2^61], a hundred
    units off; in the range [0, 2^64 - 1] the value [2^64 - 2] normalizes to
    1.0 and comes back as [2^64 - 1]. Each value is legal for its knob. *)
Lemma roundtrip_off_on_wide_range :
  (legal_value (Integer 0 8045753800741995 0) (VInt 4216911821962611) ∧
   wide_round_trip 8045753800741995 4216911821962611
     = Return {[ "K"%string := VInt 4216911821962610 ]}) ∧
  (legal_value (Integer 0 (2 ^ 62) 0) (VInt (2 ^ 61 + 100)) ∧
   wide_round_trip (2 ^ 62) (2 ^ 61 + 100) = Return {[ "K"%string := VInt (2 ^ 61) ]}) ∧
  (legal_value (Integer 0 (2 ^ 64 - 1) 0) (VInt (2 ^ 64 - 2)) ∧
   wide_round_trip (2 ^ 64 - 1) (2 ^ 64 - 2)
     = Return {[ "K"%string := VInt (2 ^ 64 - 1) ]}).
Proof.
  split; [|split]; (split; [|vm_compute; reflexivity]);
    (split; [reflexivity|]); eexists; (split; [reflexivity|]); lia.
Qed.

(** C1 (amended). Round trip on the legal value domain, for integer knobs
    whose bounds are within [2^50] of zero and of each other: a
    configuration that gives every knob a legal value is normalized, and
    denormalizing the result gives back, knob by knob, exactly the integer
    that was put in, and for a boolean knob a state equal to the one that
    was put in. *)
Theorem normalize_denormalize_roundtrip
    (kd : knob_dict) (config : gmap string value) :
  NoDup (knob_names kd) →
  legal_config kd config →
  Forall (λ nk, moderate nk.2) kd →
  ∃ vec out, normalize kd config = Return vec ∧
    denormalize kd vec = Return out ∧
    ∀ name k, (name, k) ∈ kd →
      match k with
      | Integer _ _ _ => out !! name = config !! name
      | _ => ∃ v w, config !! name = Some v ∧ out !! name = Some w ∧
                    py_eq v w = true
      end.
Proof.
  intros Hnd Hlegal Hmod.
  destruct (denormalize_loop_spec config kd ∅ Hnd Hlegal Hmod)
    as (vec & out & Hvec & Hout & _ & Hin).
  exists vec, out. split; [done|]. split.
  { unfold denormalize. rewrite (normalize_length _ _ _ Hvec).
    by destruct (decide (length kd ≠ length kd)). }
  intros name k Hel.
  destruct (Hin name k Hel) as (given & w & Hg & Hw & Hrt).
  destruct k as [mn mx d|mn mx d|ty mn mx d].
  - rewrite Hg, Hw. by f_equal.
  - by exists given, w.
  - by exists given, w.
Qed.

End NormalizerTheorems.

Section NormalizerRejections.
Import Normalizer.

Lemma returns_not_raises {A : Type} (m : outcome A) : returns m → ¬ raises m.
Proof. intros [a ->] [e H]. discriminate. Qed.

Lemma RN_int_nonzero (z : Z) : z ≠ 0 → ¬ (RN (inject_Z z) == 0)%Q.
Proof.
  intros Hz E.
  assert (H : (pow2 0 <= RN (Qabs (inject_Z z)))%Q).
  { apply RN_ge_pow2; [done|]. change (pow2 0) with (inject_Z 1).
    rewrite Qabs_inject_Z, <- Zle_Qle. lia. }
  rewrite <- RN_abs, (Qabs_wd _ _ E) in H. revert H. compute. auto.
Qed.

Lemma fdiv_returns (a : float) (y : Q) : ¬ (y == 0)%Q → returns (fdiv a (Finite y)).
Proof.
  intros Hy. unfold fdiv. apply Qeq_bool_false in Hy. rewrite Hy.
  destruct a; by eexists.
Qed.

Lemma normalize_knob_cases k v :
  supported k →
  (rejection_of k v ∧ raises (normalize_knob k v)) ∨
  (¬ rejection_of k v ∧ ∃ x, normalize_knob k v = Return x ∧ faithful_knob k v x).
Proof.
  destruct k as [mn mx d|mn mx d|ty mn mx d]; simpl; intros Hs; [| |done].
  - destruct (decide (mx = mn)) as [->|Hne].
    { left. split; [by left|]. by eexists. }
    destruct v as [z|f|s]; simpl.
    + unfold int_truediv. destruct (Z.eqb_spec (mx - mn) 0) as [|_]; [lia|].
      destruct (overflows _) eqn:Ho.
      * left. split; [right; by apply overflows_iff|]. by eexists.
      * right. split; [|by eexists].
        intros [|H]; [done|]. apply overflows_iff in H. congruence.
    + unfold of_int. destruct (overflows (inject_Z mn)) eqn:Hm.
      { left. split; [right; left; by apply overflows_iff|]. by eexists. }
      cbn [bind]. destruct (overflows (inject_Z (mx - mn))) eqn:Hd.
      { left. split; [right; right; by apply overflows_iff|]. by eexists. }
      cbn [bind].
      destruct (fdiv_returns (fsub f (Finite (RN (inject_Z mn))))
                  (RN (inject_Z (mx - mn)))) as [g Hg].
      { apply RN_int_nonzero. lia. }
      right. split.
      * intros [|[H|H]]; [done| |]; apply overflows_iff in H; congruence.
      * rewrite Hg. cbn [bind]. eexists. split; [done|]. by exists g.
    + left. split; [by right|]. by eexists.
  - destruct (py_eq v mn) eqn:E1.
    { right. split; [by intros [? _]|]. eexists. split; [done|]. by left. }
    destruct (py_eq v mx) eqn:E2.
    { right. split; [by intros [_ ?]|]. eexists. split; [done|]. by right. }
    left. split; [done|]. by eexists.
Qed.

Lemma normalize_cases kd config :
  Forall (λ nk, supported nk.2) kd →
  (Exists (rejection config) kd ∧ raises (normalize kd config)) ∨
  (¬ Exists (rejection config) kd ∧
   ∃ xs, normalize kd config = Return xs ∧ Forall2 (faithful_entry config) kd xs).
Proof.
  induction 1 as [|[name k] kd Hs _ IH].
  - right. split; [by intros H; inversion H|]. exists []. by split.
  - simpl in Hs. unfold rejection, faithful_entry in *. simpl.
    destruct (config !! name) as [v|] eqn:Hv.
    2:{ left. split; [|by eexists]. left. simpl. by rewrite Hv. }
    destruct (normalize_knob_cases k v Hs) as [[Hr [e He]]|[Hr (x & Hx & Hf)]].
    { left. split; [|exists e; by rewrite He]. left. simpl. by rewrite Hv. }
    rewrite Hx. simpl.
    destruct IH as [[Hex [e He]]|[Hnex (xs & Hxs & Hfs)]].
    { left. split; [by right|]. exists e. by rewrite He. }
    right. split.
    + intros Hex. apply Exists_cons in Hex as [Hex|Hex]; [|done].
      simpl in Hex. rewrite Hv in Hex. done.
    + exists (x :: xs). rewrite Hxs. split; [done|]. constructor; [|done].
      simpl. exists v. by split.
Qed.

Lemma scaled_cases (mn mx : Z) (e : value) :
  (entry_rejection_of (Integer mn mx 0) e ∧ raises (scaled mn mx e)) ∨
  (¬ entry_rejection_of (Integer mn mx 0) e ∧ returns (scaled mn mx e)).
Proof.
  destruct e as [n|f|s]; simpl.
  - right. split; [tauto | by eexists].
  - unfold of_int. destruct (overflows (inject_Z (mx - mn))) eqn:Hd.
    { left. split; [left; by apply overflows_iff|]. by eexists. }
    cbn [bind]. destruct (overflows (inject_Z mn)) eqn:Hm.
    { left. split; [right; left; by apply overflows_iff|]. by eexists. }
    cbn [bind].
    assert (Hnd : ¬ too_large (inject_Z (mx - mn))).
    { intros H. apply overflows_iff in H. congruence. }
    assert (Hnm : ¬ too_large (inject_Z mn)).
    { intros H. apply overflows_iff in H. congruence. }
    destruct f as [x| | |].
    + unfold fmul, fl. destruct (overflows (x * RN (inject_Z (mx - mn)))) eqn:Hp.
      { left. split; [right; right; left; by apply overflows_iff|].
        destruct (Qltb 0 _); by eexists. }
      unfold fadd, fl.
      destruct (overflows (RN (inject_Z mn) + RN (x * RN (inject_Z (mx - mn))))) eqn:Hs.
      { left. split; [right; right; right; by apply overflows_iff|].
        destruct (Qltb 0 _); by eexists. }
      right. split; [|by eexists].
      intros [H|[H|[H|H]]]; [done | done | |]; apply overflows_iff in H; congruence.
    + left. split; [tauto|]. unfold fmul. simpl.
      destruct (Qltb 0 _); [by eexists|]. destruct (Qltb _ 0); by eexists.
    + left. split; [tauto|]. unfold fmul. simpl.
      destruct (Qltb 0 _); [by eexists|]. destruct (Qltb _ 0); by eexists.
    + left. split; [tauto|]. by eexists.
  - left. split; [done|]. destruct (_ <? _); by eexists.
Qed.

Lemma denormalize_knob_cases k e :
  supported k →
  (entry_rejection_of k e ∧ raises (denormalize_knob k e)) ∨
  (¬ entry_rejection_of k e ∧ returns (denormalize_knob k e)).
Proof.
  destruct k as [mn mx d|mn mx d|ty mn mx d]; intros Hs; [| |done].
  - destruct (scaled_cases mn mx e) as [[Hr [ex He]]|[Hr [v Hv]]].
    + left. split; [exact Hr|]. exists ex. simpl. by rewrite He.
    + right. split; [exact Hr|]. simpl. rewrite Hv. by eexists.
  - destruct e as [n|f|s]; simpl.
    + right. split; [tauto | by eexists].
    + right. split; [tauto | by eexists].
    + left. split; [done | by eexists].
Qed.

Lemma denormalize_loop_cases kd : ∀ vec acc,
  Forall (λ nk, supported nk.2) kd → length vec = length kd →
  (Exists entry_rejection (zip kd vec) ∧ raises (denormalize_loop kd vec acc)) ∨
  (¬ Exists entry_rejection (zip kd vec) ∧ returns (denormalize_loop kd vec acc)).
Proof.
  induction kd as [|[name k] kd IH]; intros vec acc Hs Hlen.
  - right. split; [by intros H; inversion H | by eexists].
  - destruct vec as [|e vec]; [done|]. simpl in Hlen.
    apply Forall_cons in Hs as [Hk Hs]. simpl in Hk. simpl.
    destruct (denormalize_knob_cases k e Hk) as [[Hr [ex He]]|[Hr [v Hv]]].
    + left. split; [by left|]. exists ex. by rewrite He.
    + rewrite Hv. cbn [bind].
      destruct (IH vec (<[name := v]> acc) Hs ltac:(lia)) as [[Hex Hraise]|[Hnex Hret]].
      * left. split; [by right | done].
      * right. split; [|done].
        intros Hex. apply Exists_cons in Hex as [Hex|Hex]; done.
Qed.

End NormalizerRejections.

Section NormalizerContract.
Import Normalizer.

(** C9 (amended). For a knob dictionary of integer and boolean knobs,
    [normalize] raises exactly when the configuration misses a knob, gives a
    boolean knob a value that is neither its min nor its max, meets an
    integer knob with max = min, or gives an integer knob a value it cannot
    turn into a float: a string, an [int] whose share of the range is too
    large for a float, or a float when a bound of the range is too large
    for a float. Otherwise it returns, and what it returns is not coerced.
    [denormalize] raises exactly when the length of the vector differs from
    the number of knobs or an entry is rejected: a string, or for an
    integer knob a float that is [nan] or infinite, or whose scaled value
    leaves the binary64 range. It returns in every other case. *)
Theorem normalizer_rejects_exactly
    (kd : knob_dict) (config : gmap string value) (vec : list value) :
  Forall (λ nk, supported nk.2) kd →
  (raises (normalize kd config) ↔ Exists (rejection config) kd) ∧
  (returns (normalize kd config) ↔ ¬ Exists (rejection config) kd) ∧
  (∀ xs, normalize kd config = Return xs → Forall2 (faithful_entry config) kd xs) ∧
  (raises (denormalize kd vec)
     ↔ length vec ≠ length kd ∨ Exists entry_rejection (zip kd vec)) ∧
  (returns (denormalize kd vec)
     ↔ length vec = length kd ∧ ¬ Exists entry_rejection (zip kd vec)).
Proof.
  intros Hs. split; [|split; [|split]].
  - destruct (normalize_cases kd config Hs) as [[Hex Hr]|[Hnex (xs & Hxs & Hf)]].
    + done.
    + split; [|done]. intros [e He]. congruence.
  - destruct (normalize_cases kd config Hs) as [[Hex Hr]|[Hnex (xs & Hxs & Hf)]].
    + split; [|done]. intros Hret. by apply returns_not_raises in Hret.
    + split; [done|]. intros _. by exists xs.
  - intros xs Hxs.
    destruct (normalize_cases kd config Hs) as [[Hex [e He]]|[Hnex (ys & Hys & Hf)]];
      congruence.
  - unfold denormalize. destruct (decide (length vec ≠ length kd)) as [Hne|Heq].
    + split; split.
      * intros _. by left.
      * intros _. by eexists.
      * intros [a Ha]. discriminate.
      * intros [? _]. done.
    + assert (Hlen : length vec = length kd) by lia.
      destruct (denormalize_loop_cases kd vec ∅ Hs Hlen) as [[Hex Hr]|[Hnex Hret]].
      * split; split.
        -- intros _. by right.
        -- done.
        -- intros Hret. by apply returns_not_raises in Hret.
        -- intros [_ ?]. done.
      * split; split.
        -- intros Hr. by apply returns_not_raises in Hret.
        -- intros [?|?]; done.
        -- done.
        -- done.
Qed.

End NormalizerContract.

Section NormalizerScenario.
Import Normalizer.

(** The end-to-end scenario: [[0.8, 0.2]] denormalizes to [{A: 80, B: OFF}],
    which normalizes back to [[0.8, 0.0]]. *)
Example scenario_denormalize :
  denormalize scenario_knobs [VFloat (literal (8 # 10)); VFloat (literal (2 # 10))]
    = Return scenario_config.
Proof. vm_compute. reflexivity. Qed.

Example scenario_normalize :
  normalize scenario_knobs scenario_config
    = Return [VFloat (literal (8 # 10)); VFloat (Finite 0)].
Proof. vm_compute. reflexivity. Qed.

(** The boolean threshold: just below one half is [min], one half is [max],
    and so is [nan], which is below nothing. *)
Example boolean_threshold :
  let k := Boolean (VStr "OFF") (VStr "ON") (VStr "OFF") in
  denormalize_knob k (VFloat (literal (4999999 # 10000000))) = Return (VStr "OFF") ∧
  denormalize_knob k (VFloat (literal (1 # 2))) = Return (VStr "ON") ∧
  denormalize_knob k (VFloat NaN) = Return (VStr "ON").
Proof. repeat split; vm_compute; reflexivity. Qed.

(** The default vector of the scenario: [(50 - 0) / (100 - 0)] and "OFF". *)
Example scenario_default_vector :
  get_default_normalized_values scenario_knobs
    = Return [VFloat (literal (1 # 2)); VFloat (Finite 0)].
Proof. vm_compute. reflexivity. Qed.

(** Out-of-range vector entries are clamped by [denormalize], out-of-range
    values are not clamped by [normalize]. *)
Example out_of_range_entries :
  denormalize_knob (Integer 0 100 50) (VFloat (literal (17 # 10))) = Return (VInt 100) ∧
  normalize_knob (Integer 0 100 50) (VInt 170) = Return (VFloat (literal (17 # 10))).
Proof. split; vm_compute; reflexivity. Qed.

(** Entries of the right type that [denormalize] cannot scale: [nan], an
    infinity, and [1e300] on a range of [10^10]; and a value [normalize]
    cannot divide: [10^400] on a range of 100. *)
Example unscalable_entries :
  denormalize_knob (Integer 0 100 50) (VFloat NaN) = Raise ValueError ∧
  denormalize_knob (Integer 0 100 50) (VFloat PInf) = Raise OverflowError ∧
  denormalize_knob (Integer 0 (10 ^ 10) 0) (VFloat (literal (inject_Z (10 ^ 300))))
    = Raise OverflowError ∧
  normalize_knob (Integer 0 100 50) (VInt (10 ^ 400)) = Raise OverflowError.
Proof. repeat split; vm_compute; reflexivity. Qed.

(** Inputs of the scenario that are rejected: a configuration without the
    knob B, and a vector whose first entry is infinite. *)
Example scenario_rejections :
  normalize scenario_knobs {[ "A"%string := VInt 80 ]} = Raise ValueError ∧
  denormalize scenario_knobs [VFloat PInf; VFloat (literal (2 # 10))]
    = Raise OverflowError.
Proof. split; vm_compute; reflexivity. Qed.

Lemma normalize_denormalize_roundtrip_witness :
  NoDup (knob_names scenario_knobs) ∧
  legal_config scenario_knobs scenario_config ∧
  Forall (λ nk, moderate nk.2) scenario_knobs ∧
  ∃ vec out, normalize scenario_knobs scenario_config = Return vec ∧
    denormalize scenario_knobs vec = Return out ∧
    ∀ name k, (name, k) ∈ scenario_knobs →
      match k with
      | Integer _ _ _ => out !! name = scenario_config !! name
      | _ => ∃ v w, scenario_config !! name = Some v ∧ out !! name = Some w ∧
                    py_eq v w = true
      end.
Proof.
  assert (Hnd : NoDup (knob_names scenario_knobs)).
  { refine (bool_decide_unpack _ _). vm_compute. exact I. }
  assert (Hlegal : legal_config scenario_knobs scenario_config).
  { constructor; [|constructor; [|constructor]]; simpl.
    - exists (VInt 80). split; [reflexivity|]. split; [lia|].
      exists 80. split; [reflexivity | lia].
    - exists (VStr "OFF"). split; [reflexivity|]. left. reflexivity. }
  assert (Hmod : Forall (λ nk, moderate nk.2) scenario_knobs).
  { constructor; [|constructor; [|constructor]]; simpl; [lia | exact I]. }
  split; [exact Hnd|]. split; [exact Hlegal|]. split; [exact Hmod|].
  exact (normalize_denormalize_roundtrip scenario_knobs scenario_config Hnd Hlegal Hmod).
Defined.

(** C9, as stated, fails: an integer knob with a proper range whose value
    is present but is text makes [normalize] raise, although none of the
    three listed reasons applies; and a vector of the right length whose
    entry is [nan] makes [denormalize] raise. *)
Lemma normalize_rejects_unlisted_input :
  let kd := [("A"%string, Integer 0 100 50)] in
  let config : gmap string value := {[ "A"%string := VStr "ON" ]} in
  Forall (λ nk, supported nk.2) kd ∧
  normalize kd config = Raise TypeError ∧
  ¬ Exists (listed_rejection config) kd ∧
  length [VFloat NaN] = length kd ∧
  denormalize kd [VFloat NaN] = Raise ValueError.
Proof.
  simpl. split; [repeat constructor|]. split; [reflexivity|]. split.
  - intros H. apply Exists_cons in H as [H|H].
    + unfold listed_rejection in H. simpl in H. vm_compute in H. discriminate.
    + by apply Exists_nil in H.
  - split; reflexivity.
Qed.

Lemma normalizer_rejects_exactly_witness :
  let config : gmap string value := {[ "A"%string := VInt 80 ]} in
  let vec := [VFloat PInf; VFloat (literal (2 # 10))] in
  Forall (λ nk, supported nk.2) scenario_knobs ∧
  (raises (normalize scenario_knobs config)
     ↔ Exists (rejection config) scenario_knobs) ∧
  (returns (normalize scenario_knobs config)
     ↔ ¬ Exists (rejection config) scenario_knobs) ∧
  (∀ xs, normalize scenario_knobs config = Return xs
         → Forall2 (faithful_entry config) scenario_knobs xs) ∧
  (raises (denormalize scenario_knobs vec)
     ↔ length vec ≠ length scenario_knobs
       ∨ Exists entry_rejection (zip scenario_knobs vec)) ∧
  (returns (denormalize scenario_knobs vec)
     ↔ length vec = length scenario_knobs
       ∧ ¬ Exists entry_rejection (zip scenario_knobs vec)).
Proof.
  intros config vec.
  assert (Hs : Forall (λ nk, supported nk.2) scenario_knobs).
  { repeat constructor. }
  split; [exact Hs|].
  exact (normalizer_rejects_exactly scenario_knobs config vec Hs).
Defined.

End NormalizerScenario.

(** ** Bandits *)

Section BanditTheorems.





(** The specified rule and the code agree whenever [best_perf] is not zero. *)
Lemma lrt_reward_nonzero_best (cur_perf best_perf : Q) (n_calls : Z) (threshold : Q) :
  1 ≤ n_calls → ¬ (best_perf == 0)%Q →
  TwoActionLRT.reward cur_perf best_perf n_calls threshold
    = Return (TwoActionLRT.reward_as_specified cur_perf best_perf n_calls threshold).
Proof.
  intros Hn Hb. unfold TwoActionLRT.reward, TwoActionLRT.reward_as_specified.
  destruct (Z.eqb_spec n_calls 0) as [|_]; [lia|].
  destruct (Qeq_bool best_perf 0) eqn:E; [|done].
  by apply Qeq_bool_iff in E.
Qed.

(** C8. For each of the three bandits, [update] with no pending decision
    returns (it does not raise) and leaves the whole state, accumulators
    included, as it was. *)
Theorem update_without_select_is_noop :
  (∀ (s : TwoActionLRT.t) (reward : Q),
     TwoActionLRT._last_action s = None → TwoActionLRT.update s reward = Return s) ∧
  (∀ (s : TwoActionTS.t) (reward : float),
     TwoActionTS._last_action s = None → TwoActionTS.update s reward = Return s) ∧
  (∀ (s : ContextualTS.t) (reward : float),
     ContextualTS._last_context s = None ∨ ContextualTS._last_action s = None →
     ContextualTS.update s reward = Return s).
Proof.
  split; [|split].
  - intros s r H. unfold TwoActionLRT.update. by rewrite H.
  - intros s r H. unfold TwoActionTS.update. by rewrite H.
  - intros s r [H|H]; unfold ContextualTS.update; rewrite H; [done|].
    by destruct (ContextualTS._last_context s).
Qed.

Lemma update_without_select_is_noop_witness :
  (TwoActionLRT._last_action TwoActionLRT.init = None ∧
   TwoActionLRT.update TwoActionLRT.init 1 = Return TwoActionLRT.init) ∧
  (TwoActionTS._last_action (TwoActionTS.init (1 # 10)) = None ∧
   TwoActionTS.update (TwoActionTS.init (1 # 10)) (Finite 1)
     = Return (TwoActionTS.init (1 # 10))) ∧
  ((ContextualTS._last_context (ContextualTS.init (1 # 10)) = None ∨
    ContextualTS._last_action (ContextualTS.init (1 # 10)) = None) ∧
   ContextualTS.update (ContextualTS.init (1 # 10)) (Finite 1)
     = Return (ContextualTS.init (1 # 10))).
Proof.
  destruct update_without_select_is_noop as (Hlrt & Hts & Hcts).
  split; [|split].
  - split; [reflexivity|]. apply Hlrt. reflexivity.
  - split; [reflexivity|]. apply Hts. reflexivity.
  - split; [left; reflexivity|]. apply Hcts. left. reflexivity.
Defined.

(** [update] consumes the decision of [select]: a second [update] is the
    no-op again. *)
Lemma lrt_update_consumes (s s1 s2 : TwoActionLRT.t) (a : nat) (r r' : Q) :
  TwoActionLRT.select s = Return (s1, a) →
  TwoActionLRT.update s1 r = Return s2 →
  TwoActionLRT.update s2 r' = Return s2.
Proof.
  unfold TwoActionLRT.select, TwoActionLRT.update. intros Hs Hu.
  destruct (TwoActionLRT.success_rate s 0) as [r0| |]; [|done..]. simpl in Hs.
  destruct (TwoActionLRT.success_rate s 1) as [r1| |]; [|done..]. simpl in Hs.
  destruct (Qeq_bool _ 0); [done|]. destruct (Qle_bool _ 0); [done|].
  inversion Hs; subst; clear Hs. simpl in Hu.
  repeat case_match; simplify_eq; done.
Qed.

(** With the initial counters the likelihood ratio is 1, its logarithm is
    not positive, and the deterministic choice is action 0. *)
Example lrt_select_initial :
  snd <$> (match TwoActionLRT.select TwoActionLRT.init with
           | Return p => Some p | _ => None end) = Some 0%nat.
Proof. reflexivity. Qed.

End BanditTheorems.

(** ** Knob-set controller *)

Section KnobSetTheorems.
Import KnobSelection.

Lemma count_True_cons b mask :
  count_True (b :: mask) = (if b then 1 else 0) + count_True mask.
Proof.
  unfold count_True. destruct b.
  - rewrite filter_cons_True by done. simpl length. lia.
  - rewrite filter_cons_False by (simpl; tauto). lia.
Qed.

Lemma count_True_bounds mask : 0 ≤ count_True mask ≤ Z.of_nat (length mask).
Proof.
  induction mask as [|b mask IH]; [done|].
  rewrite count_True_cons. simpl length. destruct b; lia.
Qed.

Lemma count_True_all mask :
  count_True mask = Z.of_nat (length mask) ↔ forallb id mask = true.
Proof.
  induction mask as [|b mask IH]; [done|].
  rewrite count_True_cons. simpl. pose proof (count_True_bounds mask).
  destruct b; simpl.
  - rewrite <- IH. lia.
  - split; [lia | done].
Qed.

Lemma retained_length current : ∀ mask,
  length mask = length current →
  ∃ kept, retained current mask = Return kept ∧
          Z.of_nat (length kept) = count_True mask.
Proof.
  induction current as [|k current IH]; intros [|b mask] Hlen; try done.
  - by exists [].
  - simpl in Hlen. destruct (IH mask) as (kept & Hkept & Hcount); [lia|].
    simpl. rewrite Hkept. simpl. rewrite count_True_cons.
    destruct b; eexists; (split; [done|]); simpl length; lia.
Qed.

Lemma floor_three_halves n : Qfloor (inject_Z n * (3 # 2)) = (3 * n) `div` 2.
Proof. unfold Qfloor, Qmult, inject_Z. simpl. f_equal; lia. Qed.

(** C4. Under the default policy (no flag set, so knobs are added in
    dictionary order), with one mask bit per tuned knob and enough unused
    knobs left in the dictionary, the next knob list has
    [floor(current_size * 1.5)] knobs when every bit of the mask is True,
    and [count(mask == True) + 1] knobs otherwise. *)
Theorem default_policy_next_size
    (shuffle : nat → list string → list string) (current : list string)
    (full_knob_dict : Normalizer.knob_dict) (mask : list bool)
    (frozen_values : gmap string value) (bandit_choice : Z) :
  let used : gset string := list_to_set current ∪ dom frozen_values in
  let unused := filter (λ k, k ∉ used) (Normalizer.knob_names full_knob_dict) in
  let size :=
    if forallb id mask then (3 * Z.of_nat (length current)) `div` 2
    else count_True mask + 1 in
  length mask = length current →
  size - count_True mask ≤ Z.of_nat (length unused) →
  ∃ new_list updated,
    update_tuned_knobs shuffle current full_knob_dict mask frozen_values
      default_flags bandit_choice = Return (new_list, updated) ∧
    Z.of_nat (length new_list) = size.
Proof.
  intros used unused size Hlen Henough.
  destruct (retained_length current mask Hlen) as (kept & Hkept & Hcount).
  assert (Htarget : target_size default_flags bandit_choice current mask = size).
  { unfold target_size, size. simpl.
    destruct (forallb id mask) eqn:Hall.
    - apply count_True_all in Hall. rewrite bool_decide_eq_true_2 by done.
      apply floor_three_halves.
    - rewrite bool_decide_eq_false_2; [done|].
      intros H. apply count_True_all in H. congruence. }
  unfold update_tuned_knobs. rewrite Hkept, Htarget. simpl.
  fold used. fold unused. rewrite Hcount.
  case_bool_decide as Hneeded.
  - eexists _, _. split; [done|].
    rewrite length_app, length_take. lia.
  - eexists _, _. split; [done|].
    assert (count_True mask ≤ size); [|lia].
    unfold size. destruct (forallb id mask) eqn:Hall; [|lia].
    apply count_True_all in Hall. rewrite Hall, <- Hlen.
    apply Z.div_le_lower_bound; lia.
Qed.

(** Ten tuned knobs, all important: the next set has fifteen. *)
Lemma default_policy_next_size_witness :
  length (replicate 10 true) = length first_ten ∧
  ∃ new_list updated,
    update_tuned_knobs (λ _ ks, ks) first_ten twenty_knobs (replicate 10 true) ∅
      default_flags 0 = Return (new_list, updated) ∧
    Z.of_nat (length new_list) = 15.
Proof.
  split; [reflexivity|].
  apply (default_policy_next_size (λ _ ks, ks) first_ten twenty_knobs
           (replicate 10 true) ∅ 0); [reflexivity|].
  vm_compute. discriminate.
Defined.

(** Four important knobs out of ten: the next set has five. *)
Example default_policy_four_of_ten :
  let mask := [true; false; true; false; true; false; true; false; false; false] in
  update_tuned_knobs (λ _ ks, ks) first_ten twenty_knobs mask ∅ default_flags 0
    = Return (["a"; "c"; "e"; "g"; "k"]%string, true).
Proof. vm_compute. reflexivity. Qed.

(** C5: the code at the failing input. Both knobs of a two-knob dictionary
    are tuned and the second one is not important: the default policy keeps
    "a", finds no unused knob to add, and reports [updated = False] although
    the returned list is not the current one. *)
Theorem shrink_without_refill_reports_unchanged :
  let full_knob_dict :=
    [("a"%string, Normalizer.Integer 0 100 50); ("b"%string, Normalizer.Integer 0 100 50)] in
  update_tuned_knobs (λ _ ks, ks) ["a"; "b"]%string full_knob_dict [true; false] ∅
    default_flags 0 = Return (["a"%string], false) ∧
  ["a"%string] ≠ ["a"; "b"]%string.
Proof. split; [vm_compute; reflexivity | discriminate]. Qed.

(** The other direction holds on the deterministic branch: a list reported
    as changed does differ from the current one. *)
Lemma changed_flag_sound (shuffle : nat → list string → list string)
    (current : list string) (full_knob_dict : Normalizer.knob_dict) (mask : list bool)
    (frozen_values : gmap string value) (f : flags) (bandit_choice : Z)
    (new_list : list string) :
  is_random f = 0 → length mask = length current →
  update_tuned_knobs shuffle current full_knob_dict mask frozen_values f bandit_choice
    = Return (new_list, true) →
  new_list ≠ current.
Proof.
  intros Hrandom Hlen. unfold update_tuned_knobs.
  destruct (retained_length current mask Hlen) as (kept & -> & Hcount).
  rewrite Hrandom. cbn [bind truthy Z.eqb negb].
  case_bool_decide as Hneeded; intros [= <- Hflag] Heq.
  - apply bool_decide_eq_true in Hflag.
    destruct (take _ _) as [|x to_add] eqn:Htake; [done|].
    assert (Hx : x ∈ filter (λ k, k ∉ (list_to_set current ∪ dom frozen_values : gset string))
                        (Normalizer.knob_names full_knob_dict)).
    { eapply subseteq_take. rewrite Htake. by left. }
    apply list_elem_of_filter in Hx as [Hx _]. apply Hx.
    apply elem_of_union_l, elem_of_list_to_set. rewrite <- Heq.
    apply elem_of_app. right. by left.
  - apply bool_decide_eq_true in Hflag. rewrite Heq in Hcount. lia.
Qed.

(** The random policy, on the same input, keeps the flag the shrink set. *)
Example shrink_without_refill_random_policy :
  let full_knob_dict :=
    [("a"%string, Normalizer.Integer 0 100 50); ("b"%string, Normalizer.Integer 0 100 50)] in
  update_tuned_knobs (λ _ ks, ks) ["a"; "b"]%string full_knob_dict [true; false] ∅
    {| is_random := 1; is_incremental := 0; is_SE := 0; is_bandit := 0;
       is_TS := 0; is_LRT := 0; is_pure_incremental := 0 |} 0
    = Return (["a"%string], true).
Proof. vm_compute. reflexivity. Qed.

(** The incremental selector marks four knobs, then six, and stops at the
    number of features. *)
Example incremental_mask_schedule :
  let s0 := IncrementalSupportMask_init 7 2 4 in
  let '(s1, m1) := IncrementalSupportMask_call s0 in
  let '(s2, m2) := IncrementalSupportMask_call s1 in
  let '(s3, m3) := IncrementalSupportMask_call s2 in
  (count_True m1, count_True m2, count_True m3) = (4, 6, 7).
Proof. reflexivity. Qed.

End KnobSetTheorems.

(** ** Call budget *)

Section DecideCallsTheorems.
Import Tuner.

(** [decide_calls] aborts exactly when the four exclusive flags sum to more
    than two. *)
Lemma decide_calls_aborts_iff {X : Type} (x0 : option X)
    (updated_knobs_num len_knobs : Z) (f : flags) (remaining_iters : Z) :
  (decide_calls x0 updated_knobs_num len_knobs f remaining_iters = Raise (SystemExit 1)
     ↔ 2 < is_basic f + is_incremental f + is_SE f + is_bandit f) ∧
  (returns (decide_calls x0 updated_knobs_num len_knobs f remaining_iters)
     ↔ is_basic f + is_incremental f + is_SE f + is_bandit f ≤ 2).
Proof.
  unfold decide_calls.
  destruct x0;
    destruct (Z.ltb_spec 2 (is_basic f + is_incremental f + is_SE f + is_bandit f));
    (split; split; intros H');
    first [done | lia | by destruct H' | by eexists].
Qed.

(** With at most one of the exclusive flags set (flags are 0 or 1),
    [decide_calls] returns. *)
Lemma decide_calls_single_flag_returns {X : Type} (x0 : option X)
    (updated_knobs_num len_knobs : Z) (f : flags) (remaining_iters : Z) :
  Forall (λ flag, flag = 0 ∨ flag = 1) [is_basic f; is_incremental f; is_SE f; is_bandit f] →
  (exclusive_flags_set f ≤ 1)%nat →
  returns (decide_calls x0 updated_knobs_num len_knobs f remaining_iters).
Proof.
  intros Hflags Hone. apply decide_calls_aborts_iff.
  unfold exclusive_flags_set in Hone.
  destruct f as [b l se inc ban ts lrt sl pinc]; simpl in *.
  repeat (apply Forall_cons in Hflags as [? Hflags]).
  destruct_or!; subst; cbv in Hone; lia.
Qed.

(** C2: the code at the failing input. Two exclusive flags are set
    ([is_basic] and [is_SE]) and [decide_calls] returns a call budget on a
    cold start instead of aborting: the guard tests the sum of the flags
    against 2, not against 1. *)
Theorem decide_calls_accepts_two_flags :
  let f := {| is_basic := 1; is_low := 0; is_SE := 1; is_incremental := 0;
              is_bandit := 0; is_TS := 0; is_LRT := 0; is_super_low := 0;
              is_pure_incremental := 0 |} in
  exclusive_flags_set f = 2%nat ∧
  decide_calls (X := unit) None 0 5 f 100 = Return (10, 100).
Proof. split; reflexivity. Qed.

(** Three flags do abort. *)
Example decide_calls_rejects_three_flags :
  decide_calls (X := unit) None 0 5
    {| is_basic := 1; is_low := 0; is_SE := 1; is_incremental := 1;
       is_bandit := 0; is_TS := 0; is_LRT := 0; is_super_low := 0;
       is_pure_incremental := 0 |} 100 = Raise (SystemExit 1).
Proof. reflexivity. Qed.

End DecideCallsTheorems.

(** ** Budget sampler *)

Section BudgetSamplerTheorems.
Import MySQLDriver.

Lemma Qltb_lt x y : Qltb x y = true ↔ (x < y)%Q.
Proof.
  unfold Qltb. rewrite Qlt_alt. destruct (x ?= y)%Q; split; congruence.
Qed.

(** A view span is one statement unit. *)
Example view_span_is_one_unit :
  group_statements
    ["CREATE VIEW v AS select 1"; "select * from v"; "DROP VIEW v"; "select 2"]%string
    [] false
  = ["CREATE VIEW v AS select 1; select * from v; DROP VIEW v;"; "select 2;"]%string.
Proof. reflexivity. Qed.

Lemma draw_length {A : Type} (choices : nat → nat) (k : nat) : ∀ turn (population : list A),
  (k ≤ length population)%nat → length (draw choices turn k population) = k.
Proof.
  induction k as [|k IH]; intros turn population Hk; [done|]. simpl.
  assert (Hi : (choices turn `mod` length population < length population)%nat).
  { apply Nat.mod_upper_bound. lia. }
  destruct (lookup_lt_is_Some_2 population _ Hi) as [x Hx]. rewrite Hx. simpl.
  f_equal. apply IH. rewrite length_delete by eauto. lia.
Qed.

Lemma draw_submseteq {A : Type} (choices : nat → nat) (k : nat) : ∀ turn (population : list A),
  draw choices turn k population ⊆+ population.
Proof.
  induction k as [|k IH]; intros turn population; simpl.
  - apply submseteq_nil_l.
  - destruct (population !! _) as [x|] eqn:Hx; [|apply submseteq_nil_l].
    trans (x :: delete (choices turn `mod` length population)%nat population).
    + apply submseteq_skip, IH.
    + apply Permutation_submseteq. symmetry. by apply delete_Permutation.
Qed.

Lemma py_int_nonneg x : (0 <= x)%Q → py_int x = Qfloor x.
Proof.
  intros Hx. unfold py_int. destruct (Qltb x 0) eqn:E; [|done].
  apply Qltb_lt in E. lra.
Qed.

Lemma Qfloor_le_Z (x : Q) (n : Z) : (x <= inject_Z n)%Q → Qfloor x ≤ n.
Proof.
  intros H. rewrite Zle_Qle. eapply Qle_trans; [apply Qfloor_le | exact H].
Qed.

(** The float [RN (RN (n * pct) / 100)] the sample size is the integer part
    of: not negative, and at most [n] for a percentage below 100 and a
    script of at most [2^46] units. *)
Lemma sample_share_bounds (n : nat) (pct : Q) :
  (0 < pct)%Q → (pct < 100)%Q → Z.of_nat n ≤ 2 ^ 46 →
  (0 <= RN (RN (inject_Z (Z.of_nat n) * pct) / 100))%Q ∧
  (RN (RN (inject_Z (Z.of_nat n) * pct) / 100) <= inject_Z (Z.of_nat n))%Q.
Proof.
  intros Hp Hp' Hn.
  assert (H0 : (0 <= inject_Z (Z.of_nat n))%Q).
  { change 0%Q with (inject_Z 0). rewrite <- Zle_Qle. lia. }
  assert (Hprod0 : (0 <= inject_Z (Z.of_nat n) * pct)%Q).
  { apply Qmult_le_0_compat; lra. }
  assert (Hprod : (inject_Z (Z.of_nat n) * pct <= inject_Z (100 * Z.of_nat n))%Q).
  { rewrite inject_Z_mult. change (inject_Z 100) with 100%Q.
    pose proof (Qmult_le_0_compat (inject_Z (Z.of_nat n)) (100 - pct) H0 ltac:(lra)). lra. }
  assert (Ht0 : (0 <= RN (inject_Z (Z.of_nat n) * pct))%Q) by (by apply RN_nonneg).
  assert (Ht : (RN (inject_Z (Z.of_nat n) * pct) <= inject_Z (100 * Z.of_nat n))%Q).
  { rewrite <- (RN_Z (100 * Z.of_nat n)) by lia. by apply RN_mono. }
  rewrite inject_Z_mult in Ht. change (inject_Z 100) with 100%Q in Ht.
  split.
  - apply RN_nonneg. apply Qle_shift_div_l; [reflexivity|]. lra.
  - rewrite <- (RN_Z (Z.of_nat n)) at 2 by lia. apply RN_mono.
    apply Qle_shift_div_r; [reflexivity|]. lra.
Qed.

Lemma sample_count_floor (n : nat) (pct : Q) :
  (0 < pct)%Q →
  sample_count n pct
  = Z.max 1 (Qfloor (RN (RN (inject_Z (Z.of_nat n) * pct) / 100))).
Proof.
  intros Hp. unfold sample_count. rewrite py_int_nonneg; [done|].
  assert (0 <= inject_Z (Z.of_nat n))%Q.
  { change 0%Q with (inject_Z 0). rewrite <- Zle_Qle. lia. }
  apply RN_nonneg. apply Qle_shift_div_l; [reflexivity|].
  assert (0 <= RN (inject_Z (Z.of_nat n) * pct))%Q.
  { apply RN_nonneg. apply Qmult_le_0_compat; lra. }
  lra.
Qed.

(** The roundings count: of 7 units under the budget [300 / 7], the float
    42.857142857142854, the product rounds up to 300.0 and 3 units are
    sampled, where the exact share is just below 3. *)
Example sample_count_rounds_the_product :
  sample_count 7 (RN (300 # 7)) = 3 ∧
  Z.max 1 (Qfloor (inject_Z 7 * RN (300 # 7) / 100)) = 2.
Proof. split; vm_compute; reflexivity. Qed.

Lemma sample_count_bounds (n : nat) (pct : Q) :
  (1 ≤ n)%nat → (0 < pct)%Q → (pct < 100)%Q → Z.of_nat n ≤ 2 ^ 46 →
  1 ≤ sample_count n pct ≤ Z.of_nat n.
Proof.
  intros Hn Hp Hp' Hfit. rewrite sample_count_floor by done. split; [lia|].
  apply Z.max_lub; [lia|]. apply Qfloor_le_Z.
  by apply sample_share_bounds.
Qed.

Lemma random_sample_returns (choices : nat → nat) (queries : list string) (pct : Q) :
  queries ≠ [] → (0 < pct)%Q → (pct < 100)%Q → Z.of_nat (length queries) ≤ 2 ^ 46 →
  ∃ sampled,
    random_sample choices queries (sample_count (length queries) pct) = Return sampled ∧
    sampled = draw choices 0 (Z.to_nat (sample_count (length queries) pct)) queries ∧
    Z.of_nat (length sampled) = sample_count (length queries) pct ∧
    sampled ⊆+ queries.
Proof.
  intros Hq Hp Hp' Hfit.
  assert (Hn : (1 ≤ length queries)%nat) by (destruct queries; [done | simpl; lia]).
  pose proof (sample_count_bounds _ pct Hn Hp Hp' Hfit) as Hc.
  unfold random_sample. rewrite bool_decide_eq_false_2 by lia.
  eexists. split; [done|]. split; [done|]. split; [|apply draw_submseteq].
  rewrite draw_length by lia. lia.
Qed.

(** *** Uniform draws *)

Lemma draw_ext {A : Type} (f g : nat → nat) (k : nat) : ∀ turn (population : list A),
  (∀ t, (turn ≤ t)%nat → f t = g t) →
  draw f turn k population = draw g turn k population.
Proof.
  induction k as [|k IH]; intros turn population Hfg; [done|]. simpl.
  rewrite (Hfg turn) by lia. destruct (population !! _); [|done].
  f_equal. apply IH. intros t Ht. apply Hfg. lia.
Qed.

Lemma draw_shift {A : Type} (f : nat → nat) (k : nat) : ∀ turn (population : list A),
  draw f (S turn) k population = draw (λ t, f (S t)) turn k population.
Proof.
  induction k as [|k IH]; intros turn population; [done|]. simpl.
  destruct (population !! _); [|done]. f_equal. apply IH.
Qed.

Lemma draw_cons {A : Type} (c : nat) (cs : list nat) (k : nat) (population : list A) (x : A) :
  (c < length population)%nat → population !! c = Some x →
  draw (choices_of (c :: cs)) 0 (S k) population
  = x :: draw (choices_of cs) 0 k (delete c population).
Proof.
  intros Hc Hx. simpl. change (choices_of (c :: cs) 0) with c.
  rewrite Nat.mod_small by done. rewrite Hx. f_equal.
  rewrite draw_shift. apply draw_ext. intros t _. reflexivity.
Qed.

Lemma choice_vector_cons (n k c : nat) (cs : list nat) :
  choice_vector n (S k) (c :: cs) ↔ (c < n)%nat ∧ choice_vector (n - 1) k cs.
Proof.
  unfold choice_vector. split.
  - intros [Hlen Hcs]. simpl in Hlen. split; [|split; [lia|]].
    + pose proof (Hcs 0%nat c eq_refl). lia.
    + intros t c' Ht. pose proof (Hcs (S t) c' Ht). lia.
  - intros (Hc & Hlen & Hcs). split; [simpl; lia|].
    intros [|t] c' Ht; simpl in Ht.
    + simplify_eq. lia.
    + pose proof (Hcs t c' Ht). lia.
Qed.

(** Each arrangement of [k] distinct items comes from exactly one choice
    vector, and every choice vector gives an arrangement: with uniform
    choices every arrangement is equally likely. *)
Lemma draw_arrangement {A : Type} (k : nat) : ∀ (population : list A) (cs : list nat),
  NoDup population → choice_vector (length population) k cs →
  arrangement k population (draw (choices_of cs) 0 k population).
Proof.
  induction k as [|k IH]; intros population cs Hnd Hcs.
  - split; [done|]. split; [constructor | by intros x Hx; apply elem_of_nil in Hx].
  - destruct cs as [|c cs]; [by destruct Hcs|].
    apply choice_vector_cons in Hcs as [Hc Hcs].
    destruct (lookup_lt_is_Some_2 population c Hc) as [x Hx].
    rewrite (draw_cons c cs k population x Hc Hx).
    assert (Hnd' : NoDup (delete c population)).
    { eapply sublist_NoDup; [exact Hnd | apply sublist_delete]. }
    assert (Hlen' : length (delete c population) = (length population - 1)%nat).
    { rewrite length_delete by eauto. lia. }
    rewrite <- Hlen' in Hcs.
    destruct (IH (delete c population) cs Hnd' Hcs) as (Hl & Hn & Hsub).
    split; [simpl; lia|]. split.
    + constructor; [|done]. intros Hin. apply Hsub in Hin.
      pose proof (delete_Permutation population c x Hx) as Hperm.
      rewrite Hperm in Hnd. apply NoDup_cons in Hnd as [Hfresh _]. done.
    + intros y Hy. apply elem_of_cons in Hy as [->|Hy].
      * by eapply list_elem_of_lookup_2.
      * apply Hsub in Hy. eapply elem_of_sublist; [exact Hy | apply sublist_delete].
Qed.

Lemma draw_reaches {A : Type} (k : nat) : ∀ (population sample : list A),
  NoDup population → arrangement k population sample →
  ∃ cs, choice_vector (length population) k cs ∧
    draw (choices_of cs) 0 k population = sample ∧
    ∀ cs', choice_vector (length population) k cs' →
      draw (choices_of cs') 0 k population = sample → cs' = cs.
Proof.
  induction k as [|k IH]; intros population sample Hnd (Hlen & Hns & Hsub).
  - destruct sample; [|done]. exists []. split; [by split|]. split; [done|].
    intros cs' [Hl _] _. by destruct cs'.
  - destruct sample as [|x rest]; [done|].
    apply NoDup_cons in Hns as [Hx Hns].
    assert (Hin : x ∈ population) by (apply Hsub; left).
    apply list_elem_of_lookup in Hin as [c Hc].
    pose proof (lookup_lt_Some _ _ _ Hc) as Hclt.
    assert (Hnd' : NoDup (delete c population)).
    { eapply sublist_NoDup; [exact Hnd | apply sublist_delete]. }
    assert (Hlen' : length (delete c population) = (length population - 1)%nat).
    { rewrite length_delete by eauto. lia. }
    pose proof (delete_Permutation population c x Hc) as Hperm.
    assert (Harr : arrangement k (delete c population) rest).
    { split; [simpl in Hlen; lia|]. split; [done|].
      intros y Hy. assert (Hyp : y ∈ population) by (apply Hsub; by right).
      rewrite Hperm in Hyp. apply elem_of_cons in Hyp as [->|Hyp]; done. }
    destruct (IH (delete c population) rest Hnd' Harr) as (cs & Hcs & Hdraw & Huniq).
    exists (c :: cs). split; [|split].
    + apply choice_vector_cons. split; [done|]. by rewrite <- Hlen'.
    + by rewrite (draw_cons c cs k population x Hclt Hc), Hdraw.
    + intros cs' Hcs' Hdraw'. destruct cs' as [|c' cs']; [by destruct Hcs'|].
      apply choice_vector_cons in Hcs' as [Hc' Hcs'].
      destruct (lookup_lt_is_Some_2 population c' Hc') as [x' Hx'].
      rewrite (draw_cons c' cs' k population x' Hc' Hx') in Hdraw'.
      injection Hdraw' as -> Hrest.
      assert (c' = c) as -> by (eapply NoDup_lookup; [exact Hnd | exact Hx' | exact Hc]).
      f_equal. apply Huniq; [by rewrite Hlen' | done].
Qed.

Lemma draw_fmap {A B : Type} (f : A → B) (choices : nat → nat) (k : nat) :
  ∀ turn (population : list A),
  draw choices turn k (f <$> population) = f <$> draw choices turn k population.
Proof.
  induction k as [|k IH]; intros turn population; [done|]. simpl.
  rewrite length_fmap, list_lookup_fmap.
  destruct (population !! _) as [x|]; [|done]. simpl. f_equal.
  by rewrite <- IH, list_fmap_delete.
Qed.

Lemma units_at_positions (queries : list string) :
  queries = unit_at queries <$> seq 0 (length queries).
Proof.
  apply list_eq. intros i. rewrite list_lookup_fmap. unfold unit_at.
  destruct (queries !! i) as [q|] eqn:Hq.
  - rewrite (lookup_seq_lt 0 (length queries) i) by (by eapply lookup_lt_Some).
    simpl. by rewrite Hq.
  - apply lookup_ge_None in Hq. by rewrite lookup_seq_ge.
Qed.

Lemma draw_positions (choices : nat → nat) (k : nat) (queries : list string) :
  draw choices 0 k queries
  = unit_at queries <$> draw choices 0 k (seq 0 (length queries)).
Proof.
  rewrite <- draw_fmap. by rewrite <- units_at_positions.
Qed.

(** C7, as stated, fails: of three statement units under a budget of 50
    percent the code samples [int(1.5) = 1] unit, where
    [max(1, round(1.5))] is 2; and on a script without statement units
    nothing is sampled at all. *)
Lemma sampling_truncates_the_share :
  (∃ res,
     execute_olap {| budget_allocator := 50; olap := None |} steady_run three_statements
       = Return res ∧
     length (sampled_run res) = 1%nat ∧
     sample_count_as_specified (length (group_statements three_statements [] false)) 50
       = 2) ∧
  (∃ res,
     execute_olap {| budget_allocator := 50; olap := None |} steady_run [] = Return res ∧
     sampled_run res = [] ∧ full_run res = None).
Proof.
  split.
  - eexists. split; [vm_compute; reflexivity|]. split; reflexivity.
  - eexists. split; [reflexivity|]. split; reflexivity.
Qed.

(** C7 (amended). With at least one statement unit (and no more than
    [2^46]) and a budget percentage strictly between 0 and 100, the call
    returns, and the statements it executed while sampling are
    [max(1, int(N * pct / 100))] units, the product and the quotient being
    rounded as floats and the result truncated, drawn from the script
    without replacement by [random.sample]: the units at the positions
    drawn. The draw is uniform: each arrangement of that many distinct
    positions of the script is drawn for exactly one vector of the
    generator's equally likely choices, and every such vector draws an
    arrangement. *)
Theorem sampling_runs_truncated_share (self : driver) (r : run) (parts : list string) :
  let queries := group_statements parts [] false in
  let pct := clamp_percent (budget_allocator self) in
  let count := Z.max 1 (Qfloor (RN (RN (inject_Z (Z.of_nat (length queries)) * pct) / 100))) in
  queries ≠ [] → (0 < pct)%Q → (pct < 100)%Q → Z.of_nat (length queries) ≤ 2 ^ 46 →
  1 ≤ count ≤ Z.of_nat (length queries) ∧
  (∃ res, execute_olap self r parts = Return res ∧
     sampled_run res = draw (choices r) 0 (Z.to_nat count) queries ∧
     sampled_run res
       = unit_at queries <$> draw (choices r) 0 (Z.to_nat count) (seq 0 (length queries)) ∧
     Z.of_nat (length (sampled_run res)) = count ∧
     sampled_run res ⊆+ queries) ∧
  (∀ picked, arrangement (Z.to_nat count) (seq 0 (length queries)) picked →
     ∃ cs, choice_vector (length queries) (Z.to_nat count) cs ∧
       draw (choices_of cs) 0 (Z.to_nat count) (seq 0 (length queries)) = picked ∧
       draw (choices_of cs) 0 (Z.to_nat count) queries = unit_at queries <$> picked ∧
       ∀ cs', choice_vector (length queries) (Z.to_nat count) cs' →
         draw (choices_of cs') 0 (Z.to_nat count) (seq 0 (length queries)) = picked →
         cs' = cs) ∧
  (∀ cs, choice_vector (length queries) (Z.to_nat count) cs →
     arrangement (Z.to_nat count) (seq 0 (length queries))
       (draw (choices_of cs) 0 (Z.to_nat count) (seq 0 (length queries)))).
Proof.
  intros queries pct count Hq Hp Hp' Hfit.
  assert (Hn : (1 ≤ length queries)%nat) by (destruct queries; [done | simpl; lia]).
  pose proof (sample_count_bounds _ pct Hn Hp Hp' Hfit) as Hc.
  destruct (random_sample_returns (choices r) queries pct Hq Hp Hp' Hfit)
    as (sampled & Hs & Hdraw & Hlen & Hsub).
  rewrite sample_count_floor in Hc, Hdraw, Hlen by done. fold count in Hc, Hdraw, Hlen.
  split; [exact Hc|]. split; [|split].
  - unfold execute_olap. cbv zeta. fold queries. fold pct.
    destruct queries as [|q queries'] eqn:Eq; [done|].
    apply Qltb_lt in Hp as Hp1. apply Qltb_lt in Hp' as Hp2. rewrite Hp1, Hp2.
    cbn [andb]. rewrite Hs. cbn [bind].
    repeat case_match; eexists; (split; [done|]); cbn [sampled_run];
      (split; [done|]); (split; [by rewrite Hdraw, <- draw_positions|]); by split.
  - intros picked Harr.
    destruct (draw_reaches (Z.to_nat count) (seq 0 (length queries)) picked
                (NoDup_seq _ _) Harr) as (cs & Hcs & Hpick & Huniq).
    rewrite length_seq in Hcs, Huniq. exists cs. split; [exact Hcs|].
    split; [exact Hpick|]. split; [by rewrite draw_positions, Hpick | exact Huniq].
  - intros cs Hcs. apply draw_arrangement; [apply NoDup_seq | by rewrite length_seq].
Qed.

Lemma sampling_runs_truncated_share_witness :
  let queries := group_statements three_statements [] false in
  queries ≠ [] ∧
  (0 < clamp_percent 50)%Q ∧ (clamp_percent 50 < 100)%Q ∧
  Z.of_nat (length queries) ≤ 2 ^ 46 ∧
  let count :=
    Z.max 1 (Qfloor (RN (RN (inject_Z (Z.of_nat (length queries)) * clamp_percent 50)
                         / 100))) in
  1 ≤ count ≤ Z.of_nat (length queries) ∧
  (∃ res,
     execute_olap {| budget_allocator := 50; olap := None |} steady_run three_statements
       = Return res ∧
     sampled_run res = draw (choices steady_run) 0 (Z.to_nat count) queries ∧
     sampled_run res
       = unit_at queries
           <$> draw (choices steady_run) 0 (Z.to_nat count) (seq 0 (length queries)) ∧
     Z.of_nat (length (sampled_run res)) = count ∧
     sampled_run res ⊆+ queries) ∧
  (∀ picked, arrangement (Z.to_nat count) (seq 0 (length queries)) picked →
     ∃ cs, choice_vector (length queries) (Z.to_nat count) cs ∧
       draw (choices_of cs) 0 (Z.to_nat count) (seq 0 (length queries)) = picked ∧
       draw (choices_of cs) 0 (Z.to_nat count) queries = unit_at queries <$> picked ∧
       ∀ cs', choice_vector (length queries) (Z.to_nat count) cs' →
         draw (choices_of cs') 0 (Z.to_nat count) (seq 0 (length queries)) = picked →
         cs' = cs) ∧
  (∀ cs, choice_vector (length queries) (Z.to_nat count) cs →
     arrangement (Z.to_nat count) (seq 0 (length queries))
       (draw (choices_of cs) 0 (Z.to_nat count) (seq 0 (length queries)))).
Proof.
  intros queries.
  assert (H1 : queries ≠ []) by discriminate.
  assert (H2 : (0 < clamp_percent 50)%Q) by reflexivity.
  assert (H3 : (clamp_percent 50 < 100)%Q) by reflexivity.
  assert (H4 : Z.of_nat (length queries) ≤ 2 ^ 46) by (vm_compute; discriminate).
  split; [exact H1|]. split; [exact H2|]. split; [exact H3|]. split; [exact H4|].
  exact (sampling_runs_truncated_share {| budget_allocator := 50; olap := None |}
           steady_run three_statements H1 H2 H3 H4).
Defined.




(** The same case evaluated: the estimate is 100 * (50 / 40) = 125 seconds. *)
Example short_circuit_at_best_100 :
  match execute_olap driver_with_best_100 slow_run three_statements with
  | Return res => Some (Qred (returned res), full_run res)
  | _ => None
  end = Some (125%Q, None).
Proof. vm_compute. reflexivity. Qed.

(** A first run with no prior best executes in full and sets the baseline. *)
Example first_run_sets_baseline :
  match execute_olap {| budget_allocator := 50; olap := None |} steady_run three_statements with
  | Return res => Some (full_run res, best_total_time <$> olap (driver_after res))
  | _ => None
  end = Some (Some ["select 1;"; "select 2;"; "select 3;"]%string, Some (Some 3%Q)).
Proof. vm_compute. reflexivity. Qed.

End BudgetSamplerTheorems.

(** ** Feature-selection cycle *)

Section FeatureSelectionTheorems.
Import Tuner.

Lemma truthy_zero flag : flag = 0 → truthy flag = false.
Proof. by intros ->. Qed.

(** On the branches that do not assign it, [min_features_to_select] is
    unassigned once the mask has been computed. *)
Lemma select_features_unassigned (e : env) (X_all : list (list Q)) (y_all : list Q)
    (current_knobs : list string) (f : flags)
    (selector : option KnobSelection.IncrementalSupportMask)
    (b : option bandit) (n_calls : option Z) (l : locals) :
  is_TS f = 0 → is_LRT f = 0 → is_pure_incremental f = 0 →
  select_features e X_all y_all current_knobs f selector b n_calls = Return l →
  min_features_to_select l = None.
Proof.
  intros Hts Hlrt Hpi. unfold select_features.
  rewrite (truthy_zero _ Hts), (truthy_zero _ Hlrt), (truthy_zero _ Hpi).
  cbn [negb andb orb].
  intros H. repeat case_match; simplify_eq; try done.
  all: unfold bind in H; repeat case_match; simplify_eq; done.
Qed.

(** C10 (amended). When none of [is_TS], [is_LRT] and [is_pure_incremental]
    is set, [feature_selection_cycle] never returns: if the computation of
    the mask completes, the print of [min_features_to_select] raises the
    NameError of an unassigned local; if a call made while computing the
    mask raises first, that exception is the one that propagates. *)
Theorem unassigned_local_stops_cycle (e : env) (X_all : list (list Q)) (y_all : list Q)
    (current_knobs : list string) (full_knob_dict : Normalizer.knob_dict)
    (frozen_values : gmap string value) (f : flags)
    (selector : option KnobSelection.IncrementalSupportMask) (is_random : Z)
    (b : option bandit) (n_calls : option Z) :
  is_TS f = 0 → is_LRT f = 0 → is_pure_incremental f = 0 →
  let cycle :=
    feature_selection_cycle e X_all y_all current_knobs full_knob_dict frozen_values
      f selector is_random b n_calls in
  let features := select_features e X_all y_all current_knobs f selector b n_calls in
  ¬ returns cycle ∧
  (returns features → ∃ ex, cycle = Raise ex ∧ is_NameError ex) ∧
  (∀ ex, features = Raise ex → cycle = Raise ex).
Proof.
  intros Hts Hlrt Hpi cycle features.
  assert (Hcases : (∃ l, features = Return l ∧ cycle = Raise UnboundLocalError)
                   ∨ (∃ ex, features = Raise ex ∧ cycle = Raise ex)
                   ∨ (features = Diverge ∧ cycle = Diverge)).
  { unfold cycle, feature_selection_cycle. fold features.
    destruct features as [l|ex|] eqn:Hf.
    - left. exists l. split; [done|]. simpl.
      by rewrite (select_features_unassigned _ _ _ _ _ _ _ _ _ Hts Hlrt Hpi Hf).
    - right. left. by exists ex.
    - right. right. done. }
  destruct Hcases as [(l & Hf & Hc)|[(ex & Hf & Hc)|[Hf Hc]]]; rewrite Hc, Hf.
  - split; [by intros [? ?]|]. split; [|done]. intros _. by exists UnboundLocalError.
  - split; [by intros [? ?]|]. split; [by intros [? ?]|]. by intros ? [= ->].
  - split; [by intros [? ?]|]. split; [by intros [? ?]|]. done.
Qed.

(** Under the default policy, with collaborators that succeed, the cycle
    ends in the NameError. *)
Lemma unassigned_local_stops_cycle_witness :
  is_TS no_flags = 0 ∧ is_LRT no_flags = 0 ∧ is_pure_incremental no_flags = 0 ∧
  let cycle :=
    feature_selection_cycle obliging_env [[1; 0]; [0; 1]]%Q [5; 4]%Q ["a"; "b"]%string
      KnobSelection.twenty_knobs ∅ no_flags None 0 None (Some 2) in
  let features :=
    select_features obliging_env [[1; 0]; [0; 1]]%Q [5; 4]%Q ["a"; "b"]%string
      no_flags None None (Some 2) in
  ¬ returns cycle ∧
  (returns features → ∃ ex, cycle = Raise ex ∧ is_NameError ex) ∧
  (∀ ex, features = Raise ex → cycle = Raise ex).
Proof.
  split; [reflexivity|]. split; [reflexivity|]. split; [reflexivity|].
  apply (unassigned_local_stops_cycle obliging_env [[1; 0]; [0; 1]]%Q [5; 4]%Q
           ["a"; "b"]%string KnobSelection.twenty_knobs ∅ no_flags None 0 None (Some 2));
    reflexivity.
Defined.

Example default_policy_cycle_raises :
  feature_selection_cycle obliging_env [[1; 0]; [0; 1]]%Q [5; 4]%Q ["a"; "b"]%string
    KnobSelection.twenty_knobs ∅ no_flags None 0 None (Some 2)
  = Raise UnboundLocalError.
Proof. vm_compute. reflexivity. Qed.

(** C10, as stated, fails: with [is_incremental] and [is_SE] both set,
    main() builds no selector and [decide_calls] lets the run start;
    the incremental branch then calls [None], and the cycle ends in a
    TypeError, which is not a NameError. *)
Lemma cycle_can_raise_another_error :
  let f := {| is_basic := 0; is_low := 0; is_SE := 1; is_incremental := 1;
              is_bandit := 0; is_TS := 0; is_LRT := 0; is_super_low := 0;
              is_pure_incremental := 0 |} in
  is_TS f = 0 ∧ is_LRT f = 0 ∧ is_pure_incremental f = 0 ∧
  returns (decide_calls (X := unit) None 0 2 f 100) ∧
  feature_selection_cycle obliging_env [[1; 0]; [0; 1]]%Q [5; 4]%Q ["a"; "b"]%string
    KnobSelection.twenty_knobs ∅ f None 0 None (Some 2) = Raise TypeError ∧
  ¬ is_NameError TypeError.
Proof.
  simpl. repeat split; try reflexivity.
  - by eexists.
  - discriminate.
Qed.

End FeatureSelectionTheorems.

(** ** Normalizer: range, order and defaults *)

Section NormalizerRange.
Import Normalizer NormalizerContract.

Lemma scaled_finite (min_val max_val : Z) (x : Q) :
  - 2 ^ 1000 ≤ min_val → min_val ≤ max_val → max_val ≤ 2 ^ 1000 →
  (Qabs x <= 1048576)%Q →
  scaled min_val max_val (VFloat (Finite x))
  = Return (py_round (RN (RN (inject_Z min_val)
                           + RN (x * RN (inject_Z (max_val - min_val)))))).
Proof.
  intros Hmin Hr Hmax Hx. unfold scaled.
  rewrite (of_int_fits (max_val - min_val) 1001) by lia. cbn [bind].
  rewrite (of_int_fits min_val 1000) by lia. cbn [bind].
  assert (Hd : (Qabs (RN (inject_Z (max_val - min_val))) <= pow2 1001)%Q).
  { apply RN_bound; [done|]. rewrite Qabs_inject_Z, pow2_inject, <- Zle_Qle by done. lia. }
  assert (Hm : (Qabs (RN (inject_Z min_val)) <= pow2 1000)%Q).
  { apply RN_bound; [done|]. rewrite Qabs_inject_Z, pow2_inject, <- Zle_Qle by done. lia. }
  assert (Hp : (Qabs (x * RN (inject_Z (max_val - min_val))) <= pow2 1021)%Q).
  { rewrite Qabs_Qmult. replace 1021 with (20 + 1001) by done. rewrite pow2_plus.
    change (pow2 20) with 1048576%Q.
    pose proof (Qabs_nonneg x). pose proof (Qabs_nonneg (RN (inject_Z (max_val - min_val)))).
    pose proof (pow2_pos 1001).
    apply Qle_trans with (1048576 * Qabs (RN (inject_Z (max_val - min_val))))%Q.
    - apply Qmult_le_compat_r; done.
    - apply Qmult_le_l; [reflexivity | done]. }
  unfold fmul. rewrite (fl_fits _ 1021) by done.
  assert (Hp' : (Qabs (RN (x * RN (inject_Z (max_val - min_val)))) <= pow2 1021)%Q)
    by (by apply RN_bound).
  unfold fadd. rewrite (fl_fits _ 1022); [done | done |].
  eapply Qle_trans; [apply Qabs_triangle|].
  assert (E : (pow2 1022 == pow2 1021 + pow2 1021)%Q).
  { replace 1022 with (1021 + 1) by done. rewrite pow2_succ. ring. }
  assert (H1 : (pow2 1000 <= pow2 1021)%Q) by (by apply pow2_le).
  lra.
Qed.

(** Every float entry of the unit interval, and any other of magnitude up
    to [2^20], denormalizes into the range of its integer knob (with
    bounds of magnitude up to [2^1000]), and the result grows with the
    entry. *)
Theorem denormalize_knob_range_and_order (min_val max_val default_val : Z) (x y : Q) :
  - 2 ^ 1000 ≤ min_val → min_val ≤ max_val → max_val ≤ 2 ^ 1000 →
  (Qabs x <= 1048576)%Q → (Qabs y <= 1048576)%Q → (x <= y)%Q →
  ∃ a b,
    denormalize_knob (Integer min_val max_val default_val) (VFloat (Finite x))
      = Return (VInt a) ∧
    denormalize_knob (Integer min_val max_val default_val) (VFloat (Finite y))
      = Return (VInt b) ∧
    min_val ≤ a ∧ a ≤ b ∧ b ≤ max_val.
Proof.
  intros Hmin Hr Hmax Hx Hy Hxy. unfold denormalize_knob.
  rewrite !scaled_finite by done. cbn [bind].
  assert (Hd : (0 <= RN (inject_Z (max_val - min_val)))%Q).
  { apply RN_nonneg. change 0%Q with (inject_Z 0). rewrite <- Zle_Qle. lia. }
  assert (Hm : py_round (RN (RN (inject_Z min_val)
                             + RN (x * RN (inject_Z (max_val - min_val)))))
               ≤ py_round (RN (RN (inject_Z min_val)
                               + RN (y * RN (inject_Z (max_val - min_val)))))).
  { apply py_round_mono, RN_mono.
    assert (RN (x * RN (inject_Z (max_val - min_val)))
            <= RN (y * RN (inject_Z (max_val - min_val))))%Q; [|lra].
    apply RN_mono. by apply Qmult_le_compat_r. }
  eexists _, _. split; [reflexivity|]. split; [reflexivity|].
  pose proof (clamp_range min_val max_val
                (py_round (RN (RN (inject_Z min_val)
                               + RN (x * RN (inject_Z (max_val - min_val)))))) Hr) as H1.
  pose proof (clamp_range min_val max_val
                (py_round (RN (RN (inject_Z min_val)
                               + RN (y * RN (inject_Z (max_val - min_val)))))) Hr) as H2.
  pose proof (clamp_mono min_val max_val _ _ Hm) as H3.
  cbv zeta in H1, H2, H3. lia.
Qed.

Lemma denormalize_knob_range_and_order_witness :
  - 2 ^ 1000 ≤ 0 ∧ 0 ≤ 100 ∧ 100 ≤ 2 ^ 1000 ∧
  (Qabs (3 # 10) <= 1048576)%Q ∧ (Qabs (17 # 10) <= 1048576)%Q ∧ (3 # 10 <= 17 # 10)%Q ∧
  ∃ a b,
    denormalize_knob (Integer 0 100 50) (VFloat (Finite (3 # 10))) = Return (VInt a) ∧
    denormalize_knob (Integer 0 100 50) (VFloat (Finite (17 # 10))) = Return (VInt b) ∧
    0 ≤ a ∧ a ≤ b ∧ b ≤ 100.
Proof.
  assert (H1 : - 2 ^ 1000 ≤ 0) by (vm_compute; discriminate).
  assert (H2 : 0 ≤ 100) by lia.
  assert (H3 : 100 ≤ 2 ^ 1000) by (vm_compute; discriminate).
  assert (H4 : (Qabs (3 # 10) <= 1048576)%Q) by (vm_compute; discriminate).
  assert (H5 : (Qabs (17 # 10) <= 1048576)%Q) by (vm_compute; discriminate).
  assert (H6 : (3 # 10 <= 17 # 10)%Q) by (vm_compute; discriminate).
  split; [exact H1|]. split; [exact H2|]. split; [exact H3|].
  split; [exact H4|]. split; [exact H5|]. split; [exact H6|].
  exact (denormalize_knob_range_and_order 0 100 50 (3 # 10) (17 # 10) H1 H2 H3 H4 H5 H6).
Defined.

Lemma in_domain_denormalize_knob k x v :
  well_ranged k → denormalize_knob k x = Return v → in_domain k v.
Proof.
  destruct k as [mn mx d|mn mx d|ty mn mx d]; simpl; intros Hr Hv; [| |done].
  - destruct (scaled mn mx x) as [z| |]; [|done..]. cbn [bind] in Hv.
    injection Hv as <-. eexists. split; [reflexivity|].
    pose proof (clamp_range mn mx z Hr) as H. cbv zeta in H. exact H.
  - destruct (below_half x) as [low| |]; [|done..]. cbn [bind] in Hv.
    injection Hv as <-. destruct low; auto.
Qed.

Lemma denormalize_loop_lookup kd : ∀ vec acc out,
  NoDup (knob_names kd) →
  denormalize_loop kd vec acc = Return out →
  dom out = list_to_set (knob_names kd) ∪ dom acc ∧
  (∀ name, name ∉ knob_names kd → out !! name = acc !! name) ∧
  (∀ name k, (name, k) ∈ kd →
     ∃ x v, denormalize_knob k x = Return v ∧ out !! name = Some v).
Proof.
  induction kd as [|[name k] kd IH]; intros vec acc out Hnd Hout.
  - simpl in Hout. injection Hout as <-. split; [set_solver|]. split; [done|].
    intros ?? H. by apply elem_of_nil in H.
  - destruct vec as [|x vec]; [done|]. simpl in Hout.
    apply NoDup_cons in Hnd as [Hfresh Hnd].
    destruct (denormalize_knob k x) as [v| |] eqn:Hv; [|done..]. cbn [bind] in Hout.
    destruct (IH vec (<[name := v]> acc) out Hnd Hout) as (Hdom & Hother & Hin).
    split; [|split].
    + rewrite Hdom, dom_insert_L. set_solver.
    + intros n Hn. apply not_elem_of_cons in Hn as [Hne Hn].
      rewrite (Hother n Hn). by rewrite lookup_insert_ne.
    + intros n k' Hel. apply elem_of_cons in Hel as [Heq|Hel].
      * inversion Heq; subst n k'. exists x, v. split; [done|].
        rewrite (Hother name Hfresh). by rewrite lookup_insert_eq.
      * by apply Hin.
Qed.

Lemma denormalize_loop_scalable kd : ∀ vec acc,
  Forall2 (λ nk x, scalable nk.2 x) kd vec → returns (denormalize_loop kd vec acc).
Proof.
  induction kd as [|[name k] kd IH]; intros vec acc Hs.
  - by eexists.
  - apply Forall2_cons_inv_l in Hs as (x & vec' & Hx & Hs & ->). simpl.
    assert (Hk : returns (denormalize_knob k x)).
    { destruct k as [mn mx d|mn mx d|ty mn mx d]; simpl in Hx |- *; [| |done].
      - destruct Hx as (Hmin & Hr & Hmax & q & -> & Hq).
        rewrite scaled_finite by done. by eexists.
      - destruct x as [n|f|s]; [by eexists | by eexists | by destruct (Hx s)]. }
    destruct Hk as [v ->]. cbn [bind]. apply IH, Hs.
Qed.

(** Whatever the vector holds, a configuration that [denormalize] returns
    has exactly the knob names as keys, and each of its values lies in the
    domain of its knob: inside the range of an integer knob, one of the
    two states of a boolean knob. And [denormalize] does return when each
    entry can be scaled for its knob: a finite float of magnitude up to
    [2^20] for an integer knob with bounds up to [2^1000], any number for a
    boolean knob. *)
Theorem denormalize_in_domain (kd : knob_dict) (vec : list value) :
  NoDup (knob_names kd) → Forall (λ nk, well_ranged nk.2) kd →
  (∀ out, denormalize kd vec = Return out →
     dom out = list_to_set (knob_names kd) ∧
     ∀ name k, (name, k) ∈ kd → ∃ v, out !! name = Some v ∧ in_domain k v) ∧
  (Forall2 (λ nk x, scalable nk.2 x) kd vec → returns (denormalize kd vec)).
Proof.
  intros Hnd Hr. split.
  - intros out Hout. unfold denormalize in Hout. case_decide; [done|].
    destruct (denormalize_loop_lookup kd vec ∅ out Hnd Hout) as (Hdom & _ & Hin).
    split; [rewrite Hdom; set_solver|].
    intros name k Hel. destruct (Hin name k Hel) as (x & v & Hv & Hlook).
    exists v. split; [done|].
    rewrite Forall_forall in Hr.
    by apply (in_domain_denormalize_knob k x v (Hr (name, k) Hel)).
  - intros Hs. unfold denormalize.
    pose proof (Forall2_length _ _ _ Hs) as Hlen.
    destruct (decide (length vec ≠ length kd)); [lia|].
    by apply denormalize_loop_scalable.
Qed.

Lemma denormalize_in_domain_witness :
  let vec := [VFloat (literal (17 # 10)); VFloat NaN] in
  let out : gmap string value := {[ "A"%string := VInt 100; "B"%string := VStr "ON" ]} in
  NoDup (knob_names scenario_knobs) ∧
  Forall (λ nk, well_ranged nk.2) scenario_knobs ∧
  Forall2 (λ nk x, scalable nk.2 x) scenario_knobs vec ∧
  denormalize scenario_knobs vec = Return out ∧
  (∀ out, denormalize scenario_knobs vec = Return out →
     dom out = list_to_set (knob_names scenario_knobs) ∧
     ∀ name k, (name, k) ∈ scenario_knobs → ∃ v, out !! name = Some v ∧ in_domain k v) ∧
  (Forall2 (λ nk x, scalable nk.2 x) scenario_knobs vec
     → returns (denormalize scenario_knobs vec)).
Proof.
  intros vec out.
  assert (Hnd : NoDup (knob_names scenario_knobs)).
  { refine (bool_decide_unpack _ _). vm_compute. exact I. }
  assert (Hr : Forall (λ nk, well_ranged nk.2) scenario_knobs).
  { constructor; [simpl; lia|]. constructor; [exact I|]. constructor. }
  assert (Hs : Forall2 (λ nk x, scalable nk.2 x) scenario_knobs vec).
  { constructor; [|constructor; [|constructor]]; simpl.
    - split; [vm_compute; discriminate|]. split; [lia|].
      split; [vm_compute; discriminate|].
      eexists. split; [reflexivity|]. vm_compute. discriminate.
    - intros s. discriminate. }
  assert (Hout : denormalize scenario_knobs vec = Return out) by (vm_compute; reflexivity).
  split; [exact Hnd|]. split; [exact Hr|]. split; [exact Hs|]. split; [exact Hout|].
  exact (denormalize_in_domain scenario_knobs vec Hnd Hr).
Defined.

(** On the legal value domain every entry of the normalized vector is a
    finite float of the unit interval. *)
Theorem normalize_unit_interval (kd : knob_dict) (config : gmap string value) :
  legal_config kd config →
  ∃ vec, normalize kd config = Return vec ∧
    Forall (λ e, ∃ x, e = VFloat (Finite x) ∧ (0 <= x)%Q ∧ (x <= 1)%Q) vec.
Proof.
  induction 1 as [|[name k] kd (v & Hv & Hl) _ (vec & Hvec & Hunit)]; [by exists []|].
  simpl in *. rewrite Hv, Hvec.
  destruct k as [mn mx d|mn mx d|ty mn mx d]; simpl in *; [| |done].
  - destruct Hl as (Hlt & z & -> & Hz).
    destruct (decide (mx = mn)); [lia|].
    destruct (unit_share_in_range mn mx z Hlt Hz) as (-> & H0 & H1). cbn [bind].
    eexists. split; [done|]. constructor; [|done]. by eexists.
  - destruct (py_eq v mn).
    + eexists. split; [done|]. constructor; [|done].
      exists 0%Q. split; [done|]. split; discriminate.
    + destruct Hl as [|Hl]; [done|]. rewrite Hl.
      eexists. split; [done|]. constructor; [|done].
      exists 1%Q. split; [done|]. split; discriminate.
Qed.

Lemma normalize_unit_interval_witness :
  legal_config scenario_knobs scenario_config ∧
  ∃ vec, normalize scenario_knobs scenario_config = Return vec ∧
         Forall (λ e, ∃ x, e = VFloat (Finite x) ∧ (0 <= x)%Q ∧ (x <= 1)%Q) vec.
Proof.
  assert (Hlegal : legal_config scenario_knobs scenario_config).
  { constructor; [|constructor; [|constructor]]; simpl.
    - exists (VInt 80). split; [reflexivity|]. split; [lia|].
      exists 80. split; [reflexivity | lia].
    - exists (VStr "OFF"). split; [reflexivity|]. left. reflexivity. }
  split; [exact Hlegal|]. exact (normalize_unit_interval _ _ Hlegal).
Defined.

Lemma default_config_lookup (kd : knob_dict) name k :
  NoDup (knob_names kd) → (name, k) ∈ kd →
  (list_to_map (prod_map id default_value <$> kd) : gmap string value) !! name
    = Some (default_value k).
Proof.
  intros Hnd Hel. apply elem_of_list_to_map_1.
  - rewrite <- list_fmap_compose.
    unfold knob_names in Hnd. erewrite list_fmap_ext; [exact Hnd|]. by intros ? [] ?.
  - apply list_elem_of_fmap. by exists (name, k).
Qed.

(** For a knob dictionary that keeps the invariant of the data model
    (distinct names, min < max around the default, a boolean default that is
    one of the two states) and whose integer ranges are within [2^50] of
    zero and of themselves, the default vector exists and denormalizes back
    to the defaults: exactly for integer knobs, to an equal state for
    boolean knobs. *)
Theorem default_vector_roundtrip (kd : knob_dict) :
  NoDup (knob_names kd) → Forall (λ nk, well_formed nk.2) kd →
  Forall (λ nk, moderate nk.2) kd →
  ∃ vec out,
    get_default_normalized_values kd = Return vec ∧
    denormalize kd vec = Return out ∧
    ∀ name k, (name, k) ∈ kd →
      match k with
      | Integer _ _ default_val => out !! name = Some (VInt default_val)
      | _ => ∃ w, out !! name = Some w ∧ py_eq (default_value k) w = true
      end.
Proof.
  intros Hnd Hwf Hmod. unfold get_default_normalized_values.
  set (config := list_to_map (prod_map id default_value <$> kd) : gmap string value).
  assert (Hlegal : legal_config kd config).
  { unfold legal_config. rewrite Forall_forall in *. intros [name k] Hel.
    exists (default_value k). split; [by apply default_config_lookup|].
    specialize (Hwf _ Hel). destruct k; simpl in *; try done.
    destruct Hwf as [? ?]. split; [done|]. by eexists. }
  destruct (denormalize_loop_spec config kd ∅ Hnd Hlegal Hmod)
    as (vec & out & Hvec & Hout & _ & Hin).
  exists vec, out. split; [done|]. split.
  { unfold denormalize. rewrite (normalize_length _ _ _ Hvec).
    by destruct (decide (length kd ≠ length kd)). }
  intros name k Hel.
  destruct (Hin name k Hel) as (given & w & Hg & Hw & Hrt).
  pose proof (default_config_lookup kd name k Hnd Hel) as Hd. fold config in Hd.
  rewrite Hd in Hg. injection Hg as <-.
  destruct k as [mn mx d|mn mx d|ty mn mx d]; simpl in *.
  - by rewrite Hw, Hrt.
  - by exists w.
  - by exists w.
Qed.

Lemma default_vector_roundtrip_witness :
  NoDup (knob_names scenario_knobs) ∧
  Forall (λ nk, well_formed nk.2) scenario_knobs ∧
  Forall (λ nk, moderate nk.2) scenario_knobs ∧
  ∃ vec out,
    get_default_normalized_values scenario_knobs = Return vec ∧
    denormalize scenario_knobs vec = Return out ∧
    ∀ name k, (name, k) ∈ scenario_knobs →
      match k with
      | Integer _ _ default_val => out !! name = Some (VInt default_val)
      | _ => ∃ w, out !! name = Some w ∧ py_eq (default_value k) w = true
      end.
Proof.
  assert (Hnd : NoDup (knob_names scenario_knobs)).
  { refine (bool_decide_unpack _ _). vm_compute. exact I. }
  assert (Hwf : Forall (λ nk, well_formed nk.2) scenario_knobs).
  { constructor; [simpl; lia|]. constructor; [by left|]. constructor. }
  assert (Hmod : Forall (λ nk, moderate nk.2) scenario_knobs).
  { constructor; [simpl; lia|]. constructor; [exact I|]. constructor. }
  split; [exact Hnd|]. split; [exact Hwf|]. split; [exact Hmod|].
  exact (default_vector_roundtrip scenario_knobs Hnd Hwf Hmod).
Defined.

(** [normalize] reads the configuration at the knob names only: keys
    outside the Normalizer's knobs are ignored. *)
Theorem normalize_reads_own_knobs (kd : knob_dict) (config config' : gmap string value) :
  (∀ name, name ∈ knob_names kd → config !! name = config' !! name) →
  normalize kd config = normalize kd config'.
Proof.
  induction kd as [|[name k] kd IH]; intros Hagree; [done|]. simpl.
  rewrite <- (Hagree name) by (simpl; left).
  rewrite IH; [done|]. intros n Hn. apply Hagree. simpl. by right.
Qed.

Lemma normalize_reads_own_knobs_witness :
  (∀ name, name ∈ knob_names scenario_knobs →
     scenario_config !! name = (<["C"%string := VInt 7]> scenario_config) !! name) ∧
  normalize scenario_knobs scenario_config
    = normalize scenario_knobs (<["C"%string := VInt 7]> scenario_config).
Proof.
  assert (H : ∀ name, name ∈ knob_names scenario_knobs →
     scenario_config !! name = (<["C"%string := VInt 7]> scenario_config) !! name).
  { intros name Hn. rewrite lookup_insert_ne; [done|].
    intros <-. revert Hn. refine (bool_decide_unpack (_ ∉ _) _). vm_compute. exact I. }
  split; [exact H|]. exact (normalize_reads_own_knobs _ _ _ H).
Defined.

End NormalizerRange.

(** ** Knob-set controller: schedule, errors, size and content *)

Section KnobSetInvariants.
Import KnobSelection KnobSchedule.

Lemma count_True_prefix_mask (c : Z) (len : nat) : ∀ start : Z,
  count_True ((λ i, bool_decide (i < c)) <$> seqZ start (Z.of_nat len))
    = Z.max 0 (Z.min (c - start) (Z.of_nat len)).
Proof.
  induction len as [|len IH]; intros start.
  - rewrite seqZ_nil by lia. unfold count_True. simpl. lia.
  - rewrite seqZ_cons by lia. rewrite fmap_cons, count_True_cons.
    replace (Z.pred (Z.of_nat (S len))) with (Z.of_nat len) by lia.
    rewrite IH. case_bool_decide; lia.
Qed.

Lemma after_calls_selected (n st ini : Z) (k : nat) :
  0 ≤ st →
  selected (after_calls (S k) (IncrementalSupportMask_init n st ini))
    = Z.min (ini + Z.of_nat k * st) n ∧
  n_features (after_calls k (IncrementalSupportMask_init n st ini)) = n ∧
  step (after_calls k (IncrementalSupportMask_init n st ini)) = st.
Proof.
  intros Hstep. induction k as [|k (IHs & IHn & IHst)].
  - simpl. split; [f_equal; lia | done].
  - split; [|split].
    + change (after_calls (S (S k)) ?s) with
        ((IncrementalSupportMask_call (after_calls (S k) s)).1).
      unfold IncrementalSupportMask_call at 1. cbn [fst selected].
      rewrite IHs.
      change (after_calls (S k) ?s) with ((IncrementalSupportMask_call (after_calls k s)).1).
      unfold IncrementalSupportMask_call. cbn [fst step n_features].
      rewrite IHn, IHst. nia.
    + change (after_calls (S k) ?s) with ((IncrementalSupportMask_call (after_calls k s)).1).
      unfold IncrementalSupportMask_call. cbn [fst n_features]. done.
    + change (after_calls (S k) ?s) with ((IncrementalSupportMask_call (after_calls k s)).1).
      unfold IncrementalSupportMask_call. cbn [fst step]. done.
Qed.

(** The incremental schedule: with a non-negative step, the call number
    [k + 1] of a fresh selector returns one bit per feature, the bits of the
    first [min(initial + k * step, n_features)] features being True and
    the others False. *)
Theorem incremental_mask_schedule_law (n st ini : Z) (k : nat) :
  0 ≤ st → 0 ≤ n →
  let marked := Z.min (ini + Z.of_nat k * st) n in
  let mask :=
    (IncrementalSupportMask_call
       (after_calls k (IncrementalSupportMask_init n st ini))).2 in
  length mask = Z.to_nat n ∧
  count_True mask = Z.max 0 marked ∧
  ∀ i b, mask !! i = Some b → b = bool_decide (Z.of_nat i < marked).
Proof.
  intros Hstep Hn marked mask.
  destruct (after_calls_selected n st ini k Hstep) as (Hsel & Hnf & Hst).
  assert (Hmask : mask = (λ i, bool_decide (i < marked)) <$> seqZ 0 n).
  { unfold mask, IncrementalSupportMask_call. cbn [snd]. rewrite Hnf. f_equal.
    change (after_calls (S k) ?s) with ((IncrementalSupportMask_call (after_calls k s)).1) in Hsel.
    unfold IncrementalSupportMask_call in Hsel. cbn [fst selected] in Hsel.
    rewrite Hnf in Hsel. by rewrite Hsel. }
  rewrite Hmask. split; [|split].
  - by rewrite length_fmap, length_seqZ.
  - rewrite <- (Z2Nat.id n) at 1 by done.
    rewrite count_True_prefix_mask. lia.
  - intros i b Hi. rewrite list_lookup_fmap in Hi.
    destruct (seqZ 0 n !! i) as [j|] eqn:Hj; [|done].
    apply lookup_seqZ in Hj as [-> _]. simpl in Hi. injection Hi as <-.
    repeat case_bool_decide; lia.
Qed.

Lemma incremental_mask_schedule_law_witness :
  0 ≤ 2 ∧ 0 ≤ 7 ∧
  let marked := Z.min (4 + Z.of_nat 1 * 2) 7 in
  let mask :=
    (IncrementalSupportMask_call
       (after_calls 1 (IncrementalSupportMask_init 7 2 4))).2 in
  length mask = Z.to_nat 7 ∧
  count_True mask = Z.max 0 marked ∧
  ∀ i b, mask !! i = Some b → b = bool_decide (Z.of_nat i < marked).
Proof.
  split; [lia|]. split; [lia|].
  apply (incremental_mask_schedule_law 7 2 4 1); lia.
Defined.

Lemma retained_short_mask current : ∀ mask,
  (length mask < length current)%nat → retained current mask = Raise IndexError.
Proof.
  induction current as [|k current IH]; intros [|b mask] Hlen; simpl in *; try lia; [done|].
  rewrite IH by lia. done.
Qed.

Lemma retained_long_mask current : ∀ mask,
  (length current ≤ length mask)%nat →
  ∃ kept, retained current mask = Return kept ∧
          kept `sublist_of` current ∧
          Z.of_nat (length kept) = count_True (take (length current) mask).
Proof.
  induction current as [|k current IH]; intros mask Hlen.
  - exists []. destruct mask; simpl; done.
  - destruct mask as [|b mask]; [simpl in Hlen; lia|]. simpl in Hlen.
    destruct (IH mask) as (kept & Hkept & Hsub & Hcount); [lia|].
    simpl. rewrite Hkept. simpl. rewrite count_True_cons.
    destruct b; eexists; (split; [done|]); split.
    + by apply sublist_skip.
    + simpl length. lia.
    + by apply sublist_cons.
    + lia.
Qed.

Lemma random_fill_never_raises (shuffle : nat → list string → list string)
    (keys : list string) (target : Z) (fuel : nat) :
  ∀ turn new_list used updated,
    ¬ raises (random_fill fuel shuffle turn keys target new_list used updated).
Proof.
  induction fuel as [|fuel IH]; intros turn new_list used updated [e He]; simpl in He;
    repeat case_match; try done.
  by eapply IH; eexists.
Qed.

(** The only exception [update_tuned_knobs] raises is the IndexError of a
    mask with fewer bits than there are tuned knobs, and it raises it under
    every policy. *)
Theorem update_tuned_knobs_raises_on_short_mask
    (shuffle : nat → list string → list string) (current : list string)
    (full_knob_dict : Normalizer.knob_dict) (mask : list bool)
    (frozen_values : gmap string value) (f : flags) (bandit_choice : Z) :
  let call :=
    update_tuned_knobs shuffle current full_knob_dict mask frozen_values f bandit_choice in
  ((length mask < length current)%nat → call = Raise IndexError) ∧
  ((length current ≤ length mask)%nat → ¬ raises call).
Proof.
  intros call. unfold call, update_tuned_knobs. split.
  - intros Hlen. by rewrite retained_short_mask.
  - intros Hlen. destruct (retained_long_mask current mask Hlen) as (kept & -> & _).
    cbn [bind]. destruct (truthy (is_random f)).
    + apply random_fill_never_raises.
    + case_bool_decide; intros [e He]; done.
Qed.

Lemma update_tuned_knobs_raises_on_short_mask_witness :
  let call :=
    update_tuned_knobs (λ _ ks, ks) first_ten twenty_knobs [true; false] ∅ default_flags 0 in
  ((length [true; false] < length first_ten)%nat → call = Raise IndexError) ∧
  ((length first_ten ≤ length [true; false])%nat → ¬ raises call).
Proof.
  exact (update_tuned_knobs_raises_on_short_mask (λ _ ks, ks) first_ten twenty_knobs
           [true; false] ∅ default_flags 0).
Defined.

(** The deterministic policies: the next list is the retained knobs (those
    of the current list whose bit is True, in their order) followed by the
    first unused dictionary keys, as many as are needed to reach the target
    size and are available. *)
Theorem deterministic_update_content
    (shuffle : nat → list string → list string) (current : list string)
    (full_knob_dict : Normalizer.knob_dict) (mask : list bool)
    (frozen_values : gmap string value) (f : flags) (bandit_choice : Z) :
  is_random f = 0 → (length current ≤ length mask)%nat →
  let unused := unused_keys current full_knob_dict frozen_values in
  let target := target_size f bandit_choice current mask in
  ∃ kept added updated,
    update_tuned_knobs shuffle current full_knob_dict mask frozen_values f bandit_choice
      = Return (kept ++ added, updated) ∧
    retained current mask = Return kept ∧
    kept `sublist_of` current ∧
    Z.of_nat (length kept) = count_True (take (length current) mask) ∧
    added = take (Z.to_nat (target - Z.of_nat (length kept))) unused ∧
    Z.of_nat (length added)
      = Z.max 0 (Z.min (target - Z.of_nat (length kept)) (Z.of_nat (length unused))).
Proof.
  intros Hrandom Hlen unused target.
  destruct (retained_long_mask current mask Hlen) as (kept & Hkept & Hsub & Hcount).
  exists kept, (take (Z.to_nat (target - Z.of_nat (length kept))) unused).
  unfold update_tuned_knobs. rewrite Hkept, Hrandom. cbn [bind truthy Z.eqb negb].
  fold target. case_bool_decide as Hneeded.
  - eexists. split; [done|]. repeat (split; [done|]). rewrite length_take. lia.
  - exists (bool_decide (count_True mask < Z.of_nat (length current))).
    replace (Z.to_nat (target - Z.of_nat (length kept))) with 0%nat by lia.
    rewrite take_0, app_nil_r. repeat (split; [done|]). simpl. lia.
Qed.

Lemma deterministic_update_content_witness :
  is_random default_flags = 0 ∧
  (length first_ten ≤ length (replicate 10 true))%nat ∧
  let unused := unused_keys first_ten twenty_knobs ∅ in
  let target := target_size default_flags 0 first_ten (replicate 10 true) in
  ∃ kept added updated,
    update_tuned_knobs (λ _ ks, ks) first_ten twenty_knobs (replicate 10 true) ∅
      default_flags 0 = Return (kept ++ added, updated) ∧
    retained first_ten (replicate 10 true) = Return kept ∧
    kept `sublist_of` first_ten ∧
    Z.of_nat (length kept) = count_True (take (length first_ten) (replicate 10 true)) ∧
    added = take (Z.to_nat (target - Z.of_nat (length kept))) unused ∧
    Z.of_nat (length added)
      = Z.max 0 (Z.min (target - Z.of_nat (length kept)) (Z.of_nat (length unused))).
Proof.
  split; [reflexivity|]. split; [reflexivity|].
  apply (deterministic_update_content (λ _ ks, ks) first_ten twenty_knobs
           (replicate 10 true) ∅ default_flags 0); reflexivity.
Defined.

Lemma deterministic_update_parts
    (shuffle : nat → list string → list string) (current : list string)
    (full_knob_dict : Normalizer.knob_dict) (mask : list bool)
    (frozen_values : gmap string value) (f : flags) (bandit_choice : Z) :
  is_random f = 0 → (length current ≤ length mask)%nat →
  ∃ kept n updated,
    update_tuned_knobs shuffle current full_knob_dict mask frozen_values f bandit_choice
      = Return (kept ++ take n (unused_keys current full_knob_dict frozen_values), updated) ∧
    kept `sublist_of` current.
Proof.
  intros Hrandom Hlen.
  destruct (retained_long_mask current mask Hlen) as (kept & Hkept & Hsub & _).
  unfold update_tuned_knobs. rewrite Hkept, Hrandom. cbn [bind truthy Z.eqb negb].
  case_bool_decide.
  - by eexists kept, _, _.
  - exists kept, 0%nat. eexists. by rewrite take_0, app_nil_r.
Qed.

(** The tuned set stays a set of distinct knobs: from a current list without
    duplicates and a dictionary with distinct keys, a deterministic update
    returns a list without duplicates, whose knobs are current knobs or
    dictionary keys that were neither tuned nor frozen. *)
Theorem deterministic_update_keeps_distinct
    (shuffle : nat → list string → list string) (current : list string)
    (full_knob_dict : Normalizer.knob_dict) (mask : list bool)
    (frozen_values : gmap string value) (f : flags) (bandit_choice : Z)
    (new_list : list string) (updated : bool) :
  is_random f = 0 →
  NoDup current → NoDup (Normalizer.knob_names full_knob_dict) →
  update_tuned_knobs shuffle current full_knob_dict mask frozen_values f bandit_choice
    = Return (new_list, updated) →
  NoDup new_list ∧
  ∀ k, k ∈ new_list →
    k ∈ current ∨
    (k ∈ Normalizer.knob_names full_knob_dict ∧ k ∉ current ∧ k ∉ dom frozen_values).
Proof.
  intros Hrandom Hnd Hkeys Hcall.
  destruct (decide (length current ≤ length mask)%nat) as [Hlen|Hlen].
  2:{ unfold update_tuned_knobs in Hcall. rewrite retained_short_mask in Hcall by lia. done. }
  destruct (deterministic_update_parts shuffle current full_knob_dict mask frozen_values
              f bandit_choice Hrandom Hlen) as (kept & n & u & Hret & Hsub).
  rewrite Hret in Hcall. injection Hcall as <- <-.
  assert (Hunused : ∀ k, k ∈ take n (unused_keys current full_knob_dict frozen_values) →
            k ∈ Normalizer.knob_names full_knob_dict ∧ k ∉ current ∧ k ∉ dom frozen_values).
  { intros k Hk. apply subseteq_take in Hk. apply list_elem_of_filter in Hk as [Hk ?].
    split; [done|]. unfold used_knobs in Hk. set_solver. }
  split.
  - apply NoDup_app. split; [exact (sublist_NoDup _ _ Hnd Hsub)|]. split.
    + intros k Hk Hk'. apply Hunused in Hk' as (_ & Hk' & _). apply Hk'.
      exact (elem_of_sublist _ _ _ Hk Hsub).
    + eapply sublist_NoDup; [|apply sublist_take]. by apply NoDup_filter.
  - intros k Hk. apply elem_of_app in Hk as [Hk|Hk].
    + left. exact (elem_of_sublist _ _ _ Hk Hsub).
    + right. by apply Hunused.
Qed.

Lemma deterministic_update_keeps_distinct_witness :
  let mask := [true; false; true; false; true; false; true; false; false; false] in
  is_random default_flags = 0 ∧
  NoDup first_ten ∧ NoDup (Normalizer.knob_names twenty_knobs) ∧
  update_tuned_knobs (λ _ ks, ks) first_ten twenty_knobs mask ∅ default_flags 0
    = Return (["a"; "c"; "e"; "g"; "k"]%string, true) ∧
  NoDup ["a"; "c"; "e"; "g"; "k"]%string ∧
  ∀ k, k ∈ ["a"; "c"; "e"; "g"; "k"]%string →
    k ∈ first_ten ∨
    (k ∈ Normalizer.knob_names twenty_knobs ∧ k ∉ first_ten ∧ k ∉ dom (∅ : gmap string value)).
Proof.
  intros mask.
  assert (H1 : NoDup first_ten).
  { refine (bool_decide_unpack _ _). vm_compute. exact I. }
  assert (H2 : NoDup (Normalizer.knob_names twenty_knobs)).
  { refine (bool_decide_unpack _ _). vm_compute. exact I. }
  assert (H3 : update_tuned_knobs (λ _ ks, ks) first_ten twenty_knobs mask ∅ default_flags 0
                 = Return (["a"; "c"; "e"; "g"; "k"]%string, true)).
  { vm_compute. reflexivity. }
  split; [reflexivity|]. split; [exact H1|]. split; [exact H2|]. split; [exact H3|].
  exact (deterministic_update_keeps_distinct (λ _ ks, ks) first_ten twenty_knobs mask ∅
           default_flags 0 _ _ eq_refl H1 H2 H3).
Defined.

Lemma unused_size (keys : list string) (used : gset string) :
  NoDup keys →
  size (list_to_set keys ∖ used : gset string) = length (filter (λ k, k ∉ used) keys).
Proof.
  intros Hnd. rewrite <- (size_list_to_set (C := gset string));
    [|by apply NoDup_filter].
  f_equal. apply set_eq. intros k.
  rewrite elem_of_difference, !elem_of_list_to_set, list_elem_of_filter. tauto.
Qed.

Lemma all_used_iff (keys : list string) (used : gset string) :
  NoDup keys → used ⊆ list_to_set keys →
  size used = length keys ↔ size (list_to_set keys ∖ used : gset string) = 0%nat.
Proof.
  intros Hnd Hsub.
  pose proof (size_list_to_set (C := gset string) keys Hnd) as HK.
  split; intros H.
  - assert (used ≡ list_to_set keys) as Hall.
    { apply set_subseteq_size_equiv; [done|]. lia. }
    apply size_empty_iff. set_solver.
  - apply size_empty_iff in H. rewrite <- HK. f_equal.
    apply leibniz_equiv, (anti_symm (⊆)); [done|]. intros k Hk.
    destruct (decide (k ∈ used)) as [|Hn]; [done|]. exfalso.
    apply (not_elem_of_empty (C := gset string) k). rewrite <- H.
    by apply elem_of_difference.
Qed.

Lemma random_fill_stops (keys new_list : list string) (used : gset string)
    (updated : bool) (target : Z) (n : nat) :
  target - Z.of_nat (length new_list) ≤ 0 ∨ n = 0%nat →
  ∃ added,
    Return (new_list, updated)
      = Return (new_list ++ added, updated || bool_decide (added ≠ [])) ∧
    NoDup added ∧
    (∀ k, k ∈ added → k ∈ keys ∧ k ∉ used) ∧
    Z.of_nat (length added)
      = Z.max 0 (Z.min (target - Z.of_nat (length new_list)) (Z.of_nat n)).
Proof.
  intros Hstop. exists []. rewrite app_nil_r, orb_false_r.
  split; [done|]. split; [constructor|]. split; [by intros ? ?%elem_of_nil|].
  simpl. lia.
Qed.

Lemma random_fill_returns (shuffle : nat → list string → list string)
    (keys : list string) (target : Z) :
  NoDup keys → (∀ turn, shuffle turn keys ≡ₚ keys) →
  ∀ fuel turn new_list (used : gset string) updated,
    used ⊆ list_to_set keys →
    (size (list_to_set keys ∖ used : gset string) ≤ fuel)%nat →
    ∃ added,
      random_fill fuel shuffle turn keys target new_list used updated
        = Return (new_list ++ added, updated || bool_decide (added ≠ [])) ∧
      NoDup added ∧
      (∀ k, k ∈ added → k ∈ keys ∧ k ∉ used) ∧
      Z.of_nat (length added)
        = Z.max 0 (Z.min (target - Z.of_nat (length new_list))
                         (Z.of_nat (size (list_to_set keys ∖ used : gset string)))).
Proof.
  intros Hnd Hperm. induction fuel as [|fuel IH]; intros turn new_list used updated Hsub Hfuel.
  - cbn [random_fill]. case_bool_decide as Hneed.
    + rewrite bool_decide_eq_true_2.
      * apply random_fill_stops. right. lia.
      * apply all_used_iff; [done..|]. lia.
    + apply random_fill_stops. left. lia.
  - cbn [random_fill]. case_bool_decide as Hneed; [|apply random_fill_stops; left; lia].
    case_bool_decide as Hfull.
    { apply random_fill_stops. right. by apply all_used_iff. }
    destruct (List.find (λ c, bool_decide (c ∉ used)) (shuffle turn keys)) as [c|] eqn:Hfind.
    + apply find_some in Hfind as [Hc Hcu].
      apply list_elem_of_In in Hc. rewrite (Hperm turn) in Hc.
      apply bool_decide_eq_true in Hcu.
      assert (HcU : c ∈ (list_to_set keys ∖ used : gset string)).
      { apply elem_of_difference. split; [by apply elem_of_list_to_set | done]. }
      assert (HS : size (list_to_set keys ∖ used : gset string)
                   = S (size (list_to_set keys ∖ ({[c]} ∪ used) : gset string))).
      { assert (Hsub' : {[c]} ∪ used ⊆ (list_to_set keys : gset string)).
        { apply union_subseteq. split; [|done].
          apply singleton_subseteq_l. by apply elem_of_list_to_set. }
        rewrite !size_difference by done.
        rewrite size_union by (apply disjoint_singleton_l; done).
        rewrite size_singleton.
        pose proof (subseteq_size _ _ Hsub'). rewrite size_union in H
          by (apply disjoint_singleton_l; done).
        rewrite size_singleton in H. lia. }
      destruct (IH (S turn) (new_list ++ [c]) ({[c]} ∪ used) true)
        as (added & Hret & Hnda & Hin & Hlen).
      { apply union_subseteq. split; [|done].
        apply singleton_subseteq_l. by apply elem_of_list_to_set. }
      { lia. }
      exists (c :: added). rewrite Hret, <- app_assoc. simpl.
      rewrite orb_true_r. split; [done|]. split; [|split].
      * constructor; [|done]. intros Hc'. apply Hin in Hc' as [_ Hc']. set_solver.
      * intros k Hk. apply elem_of_cons in Hk as [->|Hk]; [done|].
        apply Hin in Hk as [? Hk]. split; [done|]. set_solver.
      * rewrite length_app in Hlen. simpl in Hlen. simpl length. lia.
    + exfalso. apply Hfull. apply all_used_iff; [done..|].
      apply size_empty_iff. apply elem_of_equiv_empty. intros k Hk.
      apply elem_of_difference in Hk as [Hk Hku]. apply elem_of_list_to_set in Hk.
      rewrite <- (Hperm turn) in Hk. apply list_elem_of_In in Hk.
      pose proof (find_none _ _ Hfind k Hk) as Hk'. simpl in Hk'.
      by apply bool_decide_eq_false in Hk'.
Qed.

Lemma retained_all_true current : ∀ mask kept,
  retained current mask = Return kept →
  Z.of_nat (length kept) = Z.of_nat (length current) → kept = current.
Proof.
  induction current as [|k current IH]; intros [|b mask] kept Hret Hlen; simpl in *;
    try (by simplify_eq).
  destruct (retained current mask) as [rest| |] eqn:Hrest; try done. simpl in Hret.
  injection Hret as <-.
  destruct (retained_long_mask current mask) as (kept' & Hk & Hsub & _).
  { destruct (decide (length current ≤ length mask)%nat); [done|].
    rewrite retained_short_mask in Hrest by lia. done. }
  rewrite Hrest in Hk. injection Hk as <-.
  pose proof (sublist_length _ _ Hsub).
  destruct b; simpl in Hlen; [|lia].
  f_equal. apply (IH mask rest); [done | lia].
Qed.

Lemma random_update_parts
    (shuffle : nat → list string → list string) (current : list string)
    (full_knob_dict : Normalizer.knob_dict) (mask : list bool)
    (frozen_values : gmap string value) (f : flags) (bandit_choice : Z) :
  is_random f ≠ 0 → (length current ≤ length mask)%nat →
  NoDup (Normalizer.knob_names full_knob_dict) →
  used_knobs current frozen_values ⊆ list_to_set (Normalizer.knob_names full_knob_dict) →
  (∀ turn, shuffle turn (Normalizer.knob_names full_knob_dict)
             ≡ₚ Normalizer.knob_names full_knob_dict) →
  ∃ kept added,
    update_tuned_knobs shuffle current full_knob_dict mask frozen_values f bandit_choice
      = Return (kept ++ added,
                bool_decide (count_True mask < Z.of_nat (length current))
                || bool_decide (added ≠ [])) ∧
    retained current mask = Return kept ∧
    kept `sublist_of` current ∧
    Z.of_nat (length kept) = count_True (take (length current) mask) ∧
    NoDup added ∧
    (∀ k, k ∈ added →
       k ∈ Normalizer.knob_names full_knob_dict ∧ k ∉ current ∧ k ∉ dom frozen_values) ∧
    Z.of_nat (length added)
      = Z.max 0 (Z.min (target_size f bandit_choice current mask - Z.of_nat (length kept))
                       (Z.of_nat (length (unused_keys current full_knob_dict frozen_values)))).
Proof.
  intros Hrandom Hlen Hkeys Hused Hperm.
  destruct (retained_long_mask current mask Hlen) as (kept & Hkept & Hsub & Hcount).
  set (keys := Normalizer.knob_names full_knob_dict) in *.
  destruct (random_fill_returns shuffle keys (target_size f bandit_choice current mask)
              Hkeys Hperm (S (length keys)) 0%nat kept (used_knobs current frozen_values)
              (bool_decide (count_True mask < Z.of_nat (length current))) Hused)
    as (added & Hret & Hnd & Hin & Hadd).
  { rewrite size_difference by done.
    rewrite (size_list_to_set (C := gset string)) by done. lia. }
  exists kept, added. unfold update_tuned_knobs. rewrite Hkept. cbn [bind].
  assert (truthy (is_random f) = true) as ->.
  { unfold truthy. by destruct (Z.eqb_spec (is_random f) 0). }
  fold keys. unfold used_knobs in Hret. rewrite Hret.
  split; [done|]. split; [done|]. split; [done|]. split; [done|]. split; [done|]. split.
  - intros k Hk. apply Hin in Hk as [Hk Hu]. split; [done|].
    unfold used_knobs in Hu. split; intros ?; apply Hu.
    + apply elem_of_union_l. by apply elem_of_list_to_set.
    + by apply elem_of_union_r.
  - rewrite Hadd, unused_size by done. done.
Qed.

(** The random policy comes back: when every tuned or frozen knob is a key
    of the dictionary and each shuffle is a permutation of the keys, the
    loop ends, and it has added distinct unused keys, as many as are needed
    to reach the target size and are available. *)
Theorem random_update_terminates
    (shuffle : nat → list string → list string) (current : list string)
    (full_knob_dict : Normalizer.knob_dict) (mask : list bool)
    (frozen_values : gmap string value) (f : flags) (bandit_choice : Z) :
  is_random f ≠ 0 → (length current ≤ length mask)%nat →
  NoDup (Normalizer.knob_names full_knob_dict) →
  used_knobs current frozen_values ⊆ list_to_set (Normalizer.knob_names full_knob_dict) →
  (∀ turn, shuffle turn (Normalizer.knob_names full_knob_dict)
             ≡ₚ Normalizer.knob_names full_knob_dict) →
  ∃ kept added updated,
    update_tuned_knobs shuffle current full_knob_dict mask frozen_values f bandit_choice
      = Return (kept ++ added, updated) ∧
    retained current mask = Return kept ∧
    NoDup added ∧
    (∀ k, k ∈ added →
       k ∈ Normalizer.knob_names full_knob_dict ∧ k ∉ current ∧ k ∉ dom frozen_values) ∧
    Z.of_nat (length added)
      = Z.max 0 (Z.min (target_size f bandit_choice current mask - Z.of_nat (length kept))
                       (Z.of_nat (length (unused_keys current full_knob_dict frozen_values)))).
Proof.
  intros Hrandom Hlen Hkeys Hused Hperm.
  destruct (random_update_parts shuffle current full_knob_dict mask frozen_values f
              bandit_choice Hrandom Hlen Hkeys Hused Hperm)
    as (kept & added & Hret & Hkept & _ & _ & Hnd & Hin & Hadd).
  eexists kept, added, _. split; [exact Hret|]. done.
Qed.

Lemma random_update_terminates_witness :
  is_random random_flags ≠ 0 ∧
  (length first_ten ≤ length (replicate 10 true))%nat ∧
  NoDup (Normalizer.knob_names twenty_knobs) ∧
  used_knobs first_ten ∅ ⊆ list_to_set (Normalizer.knob_names twenty_knobs) ∧
  (∀ turn : nat, reverse (Normalizer.knob_names twenty_knobs)
                 ≡ₚ Normalizer.knob_names twenty_knobs) ∧
  ∃ kept added updated,
    update_tuned_knobs (λ _, reverse) first_ten twenty_knobs (replicate 10 true) ∅
      random_flags 0 = Return (kept ++ added, updated) ∧
    retained first_ten (replicate 10 true) = Return kept ∧
    NoDup added ∧
    (∀ k, k ∈ added →
       k ∈ Normalizer.knob_names twenty_knobs ∧ k ∉ first_ten
       ∧ k ∉ dom (∅ : gmap string value)) ∧
    Z.of_nat (length added)
      = Z.max 0 (Z.min (target_size random_flags 0 first_ten (replicate 10 true)
                        - Z.of_nat (length kept))
                       (Z.of_nat (length (unused_keys first_ten twenty_knobs ∅)))).
Proof.
  assert (H1 : is_random random_flags ≠ 0) by discriminate.
  assert (H2 : NoDup (Normalizer.knob_names twenty_knobs)).
  { refine (bool_decide_unpack _ _). vm_compute. exact I. }
  assert (H3 : used_knobs first_ten ∅ ⊆ list_to_set (Normalizer.knob_names twenty_knobs)).
  { refine (bool_decide_unpack _ _). vm_compute. exact I. }
  assert (H4 : ∀ turn : nat, reverse (Normalizer.knob_names twenty_knobs)
                             ≡ₚ Normalizer.knob_names twenty_knobs).
  { intros _. apply reverse_Permutation. }
  split; [exact H1|]. split; [reflexivity|]. split; [exact H2|]. split; [exact H3|].
  split; [exact H4|].
  exact (random_update_terminates (λ _, reverse) first_ten twenty_knobs (replicate 10 true) ∅
           random_flags 0 H1 (le_n _) H2 H3 H4).
Defined.

(** Under the random policy the changed flag is exact: with one mask bit
    per tuned knob, it is True exactly when the returned list is not the
    current one. *)
Theorem random_update_flag_exact
    (shuffle : nat → list string → list string) (current : list string)
    (full_knob_dict : Normalizer.knob_dict) (mask : list bool)
    (frozen_values : gmap string value) (f : flags) (bandit_choice : Z) :
  is_random f ≠ 0 → length mask = length current →
  NoDup (Normalizer.knob_names full_knob_dict) →
  used_knobs current frozen_values ⊆ list_to_set (Normalizer.knob_names full_knob_dict) →
  (∀ turn, shuffle turn (Normalizer.knob_names full_knob_dict)
             ≡ₚ Normalizer.knob_names full_knob_dict) →
  ∃ new_list updated,
    update_tuned_knobs shuffle current full_knob_dict mask frozen_values f bandit_choice
      = Return (new_list, updated) ∧
    (updated = true ↔ new_list ≠ current).
Proof.
  intros Hrandom Hlen Hkeys Hused Hperm.
  destruct (random_update_parts shuffle current full_knob_dict mask frozen_values f
              bandit_choice Hrandom ltac:(lia) Hkeys Hused Hperm)
    as (kept & added & Hret & Hkept & Hsub & Hcount & Hnd & Hin & Hadd).
  eexists (kept ++ added), _. split; [exact Hret|].
  rewrite <- Hlen, firstn_all in Hcount.
  pose proof (count_True_bounds mask) as Hb.
  pose proof (sublist_length _ _ Hsub) as Hk.
  rewrite orb_true_iff, !bool_decide_eq_true. split.
  - intros Hflag Heq.
    destruct added as [|a added].
    + rewrite app_nil_r in Heq. destruct Hflag as [Hflag|Hflag]; [|done].
      subst kept. lia.
    + destruct (Hin a) as (_ & Ha & _); [by left|]. apply Ha. rewrite <- Heq.
      apply elem_of_app. right. by left.
  - intros Hne. destruct added as [|a added]; [|by right]. left.
    destruct (decide (count_True mask < Z.of_nat (length current))) as [|Hge]; [done|].
    exfalso. apply Hne. rewrite app_nil_r.
    apply (retained_all_true current mask kept Hkept). lia.
Qed.

Lemma random_update_flag_exact_witness :
  is_random random_flags ≠ 0 ∧
  length [true; false] = length ["a"; "b"]%string ∧
  NoDup (Normalizer.knob_names twenty_knobs) ∧
  used_knobs ["a"; "b"]%string ∅ ⊆ list_to_set (Normalizer.knob_names twenty_knobs) ∧
  (∀ turn : nat, reverse (Normalizer.knob_names twenty_knobs)
                 ≡ₚ Normalizer.knob_names twenty_knobs) ∧
  ∃ new_list updated,
    update_tuned_knobs (λ _, reverse) ["a"; "b"]%string twenty_knobs [true; false] ∅
      random_flags 0 = Return (new_list, updated) ∧
    (updated = true ↔ new_list ≠ ["a"; "b"]%string).
Proof.
  assert (H1 : is_random random_flags ≠ 0) by discriminate.
  assert (H2 : NoDup (Normalizer.knob_names twenty_knobs)).
  { refine (bool_decide_unpack _ _). vm_compute. exact I. }
  assert (H3 : used_knobs ["a"; "b"]%string ∅
               ⊆ list_to_set (Normalizer.knob_names twenty_knobs)).
  { refine (bool_decide_unpack _ _). vm_compute. exact I. }
  assert (H4 : ∀ turn : nat, reverse (Normalizer.knob_names twenty_knobs)
                             ≡ₚ Normalizer.knob_names twenty_knobs).
  { intros _. apply reverse_Permutation. }
  split; [exact H1|]. split; [reflexivity|]. split; [exact H2|]. split; [exact H3|].
  split; [exact H4|].
  exact (random_update_flag_exact (λ _, reverse) ["a"; "b"]%string twenty_knobs [true; false] ∅
           random_flags 0 H1 eq_refl H2 H3 H4).
Defined.

End KnobSetInvariants.

(** ** Bandits: decisions and accumulators *)

Section BanditInvariants.
Import BanditState.

Lemma Qeq_bool_pos_false (x : Q) : (0 < x)%Q → Qeq_bool x 0 = false.
Proof.
  intros Hx. destruct (Qeq_bool x 0) eqn:E; [|done].
  apply Qeq_bool_iff in E. lra.
Qed.

Lemma Qle_bool_pos_false (x : Q) : (0 < x)%Q → Qle_bool x 0 = false.
Proof.
  intros Hx. destruct (Qle_bool x 0) eqn:E; [|done].
  apply Qle_bool_iff in E. lra.
Qed.

Lemma Qltb_iff_compat (x y x' y' : Q) :
  ((x < y)%Q ↔ (x' < y')%Q) → Qltb x y = Qltb x' y'.
Proof.
  intros H. destruct (Qltb x y) eqn:E1, (Qltb x' y') eqn:E2; try done.
  - apply Qltb_lt in E1. apply H, Qltb_lt in E1. congruence.
  - apply Qltb_lt in E2. apply H, Qltb_lt in E2. congruence.
Qed.

Lemma ratio_above_one (b c : Q) : (0 < c)%Q → (1 < b / c)%Q ↔ (c < b)%Q.
Proof.
  intros Hc. split.
  - intros H. apply Qnot_le_lt. intros Hle. apply (Qlt_not_le _ _ H).
    apply Qle_shift_div_r; [done|]. lra.
  - intros H. apply Qlt_shift_div_l; [done|]. lra.
Qed.

Lemma rate_order (s0 f0 s1 f1 e : Q) :
  (0 < s0)%Q → (0 < f0)%Q → (0 < s1)%Q → (0 < f1)%Q → (0 < e)%Q →
  (1 < (s1 / (s1 + f1) + e) / (s0 / (s0 + f0) + e))%Q ↔ (s0 * f1 < s1 * f0)%Q.
Proof.
  intros H0 H0' H1 H1' He.
  assert (Hr0 : (0 < s0 / (s0 + f0))%Q) by (apply Qlt_shift_div_l; lra).
  rewrite ratio_above_one by lra.
  set (r0 := (s0 / (s0 + f0))%Q) in *. set (r1 := (s1 / (s1 + f1))%Q).
  assert (E : ((r1 - r0) * ((s0 + f0) * (s1 + f1)) == s1 * f0 - s0 * f1)%Q).
  { unfold r0, r1. field. lra. }
  assert (Hp : (0 < (s0 + f0) * (s1 + f1))%Q) by nra.
  split; intros H.
  - assert (0 < (r1 - r0) * ((s0 + f0) * (s1 + f1)))%Q by nra. lra.
  - assert (0 < (r1 - r0) * ((s0 + f0) * (s1 + f1)))%Q by lra.
    assert (0 < r1 - r0)%Q; [|lra].
    apply Qnot_le_lt. intros Hle. nra.
Qed.

Lemma lrt_select_on_pairs (s0 s1 f0 f1 : Q) (last : option nat) :
  (0 < s0)%Q → (0 < s1)%Q → (0 < f0)%Q → (0 < f1)%Q →
  let action := if Qltb (s0 * f1) (s1 * f0) then 1%nat else 0%nat in
  TwoActionLRT.select
    {| TwoActionLRT.success := [s0; s1]; TwoActionLRT.failure := [f0; f1];
       TwoActionLRT._last_action := last |}
  = Return ({| TwoActionLRT.success := [s0; s1]; TwoActionLRT.failure := [f0; f1];
               TwoActionLRT._last_action := Some action |}, action).
Proof.
  intros H0 H1 H0' H1' action. unfold TwoActionLRT.select, TwoActionLRT.success_rate.
  cbn [TwoActionLRT.success TwoActionLRT.failure lookup list_lookup].
  rewrite !Qeq_bool_pos_false by lra. cbn [bind].
  assert (He : (0 < TwoActionLRT.eps)%Q) by reflexivity.
  assert (Hr0 : (0 < s0 / (s0 + f0))%Q) by (apply Qlt_shift_div_l; lra).
  assert (Hr1 : (0 < s1 / (s1 + f1))%Q) by (apply Qlt_shift_div_l; lra).
  rewrite Qeq_bool_pos_false by lra.
  rewrite Qle_bool_pos_false by (apply Qlt_shift_div_l; lra).
  cbn [TwoActionLRT.success TwoActionLRT.failure].
  rewrite (Qltb_iff_compat _ _ (s0 * f1) (s1 * f0)); [done|].
  by apply rate_order.
Qed.



Lemma positive_pair_insert (l : list Q) (a : nat) (x d : Q) :
  positive_pair l → l !! a = Some x → (0 <= d)%Q →
  positive_pair (<[a := (x + d)%Q]> l).
Proof.
  intros (p & q & -> & Hp & Hq) Ha Hd.
  destruct a as [|[|a]]; simpl in Ha; simplify_eq; simpl.
  - exists (x + d)%Q, q. split; [done|]. split; [lra | done].
  - exists p, (x + d)%Q. split; [done|]. split; [done | lra].
Qed.

(** One round of the likelihood-ratio bandit is safe: from a state with
    positive counters and a reward in [0, 1], [update] returns, the
    counters stay positive, and the [select] that follows returns one of
    the two actions and leaves it pending. *)
Theorem lrt_round_keeps_counters_positive (s : TwoActionLRT.t) (reward : Q) :
  lrt_ok s → (0 <= reward)%Q → (reward <= 1)%Q →
  ∃ s1 s2 action,
    TwoActionLRT.update s reward = Return s1 ∧
    TwoActionLRT._last_action s1 = None ∧
    TwoActionLRT.select s1 = Return (s2, action) ∧
    lrt_ok s2 ∧ (action < 2)%nat ∧ TwoActionLRT._last_action s2 = Some action.
Proof.
  intros (Hsucc & Hfail & Hlast) Hr0 Hr1.
  assert (∃ s1, TwoActionLRT.update s reward = Return s1 ∧
                TwoActionLRT._last_action s1 = None ∧
                positive_pair (TwoActionLRT.success s1) ∧
                positive_pair (TwoActionLRT.failure s1)) as (s1 & Hup & Hnone & Hs1 & Hf1).
  { unfold TwoActionLRT.update. destruct (TwoActionLRT._last_action s) as [a|] eqn:Ha.
    - simpl in Hlast.
      destruct (lookup_lt_is_Some_2 (TwoActionLRT.success s) a) as [x Hx].
      { destruct Hsucc as (? & ? & -> & _). simpl. lia. }
      destruct (lookup_lt_is_Some_2 (TwoActionLRT.failure s) a) as [y Hy].
      { destruct Hfail as (? & ? & -> & _). simpl. lia. }
      rewrite Hx, Hy. eexists. split; [done|]. simpl. split; [done|]. split.
      + by apply positive_pair_insert.
      + apply positive_pair_insert; [done..|lra].
    - exists s. by rewrite Ha. }
  destruct Hs1 as (p0 & p1 & Hp & Hp0 & Hp1). destruct Hf1 as (q0 & q1 & Hq & Hq0 & Hq1).
  destruct s1 as [succ fail last]. simpl in *. subst.
  eexists _, _, _. split; [exact Hup|]. split; [done|].
  split; [by apply lrt_select_on_pairs|].
  split; [|split; [|done]].
  - split; [by exists p0, p1|]. split; [by exists q0, q1|]. simpl.
    destruct (Qltb _ _); lia.
  - destruct (Qltb _ _); lia.
Qed.

Lemma lrt_round_keeps_counters_positive_witness :
  let s := {| TwoActionLRT.success := [1; 1]%Q; TwoActionLRT.failure := [1; 1]%Q;
              TwoActionLRT._last_action := Some 1%nat |} in
  lrt_ok s ∧ (0 <= 1)%Q ∧ (1 <= 1)%Q ∧
  TwoActionLRT.update s 1
    = Return {| TwoActionLRT.success := [1; 1 + 1]%Q;
                TwoActionLRT.failure := [1; 1 + (1 - 1)]%Q;
                TwoActionLRT._last_action := None |} ∧
  ∃ s1 s2 action,
    TwoActionLRT.update s 1 = Return s1 ∧
    TwoActionLRT._last_action s1 = None ∧
    TwoActionLRT.select s1 = Return (s2, action) ∧
    lrt_ok s2 ∧ (action < 2)%nat ∧ TwoActionLRT._last_action s2 = Some action.
Proof.
  intros s.
  assert (H : lrt_ok s).
  { split; [|split; [|simpl; lia]]; exists 1%Q, 1%Q; repeat split. }
  assert (H0 : (0 <= 1)%Q) by discriminate.
  assert (H1 : (1 <= 1)%Q) by discriminate.
  split; [exact H|]. split; [exact H0|]. split; [exact H1|]. split; [reflexivity|].
  exact (lrt_round_keeps_counters_positive s 1 H H0 H1).
Defined.

(** *** The sigmoid reward in binary64 *)

Lemma fl_not_nan (x : Q) : fl x ≠ NaN.
Proof. unfold fl. destruct (overflows x); [destruct (Qltb 0 x)|]; done. Qed.

Lemma fdiv_not_nan (a g : float) (y : Q) :
  a ≠ NaN → fdiv a (Finite y) = Return g → g ≠ NaN.
Proof.
  unfold fdiv. destruct (Qeq_bool y 0); [done|]. intros Ha Hg.
  destruct a; [| | |done]; injection Hg as <-; [apply fl_not_nan|..];
    by destruct (0 <? _).
Qed.

Lemma fsub_not_nan (a : float) (y : Q) : a ≠ NaN → fsub a (Finite y) ≠ NaN.
Proof. intros Ha. destruct a; simpl; [apply fl_not_nan|done..]. Qed.

Lemma Qltb_nonzero (x : Q) : ¬ (x == 0)%Q → Qltb 0 x = true ∨ Qltb x 0 = true.
Proof.
  intros Hx. destruct (Q_dec 0 x) as [[H|H]|H].
  - left. by apply Qltb_lt.
  - right. by apply Qltb_lt.
  - exfalso. apply Hx. by symmetry.
Qed.

Lemma Qltb_asym (x y : Q) : Qltb x y = true → Qltb y x = false.
Proof.
  intros H. apply Qltb_lt in H. destruct (Qltb y x) eqn:E; [|done].
  apply Qltb_lt in E. lra.
Qed.

Lemma fmul_not_nan (s : Q) (a : float) : ¬ (s == 0)%Q → a ≠ NaN → fmul (Finite s) a ≠ NaN.
Proof.
  intros Hs Ha. destruct a as [x| | |]; [apply fl_not_nan| | |done]; unfold fmul, fsgn;
    destruct (Qltb_nonzero s Hs) as [H|H]; rewrite ?H, ?(Qltb_asym _ _ H); done.
Qed.

Lemma one_plus_nonneg (e : float) : nonneg e → at_least_one (fadd (Finite 1) e).
Proof.
  destruct e as [q| | |]; simpl; [|done..]. intros Hq. unfold fl.
  destruct (overflows (1 + q)).
  - assert (H : Qltb 0 (1 + q) = true) by (apply Qltb_lt; lra). by rewrite H.
  - simpl. change 1%Q with (pow2 0) at 1. apply RN_ge_pow2; [done|].
    change (pow2 0) with 1%Q. lra.
Qed.

Lemma reciprocal_range (w r : float) :
  at_least_one w → fdiv (Finite 1) w = Return r →
  ∃ q, r = Finite q ∧ (0 <= q)%Q ∧ (q <= 1)%Q.
Proof.
  destruct w as [y| | |]; simpl; [| |done..].
  - intros Hy. assert (Hne : Qeq_bool y 0 = false).
    { apply Qeq_bool_false. intros E. lra. }
    rewrite Hne. intros [= <-].
    assert (Hq : (0 <= 1 / y)%Q ∧ (1 / y <= 1)%Q).
    { split; [apply Qle_shift_div_l | apply Qle_shift_div_r]; lra. }
    rewrite (fl_fits _ 0); [|done|].
    2:{ rewrite Qabs_pos by lra. change (pow2 0) with 1%Q. lra. }
    eexists. split; [done|]. split.
    + apply RN_nonneg. lra.
    + change 1%Q with (pow2 0) at 2. apply RN_le_pow2; [done | lra |].
      change (pow2 0) with 1%Q. lra.
  - intros _ [= <-]. exists 0%Q. split; [done|]. split; discriminate.
Qed.

Lemma sigmoid_reward_range (exp : float → outcome float) (cur_perf best_perf : Q)
    (n_calls : Z) (scale : Q) (r : float) :
  exp_range exp → ¬ (scale == 0)%Q →
  sigmoid_reward exp (Finite cur_perf) (Finite best_perf) n_calls (Finite scale) = Return r →
  ∃ q, r = Finite q ∧ (0 <= q)%Q ∧ (q <= 1)%Q.
Proof.
  intros Hexp Hscale. unfold sigmoid_reward.
  set (ratio := match fdiv (fsub (Finite cur_perf) (Finite best_perf)) (Finite best_perf) with
                | Raise ZeroDivisionError => Return (Finite 1)
                | o => o
                end).
  assert (Hratio : ∀ g, ratio = Return g → g ≠ NaN).
  { unfold ratio. intros g Hg.
    destruct (fdiv _ (Finite best_perf)) as [g'|e|] eqn:Hd.
    - injection Hg as <-. eapply fdiv_not_nan; [|exact Hd]. apply fl_not_nan.
    - destruct e; try done. by injection Hg as <-.
    - done. }
  destruct ratio as [improvement_ratio| |]; [|done..]. cbn [bind].
  specialize (Hratio _ eq_refl).
  unfold of_int. destruct (overflows (inject_Z n_calls)); [done|]. cbn [bind].
  destruct (fdiv improvement_ratio _) as [improvement_per_step| |] eqn:Hips; [|done..].
  cbn [bind]. pose proof (fdiv_not_nan _ _ _ Hratio Hips) as Hnn.
  destruct (exp _) as [e| |] eqn:He; [|done..]. cbn [bind].
  apply Hexp in He.
  2:{ change (fneg (Finite scale)) with (Finite (- scale)).
      apply fmul_not_nan; [intros E; apply Hscale; lra|]. by apply fsub_not_nan. }
  intros Hr. eapply reciprocal_range; [|exact Hr]. by apply one_plus_nonneg.
Qed.

Lemma at_least_one_add (x : float) (q : Q) :
  at_least_one x → (0 <= q)%Q → at_least_one (fadd x (Finite q)).
Proof.
  destruct x as [a| | |]; simpl; [|done..]. intros Ha Hq. unfold fl.
  destruct (overflows (a + q)).
  - assert (H : Qltb 0 (a + q) = true) by (apply Qltb_lt; lra). by rewrite H.
  - simpl. change 1%Q with (pow2 0) at 1. apply RN_ge_pow2; [done|].
    change (pow2 0) with 1%Q. lra.
Qed.

Lemma complement_range (q : Q) :
  (0 <= q)%Q → (q <= 1)%Q →
  ∃ q', fsub (Finite 1) (Finite q) = Finite q' ∧ (0 <= q')%Q.
Proof.
  intros H0 H1. unfold fsub, fneg, fadd.
  rewrite (fl_fits _ 0); [|done|].
  2:{ change (pow2 0) with 1%Q. apply Qabs_Qle_condition. split; lra. }
  eexists. split; [done|]. apply RN_nonneg. lra.
Qed.

Lemma grown_pair_insert (l : list float) (a : nat) (x : float) (q : Q) :
  grown_pair l → l !! a = Some x → (0 <= q)%Q →
  grown_pair (<[a := fadd x (Finite q)]> l).
Proof.
  intros (p & p' & -> & Hp & Hp') Ha Hq.
  destruct a as [|[|a]]; simpl in Ha; simplify_eq; simpl.
  - eexists _, _. split; [done|]. split; [by apply at_least_one_add | done].
  - eexists _, _. split; [done|]. split; [done | by apply at_least_one_add].
Qed.

(** One round of the two-action Thompson sampler is safe. [math.exp]
    returns a float that is not negative (0.0 when it underflows, [inf] on
    [inf]), so with finite performances and a scale that is not zero the
    sigmoid [reward], whenever it returns, is a finite float between 0.0
    and 1.0, both included; updating Beta parameters that are at least 1.0
    with it returns and keeps them at least 1.0, hence positive, and the
    [select] that follows leaves one of the two actions pending. *)
Theorem ts_round_keeps_posteriors_positive (exp : float → outcome float)
    (s : TwoActionTS.t) (d : draws) (cur_perf best_perf : Q) (n_calls : Z) (scale : Q)
    (r : float) :
  ts_ok s → exp_range exp → ¬ (scale == 0)%Q → (coin d < 2)%nat →
  TwoActionTS.reward exp (Finite cur_perf) (Finite best_perf) n_calls (Finite scale)
    = Return r →
  (∃ q, r = Finite q ∧ (0 <= q)%Q ∧ (q <= 1)%Q) ∧
  ∃ s1,
    TwoActionTS.update s r = Return s1 ∧
    TwoActionTS._last_action s1 = None ∧
    ts_ok (TwoActionTS.select s1 d).1 ∧
    ((TwoActionTS.select s1 d).2 < 2)%nat ∧
    TwoActionTS._last_action (TwoActionTS.select s1 d).1
      = Some (TwoActionTS.select s1 d).2.
Proof.
  intros (Ha & Hb & Hlast) Hexp Hscale Hcoin Hr.
  destruct (sigmoid_reward_range exp cur_perf best_perf n_calls scale r Hexp Hscale Hr)
    as (q & -> & Hq0 & Hq1).
  split; [by exists q|].
  destruct (complement_range q Hq0 Hq1) as (q' & Hc & Hq').
  assert (∃ s1, TwoActionTS.update s (Finite q) = Return s1 ∧
                TwoActionTS._last_action s1 = None ∧
                grown_pair (TwoActionTS.alpha s1) ∧
                grown_pair (TwoActionTS.beta s1)) as (s1 & Hup & Hnone & Ha1 & Hb1).
  { unfold TwoActionTS.update. destruct (TwoActionTS._last_action s) as [a|] eqn:Hact.
    - simpl in Hlast.
      destruct (lookup_lt_is_Some_2 (TwoActionTS.alpha s) a) as [x Hx].
      { destruct Ha as (? & ? & -> & _). simpl. lia. }
      destruct (lookup_lt_is_Some_2 (TwoActionTS.beta s) a) as [y Hy].
      { destruct Hb as (? & ? & -> & _). simpl. lia. }
      rewrite Hx, Hy, Hc. eexists. split; [done|]. simpl. split; [done|]. split.
      + by apply grown_pair_insert.
      + by apply grown_pair_insert.
    - exists s. by rewrite Hact. }
  exists s1. split; [done|].
  split; [done|]. unfold TwoActionTS.select. cbn [fst snd]. split; [|split; [|done]].
  - split; [done|]. split; [done|]. simpl. repeat case_match; lia.
  - repeat case_match; lia.
Qed.

Lemma ts_round_keeps_posteriors_positive_witness :
  let d := {| uniform := 1; coin := 0; theta0 := 1 # 3; theta1 := 2 # 3 |} in
  let s := (TwoActionTS.select (TwoActionTS.init (1 # 10)) d).1 in
  let exp := λ _ : float, Return (Finite 0) in
  TwoActionTS._last_action s = Some 1%nat ∧
  ts_ok s ∧ exp_range exp ∧ ¬ (500 == 0)%Q ∧ (coin d < 2)%nat ∧
  TwoActionTS.reward exp (Finite 1100) (Finite 1000) 1 (Finite 500) = Return (Finite 1) ∧
  TwoActionTS.update s (Finite 1)
    = Return {| TwoActionTS.epsilon := 1 # 10;
                TwoActionTS.alpha := [Finite 1; Finite 2];
                TwoActionTS.beta := [Finite 1; Finite 1];
                TwoActionTS._last_action := None |} ∧
  (∃ q, Finite 1 = Finite q ∧ (0 <= q)%Q ∧ (q <= 1)%Q) ∧
  ∃ s1,
    TwoActionTS.update s (Finite 1) = Return s1 ∧
    TwoActionTS._last_action s1 = None ∧
    ts_ok (TwoActionTS.select s1 d).1 ∧
    ((TwoActionTS.select s1 d).2 < 2)%nat ∧
    TwoActionTS._last_action (TwoActionTS.select s1 d).1
      = Some (TwoActionTS.select s1 d).2.
Proof.
  intros d s exp.
  assert (H1 : ts_ok s).
  { split; [|split; [|simpl; lia]]; exists (Finite 1), (Finite 1);
      (split; [reflexivity|]); split; discriminate. }
  assert (H2 : exp_range exp).
  { intros x y _ [= <-]. discriminate. }
  assert (H3 : ¬ (500 == 0)%Q) by discriminate.
  assert (H4 : (coin d < 2)%nat) by (simpl; lia).
  assert (H5 : TwoActionTS.reward exp (Finite 1100) (Finite 1000) 1 (Finite 500)
               = Return (Finite 1)) by (vm_compute; reflexivity).
  split; [reflexivity|]. split; [exact H1|]. split; [exact H2|]. split; [exact H3|].
  split; [exact H4|]. split; [exact H5|]. split; [vm_compute; reflexivity|].
  exact (ts_round_keeps_posteriors_positive exp s d 1100 1000 1 500 (Finite 1)
           H1 H2 H3 H4 H5).
Defined.

(** The contextual sampler keeps one posterior per (context, action) pair:
    an [update] with a pending decision adds the reward to alpha and one
    minus the reward to beta of that pair, clears the decision, and leaves
    the accumulators of the other action and of every other context as
    they were. *)
Theorem contextual_update_is_local (s : ContextualTS.t) (reward : float)
    (c : Z) (a : nat) (la lb : list float) (x y : float) :
  ContextualTS._last_context s = Some c → ContextualTS._last_action s = Some a →
  ContextualTS.alpha s !! c = Some la → la !! a = Some x →
  ContextualTS.beta s !! c = Some lb → lb !! a = Some y →
  ∃ s',
    ContextualTS.update s reward = Return s' ∧
    ContextualTS._last_context s' = None ∧ ContextualTS._last_action s' = None ∧
    ContextualTS.accumulator (ContextualTS.alpha s') c a = Return (fadd x reward) ∧
    ContextualTS.accumulator (ContextualTS.beta s') c a
      = Return (fadd y (fsub (Finite 1) reward)) ∧
    (∀ c' a', (c', a') ≠ (c, a) →
       ContextualTS.accumulator (ContextualTS.alpha s') c' a'
         = ContextualTS.accumulator (ContextualTS.alpha s) c' a' ∧
       ContextualTS.accumulator (ContextualTS.beta s') c' a'
         = ContextualTS.accumulator (ContextualTS.beta s) c' a').
Proof.
  intros Hc Ha Hla Hx Hlb Hy.
  unfold ContextualTS.update. rewrite Hc, Ha.
  unfold ContextualTS.accumulator at 1 2. rewrite Hla, Hx, Hlb, Hy. cbn [bind].
  eexists. split; [reflexivity|]. cbn.
  split; [done|]. split; [done|].
  unfold ContextualTS.accumulator.
  rewrite !lookup_alter_eq, Hla, Hlb. cbn.
  rewrite !list_lookup_insert_eq by (by eapply lookup_lt_Some).
  split; [done|]. split; [done|].
  intros c' a' Hne. destruct (decide (c' = c)) as [->|Hcne].
  - rewrite !lookup_alter_eq, Hla, Hlb. cbn.
    assert (a ≠ a') by congruence.
    by rewrite !list_lookup_insert_ne.
  - by rewrite !lookup_alter_ne.
Qed.

Lemma contextual_update_is_local_witness :
  let s := (ContextualTS.select (ContextualTS.init (1 # 10)) 1
              {| uniform := 0; coin := 1; theta0 := 0; theta1 := 0 |}) in
  ∃ s0, s = Return (s0, 1%nat) ∧
  ∃ s',
    ContextualTS.update s0 (literal (3 # 4)) = Return s' ∧
    ContextualTS._last_context s' = None ∧ ContextualTS._last_action s' = None ∧
    ContextualTS.accumulator (ContextualTS.alpha s') 1 1
      = Return (fadd (Finite 1) (literal (3 # 4))) ∧
    ContextualTS.accumulator (ContextualTS.beta s') 1 1
      = Return (fadd (Finite 1) (fsub (Finite 1) (literal (3 # 4)))) ∧
    (∀ c' a', (c', a') ≠ (1, 1%nat) →
       ContextualTS.accumulator (ContextualTS.alpha s') c' a'
         = ContextualTS.accumulator (ContextualTS.alpha s0) c' a' ∧
       ContextualTS.accumulator (ContextualTS.beta s') c' a'
         = ContextualTS.accumulator (ContextualTS.beta s0) c' a').
Proof.
  intros s. eexists. split; [reflexivity|].
  apply (contextual_update_is_local _ (literal (3 # 4)) 1 1%nat
           [Finite 1; Finite 1] [Finite 1; Finite 1] (Finite 1) (Finite 1)); reflexivity.
Defined.

End BanditInvariants.

(** ** Outer loop: budgets, frozen values and complete configurations *)

Section TunerInvariants.
Import Tuner.

(** A round never gets more calls than the budget that remains, and the
    number of initial random points only depends on the start being cold
    (10) or warm (0). *)
Theorem decide_calls_within_budget {X : Type} (x0 : option X)
    (updated_knobs_num len_knobs : Z) (f : flags) (remaining_iters initial_pts n_calls : Z) :
  decide_calls x0 updated_knobs_num len_knobs f remaining_iters
    = Return (initial_pts, n_calls) →
  n_calls ≤ remaining_iters ∧ initial_pts = (if x0 then 0 else 10).
Proof.
  unfold decide_calls. destruct x0; repeat case_match; intros [= <- <-]; split; (lia || done).
Qed.

Lemma decide_calls_within_budget_witness :
  decide_calls (X := unit) None 0 5 no_flags 30 = Return (10, 30) ∧
  30 ≤ 30 ∧ 10 = (if (None : option unit) then 0 else 10).
Proof.
  split; [reflexivity|].
  apply (decide_calls_within_budget (X := unit) None 0 5 no_flags 30 10 30). reflexivity.
Defined.

(** Outside the statistical-elimination policy every round makes progress:
    with at least one knob, a non-negative count of added knobs, a positive
    remaining budget and a flag sum the guard accepts, the round gets at
    least one call. *)
Theorem decide_calls_makes_progress {X : Type} (x0 : option X)
    (updated_knobs_num len_knobs : Z) (f : flags) (remaining_iters : Z) :
  is_SE f = 0 → 1 ≤ len_knobs → 0 ≤ updated_knobs_num → 1 ≤ remaining_iters →
  is_basic f + is_incremental f + is_SE f + is_bandit f ≤ 2 →
  ∃ initial_pts n_calls,
    decide_calls x0 updated_knobs_num len_knobs f remaining_iters
      = Return (initial_pts, n_calls) ∧
    1 ≤ n_calls ≤ remaining_iters.
Proof.
  intros Hse Hlen Hupd Hrem Hsum. unfold decide_calls. rewrite Hse. cbn [truthy Z.eqb negb].
  destruct (Z.ltb_spec 2 (is_basic f + is_incremental f + 0 + is_bandit f)); [lia|].
  destruct x0; repeat case_match; eexists _, _; (split; [reflexivity|]); lia.
Qed.

Lemma decide_calls_makes_progress_witness :
  is_SE no_flags = 0 ∧ 1 ≤ 5 ∧ 0 ≤ 2 ∧ 1 ≤ 30 ∧
  is_basic no_flags + is_incremental no_flags + is_SE no_flags + is_bandit no_flags ≤ 2 ∧
  ∃ initial_pts n_calls,
    decide_calls (Some tt) 2 5 no_flags 30 = Return (initial_pts, n_calls) ∧
    1 ≤ n_calls ≤ 30.
Proof.
  split; [reflexivity|]. split; [lia|]. split; [lia|]. split; [lia|].
  split; [simpl; lia|].
  apply (decide_calls_makes_progress (Some tt) 2 5 no_flags 30);
    [reflexivity | lia | lia | lia | simpl; lia].
Defined.

(** Under the statistical-elimination policy a warm round is given what
    remains minus 100 calls: with at most 100 iterations left (and neither
    the fixed-iteration nor the incremental flag set) the round gets no
    call at all, or a negative number of calls. *)
Theorem decide_calls_starves_late_elimination_rounds {X : Type} (x : X)
    (updated_knobs_num len_knobs : Z) (f : flags) (remaining_iters : Z) :
  is_SE f ≠ 0 → is_basic f = 0 → is_incremental f = 0 →
  is_SE f + is_bandit f ≤ 2 → remaining_iters ≤ 100 →
  decide_calls (Some x) updated_knobs_num len_knobs f remaining_iters
    = Return (0, remaining_iters - 100) ∧
  remaining_iters - 100 ≤ 0.
Proof.
  intros Hse Hb Hi Hsum Hrem. unfold decide_calls. rewrite Hb, Hi.
  assert (truthy (is_SE f) = true) as ->.
  { unfold truthy. by destruct (Z.eqb_spec (is_SE f) 0). }
  cbn [truthy Z.eqb negb].
  destruct (Z.ltb_spec 2 (0 + 0 + is_SE f + is_bandit f)); [lia|].
  split; [|lia]. repeat case_match; f_equal; f_equal; lia.
Qed.

Lemma decide_calls_starves_late_elimination_rounds_witness :
  let f := {| is_basic := 0; is_low := 0; is_SE := 1; is_incremental := 0;
              is_bandit := 0; is_TS := 0; is_LRT := 0; is_super_low := 0;
              is_pure_incremental := 0 |} in
  is_SE f ≠ 0 ∧ is_basic f = 0 ∧ is_incremental f = 0 ∧
  is_SE f + is_bandit f ≤ 2 ∧ 50 ≤ 100 ∧
  decide_calls (Some tt) 0 5 f 50 = Return (0, 50 - 100) ∧ 50 - 100 ≤ 0.
Proof.
  intros f. split; [discriminate|]. split; [reflexivity|]. split; [reflexivity|].
  split; [simpl; lia|]. split; [lia|].
  apply (decide_calls_starves_late_elimination_rounds tt 0 5 f 50);
    [discriminate | reflexivity | reflexivity | simpl; lia | lia].
Defined.

(** The value [get_combined_config] gives a knob: tuned, else frozen, else
    default. *)
Lemma combined_fold (tuned frozen : gmap string value) (l : Normalizer.knob_dict) :
  ∀ acc : gmap string value, NoDup (Normalizer.knob_names l) →
  let combined :=
    foldl (λ combined nk,
             let '(knob, values) := nk in
             match tuned !! knob, frozen !! knob with
             | Some v, _ => <[knob := v]> combined
             | None, Some v => <[knob := v]> combined
             | None, None => <[knob := Normalizer.default_value values]> combined
             end) acc l in
  (∀ k, k ∉ Normalizer.knob_names l → combined !! k = acc !! k) ∧
  (∀ knob values, (knob, values) ∈ l →
     combined !! knob
       = Some (match tuned !! knob, frozen !! knob with
               | Some v, _ => v
               | None, Some v => v
               | None, None => Normalizer.default_value values
               end)).
Proof.
  induction l as [|[name vals] l IH]; intros acc Hnd; simpl.
  - split; [done|]. intros ?? H. by apply elem_of_nil in H.
  - apply NoDup_cons in Hnd as [Hfresh Hnd].
    match goal with |- context [foldl _ ?a l] => destruct (IH a Hnd) as [Hout Hin] end.
    split.
    + intros k Hk. apply not_elem_of_cons in Hk as [Hne Hk]. rewrite (Hout k Hk).
      repeat case_match; by rewrite lookup_insert_ne.
    + intros knob values Hel. apply elem_of_cons in Hel as [Heq|Hel]; [|by apply Hin].
      injection Heq as -> ->. rewrite (Hout name Hfresh).
      repeat case_match; by rewrite lookup_insert_eq.
Qed.

(** The best configuration is complete and follows the precedence tuned,
    then frozen, then default: when the vector denormalizes, every knob of
    the full dictionary gets the tuned value if it is tuned, else its
    frozen value if it has one, else its default, and no other key
    appears. *)
Theorem combined_config_precedence (normalizer full_knob_dict : Normalizer.knob_dict)
    (frozen_values tuned : gmap string value) (best_norm : list Q) :
  NoDup (Normalizer.knob_names full_knob_dict) →
  Normalizer.denormalize normalizer (float_value <$> best_norm) = Return tuned →
  ∃ combined,
    get_combined_config normalizer full_knob_dict frozen_values best_norm = Return combined ∧
    dom combined = list_to_set (Normalizer.knob_names full_knob_dict) ∧
    ∀ knob values, (knob, values) ∈ full_knob_dict →
      combined !! knob
        = Some (match tuned !! knob, frozen_values !! knob with
                | Some v, _ => v
                | None, Some v => v
                | None, None => Normalizer.default_value values
                end).
Proof.
  intros Hnd Hden. unfold get_combined_config. rewrite Hden. cbn [bind].
  destruct (combined_fold tuned frozen_values full_knob_dict ∅ Hnd) as [Hout Hin].
  eexists. split; [reflexivity|]. split; [|exact Hin].
  apply set_eq. intros k. rewrite elem_of_dom, elem_of_list_to_set. split.
  - intros Hsome. destruct (decide (k ∈ Normalizer.knob_names full_knob_dict)); [done|].
    rewrite Hout in Hsome by done. rewrite lookup_empty in Hsome. by destruct Hsome.
  - intros Hk. unfold Normalizer.knob_names in Hk.
    apply list_elem_of_fmap in Hk as ([knob values] & -> & Hel). cbn [fst].
    rewrite (Hin knob values Hel). by eexists.
Qed.

Lemma combined_config_precedence_witness :
  let full := KnobSelection.twenty_knobs in
  let normalizer := [("a"%string, Normalizer.Integer 0 100 50)] in
  let frozen : gmap string value := {[ "b"%string := VInt 7 ]} in
  NoDup (Normalizer.knob_names full) ∧
  Normalizer.denormalize normalizer (float_value <$> [8 # 10]%Q) = Return {[ "a"%string := VInt 80 ]} ∧
  ∃ combined,
    get_combined_config normalizer full frozen [8 # 10]%Q = Return combined ∧
    dom combined = list_to_set (Normalizer.knob_names full) ∧
    ∀ knob values, (knob, values) ∈ full →
      combined !! knob
        = Some (match ({[ "a"%string := VInt 80 ]} : gmap string value) !! knob,
                      frozen !! knob with
                | Some v, _ => v
                | None, Some v => v
                | None, None => Normalizer.default_value values
                end).
Proof.
  intros full normalizer frozen.
  assert (H1 : NoDup (Normalizer.knob_names full)).
  { refine (bool_decide_unpack _ _). vm_compute. exact I. }
  assert (H2 : Normalizer.denormalize normalizer (float_value <$> [8 # 10]%Q)
               = Return {[ "a"%string := VInt 80 ]}).
  { vm_compute. reflexivity. }
  split; [exact H1|]. split; [exact H2|].
  exact (combined_config_precedence normalizer full frozen _ [8 # 10]%Q H1 H2).
Defined.

Lemma denormalize_loop_dom kd : ∀ vec acc out,
  Normalizer.denormalize_loop kd vec acc = Return out →
  dom out = list_to_set (Normalizer.knob_names kd) ∪ dom acc.
Proof.
  induction kd as [|[name k] kd IH]; intros vec acc out H; simpl in H.
  - injection H as <-. set_solver.
  - destruct vec as [|x vec]; [done|].
    destruct (Normalizer.denormalize_knob k x) as [v| |]; [|done..]. simpl in H.
    rewrite (IH _ _ _ H), dom_insert_L. set_solver.
Qed.

Lemma fill_fold (names : list string) (frozen : gmap string value)
    (l : Normalizer.knob_dict) :
  ∀ acc : gmap string value, NoDup (Normalizer.knob_names l) →
  (∀ k, k ∉ Normalizer.knob_names l →
     Objective.fill_config names l frozen acc !! k = acc !! k) ∧
  (∀ knob values, (knob, values) ∈ l →
     Objective.fill_config names l frozen acc !! knob
       = if bool_decide (knob ∈ names) then acc !! knob
         else Some (match frozen !! knob with
                    | Some v => v
                    | None => Normalizer.default_value values
                    end)).
Proof.
  induction l as [|[name vals] l IH]; intros acc Hnd.
  - split; [done|]. intros ?? H. by apply elem_of_nil in H.
  - apply NoDup_cons in Hnd as [Hfresh Hnd]. simpl in Hfresh.
    assert (∃ acc', Objective.fill_config names ((name, vals) :: l) frozen acc
                    = Objective.fill_config names l frozen acc' ∧
                    (∀ k, k ≠ name → acc' !! k = acc !! k) ∧
                    acc' !! name
                      = if bool_decide (name ∈ names) then acc !! name
                        else Some (match frozen !! name with
                                   | Some v => v
                                   | None => Normalizer.default_value vals
                                   end)) as (acc' & -> & Hother & Hname).
    { unfold Objective.fill_config. simpl. case_bool_decide.
      - by exists acc.
      - destruct (frozen !! name) as [v|]; eexists; (split; [reflexivity|]); split;
          try (intros k Hk; by rewrite lookup_insert_ne);
          by rewrite lookup_insert_eq. }
    destruct (IH acc' Hnd) as [Hout Hin]. split.
    + intros k Hk. apply not_elem_of_cons in Hk as [Hne Hk].
      rewrite (Hout k Hk). by apply Hother.
    + intros knob values Hel. apply elem_of_cons in Hel as [Heq|Hel].
      * injection Heq as -> ->. by rewrite (Hout name Hfresh).
      * rewrite (Hin knob values Hel).
        assert (knob ≠ name).
        { intros ->. apply Hfresh. apply list_elem_of_fmap. by exists (name, values). }
        by rewrite Hother.
Qed.

(** The objective function and the final report agree: when the tuned
    knobs are knobs of the full dictionary, the configuration
    [objective_func] builds for the driver is the one
    [get_combined_config] builds from the same vector (and both fail alike
    when the vector does not denormalize). *)
Theorem objective_config_is_combined_config (normalizer full_knob_dict : Normalizer.knob_dict)
    (frozen_values : gmap string value) (norm_values : list Q) :
  NoDup (Normalizer.knob_names full_knob_dict) →
  Normalizer.knob_names normalizer ⊆ Normalizer.knob_names full_knob_dict →
  Objective.objective_config norm_values normalizer full_knob_dict frozen_values
    = get_combined_config normalizer full_knob_dict frozen_values norm_values.
Proof.
  intros Hnd Hsub. unfold Objective.objective_config, get_combined_config.
  destruct (Normalizer.denormalize normalizer (float_value <$> norm_values)) as [tuned| |] eqn:Hden; [|done..].
  cbn [bind]. f_equal.
  assert (Hdom : dom tuned = list_to_set (Normalizer.knob_names normalizer)).
  { unfold Normalizer.denormalize in Hden. case_decide; [done|].
    rewrite (denormalize_loop_dom _ _ _ _ Hden). set_solver. }
  destruct (combined_fold tuned frozen_values full_knob_dict ∅ Hnd) as [Hout Hin].
  destruct (fill_fold (Normalizer.knob_names normalizer) frozen_values full_knob_dict
              tuned Hnd) as [Hout' Hin'].
  apply map_eq. intros k.
  destruct (decide (k ∈ Normalizer.knob_names full_knob_dict)) as [Hk|Hk].
  - unfold Normalizer.knob_names in Hk.
    apply list_elem_of_fmap in Hk as ([knob values] & -> & Hel). cbn [fst].
    rewrite (Hin' knob values Hel). etrans; [|symmetry; exact (Hin knob values Hel)].
    case_bool_decide as Hn.
    + assert (is_Some (tuned !! knob)) as [v Hv].
      { apply elem_of_dom. rewrite Hdom. by apply elem_of_list_to_set. }
      by rewrite Hv.
    + assert (tuned !! knob = None) as ->; [|done].
      apply not_elem_of_dom. rewrite Hdom. by rewrite elem_of_list_to_set.
  - rewrite (Hout k Hk), (Hout' k Hk), lookup_empty.
    apply not_elem_of_dom. rewrite Hdom, elem_of_list_to_set. intros Hn. by apply Hk, Hsub.
Qed.

Lemma objective_config_is_combined_config_witness :
  let full := KnobSelection.twenty_knobs in
  let normalizer := [("a"%string, Normalizer.Integer 0 100 50)] in
  let frozen : gmap string value := {[ "b"%string := VInt 7 ]} in
  NoDup (Normalizer.knob_names full) ∧
  Normalizer.knob_names normalizer ⊆ Normalizer.knob_names full ∧
  Objective.objective_config [8 # 10]%Q normalizer full frozen
    = get_combined_config normalizer full frozen [8 # 10]%Q.
Proof.
  intros full normalizer frozen.
  assert (H1 : NoDup (Normalizer.knob_names full)).
  { refine (bool_decide_unpack _ _). vm_compute. exact I. }
  assert (H2 : Normalizer.knob_names normalizer ⊆ Normalizer.knob_names full).
  { intros k Hk. apply list_elem_of_singleton in Hk as ->.
    refine (bool_decide_unpack _ _). vm_compute. exact I. }
  split; [exact H1|]. split; [exact H2|].
  exact (objective_config_is_combined_config normalizer full frozen [8 # 10]%Q H1 H2).
Defined.

Lemma freeze_spec (new_knobs : list string) (best_cfg : gmap string value)
    (current_knobs : list string) : ∀ frozen frozen' : gmap string value,
  freeze current_knobs new_knobs best_cfg frozen = Return frozen' →
  (∀ k, k ∈ current_knobs → k ∉ new_knobs →
     is_Some (best_cfg !! k) ∧ frozen' !! k = best_cfg !! k) ∧
  (∀ k, k ∉ current_knobs ∨ k ∈ new_knobs → frozen' !! k = frozen !! k).
Proof.
  induction current_knobs as [|k0 rest IH]; intros frozen frozen' H; simpl in H.
  - injection H as <-. split; [|done]. intros k Hk. by apply elem_of_nil in Hk.
  - case_bool_decide as Hk0.
    + destruct (IH _ _ H) as [IH1 IH2]. split.
      * intros k Hk Hn. apply elem_of_cons in Hk as [->|Hk]; [done|]. by apply IH1.
      * intros k [Hk|Hk]; apply IH2; [|by right].
        left. by apply not_elem_of_cons in Hk as [_ ?].
    + destruct (best_cfg !! k0) as [v|] eqn:Hv; [|done].
      destruct (IH _ _ H) as [IH1 IH2]. split.
      * intros k Hk Hn. destruct (decide (k ∈ rest)) as [Hr|Hr]; [by apply IH1|].
        apply elem_of_cons in Hk as [->|Hk]; [|done].
        rewrite Hv. split; [by eexists|].
        rewrite IH2 by (by left). by rewrite lookup_insert_eq.
      * intros k Hk.
        assert (k ≠ k0 ∧ (k ∉ rest ∨ k ∈ new_knobs)) as [Hne Hk'].
        { destruct Hk as [Hk|Hk].
          - apply not_elem_of_cons in Hk as [? ?]. auto.
          - split; [|by right]. by intros ->. }
        rewrite IH2 by done. by rewrite lookup_insert_ne.
Qed.

(** Freezing: when the best configuration has a value for every knob that
    leaves the tuned set, [freeze] returns; each dropped knob is then
    frozen at its best value, and the frozen value of every other knob is
    what it was. *)
Theorem freeze_records_dropped_knobs (current_knobs new_knobs : list string)
    (best_cfg frozen_values : gmap string value) :
  (∀ k, k ∈ current_knobs → k ∉ new_knobs → is_Some (best_cfg !! k)) →
  ∃ frozen',
    freeze current_knobs new_knobs best_cfg frozen_values = Return frozen' ∧
    (∀ k, k ∈ current_knobs → k ∉ new_knobs → frozen' !! k = best_cfg !! k) ∧
    (∀ k, k ∉ current_knobs ∨ k ∈ new_knobs → frozen' !! k = frozen_values !! k).
Proof.
  intros Hbest.
  assert (∃ frozen', freeze current_knobs new_knobs best_cfg frozen_values = Return frozen')
    as [frozen' H].
  { revert frozen_values. induction current_knobs as [|k0 rest IH]; intros frozen; simpl.
    - by eexists.
    - case_bool_decide as Hk0.
      + apply IH. intros k Hk. apply Hbest. by right.
      + destruct (Hbest k0) as [v ->]; [by left | done |].
        apply IH. intros k Hk. apply Hbest. by right. }
  exists frozen'. split; [done|].
  destruct (freeze_spec _ _ _ _ _ H) as [H1 H2]. split; [|done].
  intros k Hk Hn. by apply H1.
Qed.

Lemma freeze_records_dropped_knobs_witness :
  let best : gmap string value := {[ "a"%string := VInt 80; "b"%string := VInt 3 ]} in
  (∀ k, k ∈ ["a"; "b"]%string → k ∉ ["a"; "c"]%string → is_Some (best !! k)) ∧
  ∃ frozen',
    freeze ["a"; "b"]%string ["a"; "c"]%string best ∅ = Return frozen' ∧
    (∀ k, k ∈ ["a"; "b"]%string → k ∉ ["a"; "c"]%string → frozen' !! k = best !! k) ∧
    (∀ k, k ∉ ["a"; "b"]%string ∨ k ∈ ["a"; "c"]%string →
          frozen' !! k = (∅ : gmap string value) !! k).
Proof.
  intros best.
  assert (H : ∀ k, k ∈ ["a"; "b"]%string → k ∉ ["a"; "c"]%string → is_Some (best !! k)).
  { intros k Hk _. apply elem_of_cons in Hk as [->|Hk]; [by eexists|].
    apply list_elem_of_singleton in Hk as ->. by eexists. }
  split; [exact H|].
  exact (freeze_records_dropped_knobs ["a"; "b"]%string ["a"; "c"]%string best ∅ H).
Defined.

(** Whenever [feature_selection_cycle] returns, every knob that left the
    tuned set has a frozen value, and the frozen values of all other knobs
    are untouched. *)
Theorem cycle_freezes_dropped_knobs (e : env) (X_all : list (list Q)) (y_all : list Q)
    (current_knobs : list string) (full_knob_dict : Normalizer.knob_dict)
    (frozen_values : gmap string value) (f : flags)
    (selector : option KnobSelection.IncrementalSupportMask) (is_random : Z)
    (b : option bandit) (n_calls : option Z) (res : cycle_result) :
  feature_selection_cycle e X_all y_all current_knobs full_knob_dict frozen_values
    f selector is_random b n_calls = Return res →
  (∀ k, k ∈ current_knobs → k ∉ new_knobs res → is_Some (frozen_values' res !! k)) ∧
  (∀ k, k ∉ current_knobs ∨ k ∈ new_knobs res →
        frozen_values' res !! k = frozen_values !! k).
Proof.
  unfold feature_selection_cycle. intros H.
  destruct (select_features _ _ _ _ _ _ _ _) as [l| |]; [|done..]. cbn [bind] in H.
  destruct (read_local _) as [?| |]; [|done..]. cbn [bind] in H.
  destruct (KnobSelection.update_tuned_knobs _ _ _ _ _ _ _) as [[new updated]| |];
    [|done..]. cbn [bind] in H.
  destruct updated.
  - destruct (argmin y_all) as [best_idx| |]; [|done..]. cbn [bind] in H.
    destruct (sub_dict full_knob_dict current_knobs) as [normalizer| |]; [|done..].
    cbn [bind] in H.
    destruct (X_all !! best_idx) as [best_norm|]; [|done]. cbn [bind] in H.
    destruct (get_combined_config _ _ _ _) as [best_cfg| |]; [|done..]. cbn [bind] in H.
    destruct (freeze current_knobs new best_cfg frozen_values) as [frozen| |] eqn:Hfr;
      [|done..]. cbn [bind] in H.
    destruct (sub_dict full_knob_dict new) as [?| |]; [|done..]. cbn [bind] in H.
    destruct (load_intermediate_data e new) as [[x0 y0]| |]; [|done..]. cbn [bind] in H.
    injection H as <-. simpl.
    destruct (freeze_spec _ _ _ _ _ Hfr) as [H1 H2]. split; [|done].
    intros k Hk Hn. destruct (H1 k Hk Hn) as [Hs Heq]. by rewrite Heq.
  - injection H as <-. simpl. split; [|done]. intros k Hk Hn. done.
Qed.

Lemma cycle_freezes_dropped_knobs_witness :
  ∃ res,
    feature_selection_cycle CycleScenario.picky_env [[1; 0]; [0; 1]]%Q [5; 4]%Q
      ["a"; "b"]%string KnobSelection.twenty_knobs ∅ CycleScenario.pure_incremental_flags
      None 0 None (Some 2) = Return res ∧
    new_knobs res = ["a"; "c"; "d"; "e"; "f"; "g"]%string ∧
    frozen_values' res !! "b"%string = Some (VInt 100) ∧
    (∀ k, k ∈ ["a"; "b"]%string → k ∉ new_knobs res → is_Some (frozen_values' res !! k)) ∧
    (∀ k, k ∉ ["a"; "b"]%string ∨ k ∈ new_knobs res →
          frozen_values' res !! k = (∅ : gmap string value) !! k).
Proof.
  eexists. split; [vm_compute; reflexivity|]. split; [reflexivity|].
  split; [vm_compute; reflexivity|].
  apply (cycle_freezes_dropped_knobs CycleScenario.picky_env [[1; 0]; [0; 1]]%Q [5; 4]%Q
           ["a"; "b"]%string KnobSelection.twenty_knobs ∅
           CycleScenario.pure_incremental_flags None 0 None (Some 2)).
  vm_compute. reflexivity.
Defined.

Lemma filter_keeps_all {A : Type} (P : A → Prop) `{!∀ x, Decision (P x)} (l : list A) :
  Forall P l → filter P l = l.
Proof.
  induction 1 as [|x l Hx _ IH]; [done|].
  rewrite filter_cons_True by done. by rewrite IH.
Qed.

Lemma NoDup_submseteq {A : Type} (l k : list A) : l ⊆+ k → NoDup k → NoDup l.
Proof.
  intros Hsub Hnd. apply submseteq_Permutation in Hsub as [rest Hperm].
  rewrite Hperm in Hnd. by apply NoDup_app in Hnd as [? _].
Qed.

Lemma sub_dict_names (full_knob_dict : Normalizer.knob_dict) (knobs : list string) :
  NoDup knobs → NoDup (Normalizer.knob_names full_knob_dict) →
  (∀ k, k ∈ knobs → k ∈ Normalizer.knob_names full_knob_dict) →
  ∃ kd, sub_dict full_knob_dict knobs = Return kd ∧
        Normalizer.knob_names kd = knobs ∧
        ∀ nk, nk ∈ kd → nk ∈ full_knob_dict.
Proof.
  intros Hnd Hfull. induction Hnd as [|k knobs Hfresh Hnd IH]; intros Hin.
  - exists []. split; [done|]. split; [done|]. intros ? H. by apply elem_of_nil in H.
  - destruct IH as (kd & Hkd & Hnames & Hsub).
    { intros k' Hk'. apply Hin. by right. }
    assert (k ∈ Normalizer.knob_names full_knob_dict) as Hk by (apply Hin; by left).
    unfold Normalizer.knob_names in Hk.
    apply list_elem_of_fmap in Hk as ([k' values] & Heq & Hel). simpl in Heq. subst k'.
    assert (Hlook : (list_to_map full_knob_dict : gmap string Normalizer.knob) !! k
                    = Some values) by (by apply elem_of_list_to_map_1).
    simpl. rewrite Hlook, Hkd. cbn [bind].
    assert (Hfilter : filter (λ nk : string * Normalizer.knob, nk.1 ≠ k) kd = kd).
    { apply filter_keeps_all. apply Forall_forall. intros [k' v'] Hel'. simpl. intros ->.
      apply Hfresh. rewrite <- Hnames. apply list_elem_of_fmap. by exists (k, v'). }
    rewrite Hfilter. eexists. split; [done|]. split.
    + simpl. by rewrite Hnames.
    + intros nk Hnk. apply elem_of_cons in Hnk as [->|Hnk]; [done | by apply Hsub].
Qed.

Lemma sub_dict_missing (full_knob_dict : Normalizer.knob_dict) (knobs : list string) :
  (∃ k, k ∈ knobs ∧ k ∉ Normalizer.knob_names full_knob_dict) →
  sub_dict full_knob_dict knobs = Raise KeyError.
Proof.
  intros (k & Hk & Hmiss). induction knobs as [|k0 knobs IH]; [by apply elem_of_nil in Hk|].
  simpl. destruct (list_to_map full_knob_dict !! k0) as [values|] eqn:Hlook; [|done].
  apply elem_of_cons in Hk as [->|Hk].
  - exfalso. apply Hmiss. apply elem_of_list_to_map_2 in Hlook.
    apply list_elem_of_fmap. by exists (k0, values).
  - by rewrite IH.
Qed.

(** The Normalizer built for a list of knobs,
    [Normalizer({k: full_knob_dict[k] for k in knobs})]: for distinct knobs
    of the dictionary it has exactly those knobs, in that order, each with
    its dictionary entry; a knob outside the dictionary is a KeyError. *)
Theorem sub_dict_selects (full_knob_dict : Normalizer.knob_dict) (knobs : list string) :
  NoDup knobs → NoDup (Normalizer.knob_names full_knob_dict) →
  ((∀ k, k ∈ knobs → k ∈ Normalizer.knob_names full_knob_dict) →
   ∃ kd, sub_dict full_knob_dict knobs = Return kd ∧
         Normalizer.knob_names kd = knobs ∧
         ∀ nk, nk ∈ kd → nk ∈ full_knob_dict) ∧
  ((∃ k, k ∈ knobs ∧ k ∉ Normalizer.knob_names full_knob_dict) →
   sub_dict full_knob_dict knobs = Raise KeyError).
Proof.
  intros Hnd Hfull. split.
  - by apply sub_dict_names.
  - apply sub_dict_missing.
Qed.

Lemma sub_dict_selects_witness :
  NoDup KnobSelection.first_ten ∧
  NoDup (Normalizer.knob_names KnobSelection.twenty_knobs) ∧
  ((∀ k, k ∈ KnobSelection.first_ten → k ∈ Normalizer.knob_names KnobSelection.twenty_knobs) →
   ∃ kd, sub_dict KnobSelection.twenty_knobs KnobSelection.first_ten = Return kd ∧
         Normalizer.knob_names kd = KnobSelection.first_ten ∧
         ∀ nk, nk ∈ kd → nk ∈ KnobSelection.twenty_knobs) ∧
  ((∃ k, k ∈ KnobSelection.first_ten ∧ k ∉ Normalizer.knob_names KnobSelection.twenty_knobs) →
   sub_dict KnobSelection.twenty_knobs KnobSelection.first_ten = Raise KeyError).
Proof.
  assert (H1 : NoDup KnobSelection.first_ten).
  { refine (bool_decide_unpack _ _). vm_compute. exact I. }
  assert (H2 : NoDup (Normalizer.knob_names KnobSelection.twenty_knobs)).
  { refine (bool_decide_unpack _ _). vm_compute. exact I. }
  split; [exact H1|]. split; [exact H2|].
  exact (sub_dict_selects KnobSelection.twenty_knobs KnobSelection.first_ten H1 H2).
Defined.

(** The initial tuned set: for [0 <= top_n <= len(knob_dict)] and distinct
    dictionary keys, [get_knob_dicts] returns [top_n] distinct keys of the
    dictionary (the first ones unless the random policy draws them) and the
    tuned dictionary over exactly those keys, in that order. *)
Theorem get_knob_dicts_initial_set (choices : nat → nat)
    (full_knob_dict : Normalizer.knob_dict) (top_n is_random : Z) :
  NoDup (Normalizer.knob_names full_knob_dict) →
  0 ≤ top_n ≤ Z.of_nat (length full_knob_dict) →
  ∃ tuned_knob_dict tuned_keys,
    Utils.get_knob_dicts choices full_knob_dict top_n is_random
      = Return (full_knob_dict, tuned_knob_dict, tuned_keys) ∧
    NoDup tuned_keys ∧
    tuned_keys ⊆+ Normalizer.knob_names full_knob_dict ∧
    Z.of_nat (length tuned_keys) = top_n ∧
    (is_random ≠ 1 → tuned_keys = take (Z.to_nat top_n) (Normalizer.knob_names full_knob_dict)) ∧
    Normalizer.knob_names tuned_knob_dict = tuned_keys ∧
    ∀ nk, nk ∈ tuned_knob_dict → nk ∈ full_knob_dict.
Proof.
  intros Hnd Htop. unfold Utils.get_knob_dicts.
  set (keys := Normalizer.knob_names full_knob_dict) in *.
  assert (Hlen : length keys = length full_knob_dict).
  { unfold keys, Normalizer.knob_names. by rewrite length_fmap. }
  assert (∃ tuned_keys,
            (if bool_decide (is_random ≠ 1) then Return (slice_to keys top_n)
             else MySQLDriver.random_sample choices keys top_n) = Return tuned_keys ∧
            tuned_keys ⊆+ keys ∧ Z.of_nat (length tuned_keys) = top_n ∧
            (is_random ≠ 1 → tuned_keys = take (Z.to_nat top_n) keys))
    as (tuned_keys & -> & Hsub & Hn & Hfirst).
  { case_bool_decide as Hr.
    - assert (Hslice : slice_to keys top_n = take (Z.to_nat top_n) keys).
      { unfold slice_to, slice_index. destruct (Z.ltb_spec top_n 0); [lia|].
        f_equal. lia. }
      eexists. split; [done|]. rewrite Hslice. split; [|split; [|done]].
      + apply sublist_submseteq, sublist_take.
      + rewrite length_take. lia.
    - unfold MySQLDriver.random_sample. rewrite bool_decide_eq_false_2 by lia.
      eexists. split; [done|]. split; [|split; [|done]].
      + apply draw_submseteq.
      + rewrite draw_length by lia. lia. }
  cbn [bind].
  assert (Hnd' : NoDup tuned_keys) by (by eapply NoDup_submseteq).
  destruct (sub_dict_names full_knob_dict tuned_keys Hnd' Hnd) as (kd & -> & Hnames & Hin).
  { intros k Hk. by eapply elem_of_submseteq. }
  cbn [bind]. by exists kd, tuned_keys.
Qed.

Lemma get_knob_dicts_initial_set_witness :
  NoDup (Normalizer.knob_names KnobSelection.twenty_knobs) ∧
  0 ≤ 5 ≤ Z.of_nat (length KnobSelection.twenty_knobs) ∧
  ∃ tuned_knob_dict tuned_keys,
    Utils.get_knob_dicts (λ n, (7 * n + 3)%nat) KnobSelection.twenty_knobs 5 1
      = Return (KnobSelection.twenty_knobs, tuned_knob_dict, tuned_keys) ∧
    NoDup tuned_keys ∧
    tuned_keys ⊆+ Normalizer.knob_names KnobSelection.twenty_knobs ∧
    Z.of_nat (length tuned_keys) = 5 ∧
    (1 ≠ 1 → tuned_keys = take (Z.to_nat 5) (Normalizer.knob_names KnobSelection.twenty_knobs)) ∧
    Normalizer.knob_names tuned_knob_dict = tuned_keys ∧
    ∀ nk, nk ∈ tuned_knob_dict → nk ∈ KnobSelection.twenty_knobs.
Proof.
  assert (H : NoDup (Normalizer.knob_names KnobSelection.twenty_knobs)).
  { refine (bool_decide_unpack _ _). vm_compute. exact I. }
  split; [exact H|]. split; [simpl; lia|].
  apply (get_knob_dicts_initial_set (λ n, (7 * n + 3)%nat) KnobSelection.twenty_knobs 5 1 H).
  simpl. lia.
Defined.

End TunerInvariants.

(** ** Budget sampler: grouping, totality and the baseline *)

Section BudgetSamplerInvariants.
Import MySQLDriver.

(** A script without views is executed statement by statement: each part
    becomes one unit, the part followed by a semicolon. *)
Theorem plain_script_units (parts : list string) :
  Forall (λ part, String.prefix "create view" (lower part) = false) parts →
  group_statements parts [] false = (λ part, (part ++ ";")%string) <$> parts.
Proof.
  induction 1 as [|part parts Hpart _ IH]; [done|].
  simpl. rewrite Hpart. by rewrite IH.
Qed.

Lemma plain_script_units_witness :
  Forall (λ part, String.prefix "create view" (lower part) = false) three_statements ∧
  group_statements three_statements [] false
    = (λ part, (part ++ ";")%string) <$> three_statements.
Proof.
  assert (H : Forall (λ part, String.prefix "create view" (lower part) = false)
                three_statements).
  { repeat constructor. }
  split; [exact H|]. exact (plain_script_units three_statements H).
Defined.

Lemma open_view_emits_nothing (rest : list string) : ∀ buffer,
  Forall (λ part, String.prefix "drop view" (lower part) = false) rest →
  group_statements rest buffer true = [].
Proof.
  induction rest as [|part rest IH]; intros buffer Hrest; [done|].
  apply Forall_cons in Hrest as [Hpart Hrest]. simpl.
  destruct (String.prefix "create view" (lower part)); [by apply IH|].
  rewrite Hpart. by apply IH.
Qed.

Lemma group_statements_silent_suffix (suffix : list string) (pre : list string) :
  (∀ buffer in_view, group_statements suffix buffer in_view = []) →
  ∀ buffer in_view,
    group_statements (pre ++ suffix) buffer in_view = group_statements pre buffer in_view.
Proof.
  intros Hsilent. induction pre as [|part pre IH]; intros buffer in_view; simpl.
  - rewrite Hsilent. by destruct in_view.
  - repeat case_match; by rewrite ?IH.
Qed.

(** A view that is never dropped swallows the rest of the script: when a
    part starts with CREATE VIEW and no later part starts with DROP VIEW,
    that part and everything after it form no statement unit, so none of
    it is ever executed. *)
Theorem unclosed_view_drops_the_rest (pre rest : list string) (create : string) :
  String.prefix "create view" (lower create) = true →
  Forall (λ part, String.prefix "drop view" (lower part) = false) rest →
  group_statements (pre ++ create :: rest) [] false = group_statements pre [] false.
Proof.
  intros Hcreate Hrest. apply group_statements_silent_suffix.
  intros buffer in_view. simpl. rewrite Hcreate. by apply open_view_emits_nothing.
Qed.

Lemma unclosed_view_drops_the_rest_witness :
  String.prefix "create view" (lower "CREATE VIEW v AS select 1") = true ∧
  Forall (λ part, String.prefix "drop view" (lower part) = false) ["select * from v"]%string ∧
  group_statements
    (["select 0"%string] ++ "CREATE VIEW v AS select 1"%string :: ["select * from v"%string])
    [] false = group_statements ["select 0"%string] [] false.
Proof.
  split; [reflexivity|].
  assert (H : Forall (λ part, String.prefix "drop view" (lower part) = false)
                ["select * from v"]%string) by (repeat constructor).
  split; [exact H|].
  exact (unclosed_view_drops_the_rest ["select 0"]%string ["select * from v"]%string
           "CREATE VIEW v AS select 1" eq_refl H).
Defined.

Lemma clamp_percent_cases (budget : Q) :
  ((budget <= 0)%Q → ¬ (0 < clamp_percent budget)%Q) ∧
  ((100 <= budget)%Q → ¬ (clamp_percent budget < 100)%Q) ∧
  ((0 < budget)%Q → (budget < 100)%Q →
   (0 < clamp_percent budget)%Q ∧ (clamp_percent budget < 100)%Q).
Proof.
  unfold clamp_percent.
  destruct (Qltb budget 100) eqn:E1.
  - apply Qltb_lt in E1. destruct (Qltb 0 budget) eqn:E2.
    + apply Qltb_lt in E2. repeat split; intros; lra.
    + assert (¬ (0 < budget)%Q) by (intros H; apply Qltb_lt in H; congruence).
      repeat split; intros; lra.
  - assert (¬ (budget < 100)%Q) by (intros H; apply Qltb_lt in H; congruence).
    change (Qltb 0 100) with true. cbn iota. repeat split; intros; lra.
Qed.

(** [execute_olap] always returns: for a script of at most [2^46] units
    the sample size it asks of [random.sample], computed in binary64, is
    never above the number of statement units. *)
Theorem execute_olap_returns (self : driver) (r : run) (parts : list string) :
  Z.of_nat (length (group_statements parts [] false)) ≤ 2 ^ 46 →
  returns (execute_olap self r parts).
Proof.
  unfold execute_olap.
  destruct (group_statements parts [] false) as [|q queries] eqn:Hq; [by eexists|].
  intros Hfit. cbv zeta.
  destruct (Qltb 0 _ && Qltb _ 100) eqn:Hpct; [|by eexists].
  apply andb_true_iff in Hpct as [Hp Hp']. apply Qltb_lt in Hp, Hp'.
  destruct (random_sample_returns (choices r) (q :: queries)
              (clamp_percent (budget_allocator self))) as (sampled & -> & _); [done..|].
  cbn [bind]. repeat case_match; by eexists.
Qed.

Lemma execute_olap_returns_witness :
  Z.of_nat (length (group_statements three_statements [] false)) ≤ 2 ^ 46 ∧
  returns (execute_olap {| budget_allocator := 300 # 7; olap := None |} steady_run
             three_statements).
Proof.
  assert (H : Z.of_nat (length (group_statements three_statements [] false)) ≤ 2 ^ 46)
    by (vm_compute; discriminate).
  split; [exact H|].
  exact (execute_olap_returns {| budget_allocator := 300 # 7; olap := None |} steady_run
           three_statements H).
Defined.

(** Outside the open interval (0, 100) there is no sampling: with a budget
    of 0 or less (the default of the driver is 0) or of 100 or more, a
    script with at least one unit is run in full, nothing is sampled, and
    the measured time of the full run is returned. *)
Theorem no_sampling_outside_open_interval (self : driver) (r : run) (parts : list string) :
  group_statements parts [] false ≠ [] →
  (budget_allocator self <= 0)%Q ∨ (100 <= budget_allocator self)%Q →
  ∃ res, execute_olap self r parts = Return res ∧
    sampled_run res = [] ∧
    full_run res = Some (group_statements parts [] false) ∧
    returned res = full_elapsed r.
Proof.
  intros Hq Hb. unfold execute_olap.
  destruct (group_statements parts [] false) as [|q queries] eqn:Eq; [done|].
  cbv zeta.
  destruct (clamp_percent_cases (budget_allocator self)) as (Hlow & Hhigh & _).
  assert (Qltb 0 (clamp_percent (budget_allocator self))
          && Qltb (clamp_percent (budget_allocator self)) 100 = false) as ->.
  { apply andb_false_iff. destruct Hb as [Hb|Hb]; [left|right].
    - destruct (Qltb 0 _) eqn:E; [|done]. apply Qltb_lt in E. by apply Hlow in Hb.
    - destruct (Qltb _ 100) eqn:E; [|done]. apply Qltb_lt in E. by apply Hhigh in Hb. }
  by eexists.
Qed.

Lemma no_sampling_outside_open_interval_witness :
  group_statements three_statements [] false ≠ [] ∧
  ((0 <= 0)%Q ∨ (100 <= 0)%Q) ∧
  ∃ res, execute_olap {| budget_allocator := 0; olap := None |} steady_run three_statements
           = Return res ∧
    sampled_run res = [] ∧
    full_run res = Some (group_statements three_statements [] false) ∧
    returned res = full_elapsed steady_run.
Proof.
  split; [discriminate|]. split; [left; discriminate|].
  apply (no_sampling_outside_open_interval {| budget_allocator := 0; olap := None |}
           steady_run three_statements); [discriminate | left; discriminate].
Defined.

(** The baseline never gets worse: after any call, a prior best total time
    is still there or has been replaced by a strictly smaller one, and the
    budget setting is unchanged. *)
Theorem baseline_never_worsens (self : driver) (r : run) (parts : list string)
    (res : result) (b : baseline) (best : Q) :
  execute_olap self r parts = Return res →
  olap self = Some b → best_total_time b = Some best →
  budget_allocator (driver_after res) = budget_allocator self ∧
  ∃ b' best',
    olap (driver_after res) = Some b' ∧ best_total_time b' = Some best' ∧
    (best' <= best)%Q ∧
    ((best' < best)%Q ∨ b' = b).
Proof.
  intros Hcall Hb Hbest. unfold execute_olap in Hcall. rewrite Hb in Hcall.
  assert (Hfull : ∀ sampled,
            budget_allocator (driver_after (full_execution self b r
                                              (group_statements parts [] false) sampled))
              = budget_allocator self ∧
            ∃ b' best',
              olap (driver_after (full_execution self b r
                                    (group_statements parts [] false) sampled)) = Some b' ∧
              best_total_time b' = Some best' ∧ (best' <= best)%Q ∧
              ((best' < best)%Q ∨ b' = b)).
  { intros sampled. unfold full_execution. rewrite Hbest. cbn.
    split; [done|]. destruct (Qltb (full_elapsed r) best) eqn:E.
    - apply Qltb_lt in E. eexists _, _. split; [done|]. split; [done|]. split; [lra | by left].
    - exists b, best. split; [done|]. split; [done|]. split; [lra | by right]. }
  destruct (group_statements parts [] false) as [|q queries] eqn:Eq.
  - injection Hcall as <-. simpl. split; [done|].
    exists b, best. split; [done|]. split; [done|]. split; [lra | by right].
  - cbv zeta in Hcall. destruct (Qltb 0 _ && Qltb _ 100).
    + destruct (random_sample _ _ _) as [sampled| |]; [|done..]. cbn [bind] in Hcall.
      rewrite Hbest in Hcall. destruct (Qle_bool best _).
      * injection Hcall as <-. simpl. split; [done|].
        exists b, best. split; [done|]. split; [done|]. split; [lra | by right].
      * injection Hcall as <-. apply Hfull.
    + injection Hcall as <-. apply Hfull.
Qed.

Lemma baseline_never_worsens_witness :
  ∃ res b,
    execute_olap driver_with_best_100 slow_run three_statements = Return res ∧
    olap driver_with_best_100 = Some b ∧ best_total_time b = Some 100%Q ∧
    budget_allocator (driver_after res) = budget_allocator driver_with_best_100 ∧
    ∃ b' best',
      olap (driver_after res) = Some b' ∧ best_total_time b' = Some best' ∧
      (best' <= 100)%Q ∧ ((best' < 100)%Q ∨ b' = b).
Proof.
  eexists _, _. split; [vm_compute; reflexivity|]. split; [reflexivity|].
  split; [reflexivity|].
  eapply (baseline_never_worsens driver_with_best_100 slow_run three_statements);
    [vm_compute; reflexivity | reflexivity | reflexivity].
Defined.

Lemma list_to_map_dict_set (d : list (string * Q)) (k : string) (v : Q) :
  (list_to_map (dict_set d k v) : gmap string Q) = <[k := v]> (list_to_map d).
Proof.
  induction d as [|[k' v'] d IH]; simpl; [done|].
  case_bool_decide as Hk.
  - subst k'. simpl. by rewrite insert_insert_eq.
  - simpl. rewrite IH. by apply insert_insert_ne.
Qed.

Lemma time_all_lookup (r : run) (qs : list string) : ∀ n d,
  NoDup qs →
  (∀ i q, qs !! i = Some q →
     (list_to_map (time_all r n qs d) : gmap string Q) !! q
       = Some (query_time r (n + i) q)) ∧
  (∀ q, q ∉ qs →
     (list_to_map (time_all r n qs d) : gmap string Q) !! q
       = (list_to_map d : gmap string Q) !! q).
Proof.
  induction qs as [|q0 qs IH]; intros n d Hnd.
  - split; [by intros [] ??|done].
  - apply NoDup_cons in Hnd as [Hfresh Hnd]. simpl.
    destruct (IH (S n) (dict_set d q0 (query_time r n q0)) Hnd) as [Hin Hout]. split.
    + intros [|i] q Hq; simpl in Hq.
      * injection Hq as <-. rewrite (Hout q0 Hfresh), list_to_map_dict_set.
        rewrite lookup_insert_eq. do 2 f_equal. lia.
      * rewrite (Hin i q Hq). do 2 f_equal. lia.
    + intros q Hq. apply not_elem_of_cons in Hq as [Hne Hq].
      rewrite (Hout q Hq), list_to_map_dict_set. by rewrite lookup_insert_ne.
Qed.

(** A first full run gives every statement unit its own best time: with
    no prior best and distinct units (at most [2^46] of them), the call
    sets a baseline whose
    per-query times cover exactly the units of the script, each unit with
    the time measured for it in the full run. *)
Theorem first_run_records_every_unit (self : driver) (r : run) (parts : list string) :
  let queries := group_statements parts [] false in
  queries ≠ [] → NoDup queries → Z.of_nat (length queries) ≤ 2 ^ 46 →
  olap self = None ∨ (∃ b, olap self = Some b ∧ best_total_time b = None) →
  ∃ res b',
    execute_olap self r parts = Return res ∧
    olap (driver_after res) = Some b' ∧
    best_total_time b' = Some (full_elapsed r) ∧
    dom (best_olap_times b') = list_to_set queries ∧
    ∀ i q, queries !! i = Some q →
      best_olap_times b' !! q = Some (query_time r (length (sampled_run res) + i) q).
Proof.
  intros queries Hq Hnd Hfit Hnone.
  set (b0 := match olap self with
             | None => {| best_total_time := None; best_olap_times := ∅ |}
             | Some b => b
             end).
  assert (Hb0 : best_total_time b0 = None).
  { unfold b0. destruct Hnone as [->|(b & -> & Hb)]; done. }
  assert (Hfull : ∀ sampled,
            ∃ b', olap (driver_after (full_execution self b0 r queries sampled)) = Some b' ∧
                  sampled_run (full_execution self b0 r queries sampled) = sampled ∧
                  best_total_time b' = Some (full_elapsed r) ∧
                  dom (best_olap_times b') = list_to_set queries ∧
                  ∀ i q, queries !! i = Some q →
                    best_olap_times b' !! q = Some (query_time r (length sampled + i) q)).
  { intros sampled. unfold full_execution. rewrite Hb0. cbn.
    eexists. split; [done|]. split; [done|]. split; [done|]. cbn.
    destruct (time_all_lookup r queries (length sampled) [] Hnd) as [Hin Hout].
    split; [|exact Hin].
    apply set_eq. intros q. rewrite elem_of_dom, elem_of_list_to_set. split.
    - intros Hsome. destruct (decide (q ∈ queries)) as [|Hn]; [done|].
      rewrite (Hout q Hn) in Hsome. simpl in Hsome. rewrite lookup_empty in Hsome.
      by destruct Hsome.
    - intros Hel. apply list_elem_of_lookup in Hel as [i Hi].
      rewrite (Hin i q Hi). by eexists. }
  unfold execute_olap. cbv zeta. fold queries. fold b0.
  destruct queries as [|q queries'] eqn:Eq; [done|].
  destruct (Qltb 0 _ && Qltb _ 100) eqn:Hpct.
  - apply andb_true_iff in Hpct as [Hp Hp']. apply Qltb_lt in Hp, Hp'.
    destruct (random_sample_returns (choices r) (q :: queries')
                (clamp_percent (budget_allocator self))) as (sampled & -> & _); [done..|].
    cbn [bind]. rewrite Hb0.
    destruct (Hfull sampled) as (b' & Hb' & Hs & Ht & Hd & Hl).
    eexists _, b'. split; [done|]. rewrite Hs. done.
  - destruct (Hfull []) as (b' & Hb' & Hs & Ht & Hd & Hl).
    eexists _, b'. split; [done|]. rewrite Hs. done.
Qed.

Lemma first_run_records_every_unit_witness :
  let queries := group_statements three_statements [] false in
  queries ≠ [] ∧ NoDup queries ∧ Z.of_nat (length queries) ≤ 2 ^ 46 ∧
  ((olap {| budget_allocator := 50; olap := None |} = None) ∨
   (∃ b, olap {| budget_allocator := 50; olap := None |} = Some b ∧ best_total_time b = None)) ∧
  ∃ res b',
    execute_olap {| budget_allocator := 50; olap := None |} steady_run three_statements
      = Return res ∧
    olap (driver_after res) = Some b' ∧
    best_total_time b' = Some (full_elapsed steady_run) ∧
    dom (best_olap_times b') = list_to_set queries ∧
    ∀ i q, queries !! i = Some q →
      best_olap_times b' !! q
        = Some (query_time steady_run (length (sampled_run res) + i) q).
Proof.
  intros queries.
  assert (H1 : queries ≠ []) by discriminate.
  assert (H2 : NoDup queries).
  { refine (bool_decide_unpack _ _). vm_compute. exact I. }
  assert (H3 : Z.of_nat (length queries) ≤ 2 ^ 46) by (vm_compute; discriminate).
  split; [exact H1|]. split; [exact H2|]. split; [exact H3|]. split; [left; reflexivity|].
  exact (first_run_records_every_unit {| budget_allocator := 50; olap := None |}
           steady_run three_statements H1 H2 H3 (or_introl eq_refl)).
Defined.

End BudgetSamplerInvariants.
